(** * find.py: the expression evaluator and the traversal engine

  A shallow embedding of [src/project/find.py] (class [FindMimic] and
  [main]) and the properties of its specification.

  Layout:
  - [PyStr], [PyInt], [OsPath]: the Python string, [int()] and [os.path]
    operations the program calls;
  - [World]: the file system, the clock and the streams the program
    talks to;
  - [Find]: the class [FindMimic], method by method;
  - the theorems. *)

From Stdlib Require Import ZArith Ascii String List Bool Lia.
From stdpp Require Import base option list gmap strings.

Local Open Scope string_scope.
Local Open Scope Z_scope.

(* ===================================================================== *)
(** ** Python strings *)
(* ===================================================================== *)

Module PyStr.

(** [s.startswith(p)] *)
Definition startswith (p s : string) : bool := String.prefix p s.

(** [s[0]] as a one-character string; [None] models the IndexError. *)
Definition first (s : string) : option string :=
  match s with
  | EmptyString => None
  | String c _ => Some (String c EmptyString)
  end.

(** [s[1:]] *)
Definition tail (s : string) : string :=
  match s with
  | EmptyString => EmptyString
  | String _ r => r
  end.

(** [s[-1]] ; [None] models the IndexError on the empty string. *)
Fixpoint last (s : string) : option ascii :=
  match s with
  | EmptyString => None
  | String c EmptyString => Some c
  | String _ r => last r
  end.

(** [s[:-1]] *)
Fixpoint init (s : string) : string :=
  match s with
  | EmptyString => EmptyString
  | String _ EmptyString => EmptyString
  | String c r => String c (init r)
  end.

(** [s.lstrip(chars)], [chars] given as a predicate. *)
Fixpoint lstrip (p : ascii -> bool) (s : string) : string :=
  match s with
  | EmptyString => EmptyString
  | String c r => if p c then lstrip p r else s
  end.

(** [s.rstrip(chars)] *)
Fixpoint rstrip (p : ascii -> bool) (s : string) : string :=
  match s with
  | EmptyString => EmptyString
  | String c r =>
      match rstrip p r with
      | EmptyString => if p c then EmptyString else String c EmptyString
      | r' => String c r'
      end
  end.

(** [s.count(c)] for a one-character [c]. *)
Fixpoint count (c : ascii) (s : string) : nat :=
  match s with
  | EmptyString => O
  | String d r => ((if Ascii.eqb c d then 1 else 0) + count c r)%nat
  end.

(** [s.replace(old, new)] for a non-empty [old]: the occurrences are
    replaced from the left and do not overlap. The recursion is on the
    number of characters still to be scanned. *)
Fixpoint replace_aux (n : nat) (old new s : string) : string :=
  match n with
  | O => s
  | S n' =>
      if String.prefix old s
      then new ++ replace_aux n' old new
                    (String.substring (String.length old)
                       (String.length s - String.length old) s)
      else match s with
           | EmptyString => EmptyString
           | String c r => String c (replace_aux n' old new r)
           end
  end%string.

Definition replace (old new s : string) : string :=
  replace_aux (S (String.length s)) old new s.

(** [sep.join(l)] *)
Fixpoint join (sep : string) (l : list string) : string :=
  match l with
  | [] => EmptyString
  | [x] => x
  | x :: r => (x ++ sep ++ join sep r)%string
  end.

Definition all_chars (p : ascii -> bool) (s : string) : bool :=
  forallb p (list_ascii_of_string s).

End PyStr.

(* ===================================================================== *)
(** ** Python [int(s)] and [int(s, 8)] *)
(* ===================================================================== *)

Module PyInt.

(** White space as [int()] strips it, for one-byte characters. *)
Definition is_space (c : ascii) : bool :=
  let n := nat_of_ascii c in
  ((9 <=? n)%nat && (n <=? 13)%nat) || ((28 <=? n)%nat && (n <=? 32)%nat).

Definition digit_val (c : ascii) : option Z :=
  let n := nat_of_ascii c in
  if ((48 <=? n)%nat && (n <=? 57)%nat) then Some (Z.of_nat n - 48) else None.

Definition is_digit (c : ascii) : bool :=
  match digit_val c with Some _ => true | None => false end.

(** The digits of a literal: groups of digits separated by single
    underscores. [after_digit] tells whether the previous character was
    a digit. *)
Fixpoint int_digits (base acc : Z) (after_digit : bool) (s : string)
  : option Z :=
  match s with
  | EmptyString => if after_digit then Some acc else None
  | String c r =>
      if Ascii.eqb c "_"
      then if after_digit then int_digits base acc false r else None
      else match digit_val c with
           | Some d =>
               if d <? base then int_digits base (acc * base + d) true r
               else None
           | None => None
           end
  end.

Definition strip (s : string) : string :=
  PyStr.rstrip is_space (PyStr.lstrip is_space s).

Definition signed (digits : string -> option Z) (s : string) : option Z :=
  match s with
  | String "+" r => digits r
  | String "-" r => Z.opp <$> digits r
  | _ => digits s
  end.

(** [int(s)]; [None] is the ValueError. *)
Definition int (s : string) : option Z :=
  signed (int_digits 10 0 false) (strip s).

(** [int(s, 8)]: an optional [0o] prefix, after which one underscore
    may come first. *)
Definition oct_digits (s : string) : option Z :=
  match s with
  | String "0" (String x r) =>
      if Ascii.eqb x "o" || Ascii.eqb x "O"
      then match r with
           | String "_" r' => int_digits 8 0 false r'
           | _ => int_digits 8 0 false r
           end
      else int_digits 8 0 false s
  | _ => int_digits 8 0 false s
  end.

Definition int8 (s : string) : option Z := signed oct_digits (strip s).

(** [str(n)] for a natural number [n], used to write arguments down. *)
Definition digit_char (d : Z) : ascii := ascii_of_nat (Z.to_nat (48 + d)).

Fixpoint dec_digits (fuel : nat) (n : Z) (acc : string) : string :=
  match fuel with
  | O => acc
  | S f =>
      let acc' := String (digit_char (n mod 10)) acc in
      if n <? 10 then acc' else dec_digits f (n / 10) acc'
  end.

Definition str (n : Z) : string := dec_digits (S (Z.to_nat n)) n EmptyString.

End PyInt.

(* ===================================================================== *)
(** ** [os.path] on POSIX *)
(* ===================================================================== *)

Module OsPath.

Definition sep : ascii := "/"%char.

Definition has_sep (s : string) : bool := (0 <? PyStr.count sep s)%nat.

(** [os.path.join(a, b)] *)
Definition join (a b : string) : string :=
  if PyStr.startswith "/" b then b
  else match PyStr.last a with
       | None => b
       | Some c => if Ascii.eqb c sep then a ++ b else a ++ "/" ++ b
       end.

(** [os.path.basename(p)]: what follows the last separator. *)
Fixpoint basename (p : string) : string :=
  match p with
  | EmptyString => EmptyString
  | String c r =>
      if has_sep r then basename r
      else if Ascii.eqb c sep then r else p
  end.

(** [p[:i]] with [i = p.rfind(sep) + 1]. *)
Fixpoint head (p : string) : string :=
  match p with
  | EmptyString => EmptyString
  | String c r => if has_sep p then String c (head r) else EmptyString
  end.

(** [os.path.dirname(p)] *)
Definition dirname (p : string) : string :=
  let h := head p in
  if negb (PyStr.all_chars (Ascii.eqb sep) h)
  then PyStr.rstrip (Ascii.eqb sep) h else h.

End OsPath.

(* ===================================================================== *)
(** ** The world outside the program *)
(* ===================================================================== *)

(** The file type bits of [st_mode]. *)
Inductive ftype : Type :=
  S_IFREG | S_IFDIR | S_IFLNK | S_IFBLK | S_IFCHR | S_IFIFO | S_IFSOCK.

Definition ftype_eqb (a b : ftype) : bool :=
  match a, b with
  | S_IFREG, S_IFREG | S_IFDIR, S_IFDIR | S_IFLNK, S_IFLNK
  | S_IFBLK, S_IFBLK | S_IFCHR, S_IFCHR | S_IFIFO, S_IFIFO
  | S_IFSOCK, S_IFSOCK => true
  | _, _ => false
  end.

(** What [os.stat] and [os.lstat] return. [st_perm] is
    [stat.S_IMODE(st_mode)], [st_type] the file type of [st_mode]; the
    three time stamps are in microseconds, the resolution of [datetime]. *)
Record stat_result : Type := mk_stat {
  st_type : ftype;
  st_perm : Z;
  st_size : Z;
  st_nlink : Z;
  st_ino : Z;
  st_uid : Z;
  st_gid : Z;
  st_blocks : Z;
  st_atime : Z;
  st_mtime : Z;
  st_ctime : Z
}.

(** One path of the file system: its own meta data, the path a symbolic
    link points to, and the names [os.scandir] lists when it is a
    directory. *)
Record node : Type := mk_node {
  n_lstat : stat_result;
  n_target : option string;
  n_entries : list string
}.

(** The file system is the finite table of the paths that exist, under
    the path strings the program uses for them. Every path of the table
    can be looked up: directories that may not be searched and file
    systems mounted read-only are not part of this model. *)
Abbreviation filesys := (gmap string node).

Inductive oserror : Type :=
  ENOENT | ENOTEMPTY | ENOTDIR | EACCES | EISDIR | ELOOP | EINVAL | EPERM.

(** [e.strerror] *)
Definition strerror (e : oserror) : string :=
  match e with
  | ENOENT => "No such file or directory"
  | ENOTEMPTY => "Directory not empty"
  | ENOTDIR => "Not a directory"
  | EACCES => "Permission denied"
  | EISDIR => "Is a directory"
  | ELOOP => "Too many levels of symbolic links"
  | EINVAL => "Invalid argument"
  | EPERM => "Operation not permitted"
  end.

(** The class of the exception Python raises for the error; all of them
    are OSError or a subclass of it. *)
Definition exception_name (e : oserror) : string :=
  match e with
  | ENOENT => "FileNotFoundError"
  | ENOTDIR => "NotADirectoryError"
  | EACCES | EPERM => "PermissionError"
  | EISDIR => "IsADirectoryError"
  | ENOTEMPTY | ELOOP | EINVAL => "OSError"
  end.

Inductive access_mode : Type := R_OK | W_OK | X_OK.

(** What [subprocess.run] does: the command ran (and left the file system
    as given), it raised FileNotFoundError with the given text, or it
    raised another OSError. *)
Inductive spawn_result : Type :=
| Ran (fs' : filesys)
| SpawnNotFound (msg : string)
| SpawnDenied.

(** What happens outside the program, seen by it. *)
Inductive event : Type :=
| Stdout (s : string)
| Stderr (s : string)
| Unlinked (path : string)
| RmDir (path : string)
| Spawned (cmd : list string) (cwd : option string).

(** The library functions and operating-system services the program
    calls and this development does not look into. *)
Record Lib : Type := mk_lib {
  (** [fnmatch.fnmatch(name, pat)] *)
  lib_fnmatch : string -> string -> bool;
  (** [re.search(pattern, string, flags) is not None]; the flag tells
      whether [re.IGNORECASE] is set; [None] is [re.error]. *)
  lib_re_search : bool -> string -> string -> option bool;
  (** [s.lower()] *)
  lib_lower : string -> string;
  (** the k-th reading of the clock, [time.time()] in microseconds *)
  lib_time_at : nat -> Z;
  (** the offset of local time, in microseconds *)
  lib_utcoffset : Z;
  (** what [os.access] answers for an existing file *)
  lib_access : stat_result -> access_mode -> bool;
  (** the error with which the operating system refuses to take a name
      that is there out of its directory: EACCES when the directory may
      not be written or searched, EPERM when it is sticky, append-only
      or immutable; [None] when it permits the removal *)
  lib_remove_denied : filesys -> string -> option oserror;
  (** the meta data the operating system gives another path when a name
      is removed: given the removed path, the other path and its meta
      data. It is asked for the link count, the size, the blocks and the
      times of modification and of change only (the directory the name
      was in, the other links to the same file). *)
  lib_removal_touch : string -> string -> stat_result -> stat_result;
  (** [subprocess.run(cmd, check=False, cwd=cwd)] *)
  lib_run : list string -> option string -> filesys -> spawn_result;
  (** the line [-ls] prints, without its newline *)
  lib_format_ls : stat_result -> string -> string
}.

Module Fs.

Definition symloop_max : nat := 40.

(** The node a path leads to when symbolic links are followed. *)
Fixpoint resolve (hops : nat) (fs : filesys) (p : string) : option node :=
  match fs !! p with
  | None => None
  | Some n =>
      if ftype_eqb (st_type (n_lstat n)) S_IFLNK
      then match hops, n_target n with
           | S h, Some t => resolve h fs t
           | _, _ => None
           end
      else Some n
  end.

(** What [os.lstat(p)] returns; [None] when it raises. *)
Definition lstat (fs : filesys) (p : string) : option stat_result :=
  n_lstat <$> fs !! p.

(** What [os.stat(p)] returns; [None] when it raises. *)
Definition stat (fs : filesys) (p : string) : option stat_result :=
  n_lstat <$> resolve symloop_max fs p.

Definition S_ISDIR (s : stat_result) : bool := ftype_eqb (st_type s) S_IFDIR.
Definition S_ISREG (s : stat_result) : bool := ftype_eqb (st_type s) S_IFREG.
Definition S_ISLNK (s : stat_result) : bool := ftype_eqb (st_type s) S_IFLNK.

(** [os.path.isdir(p)], [os.path.islink(p)], [os.path.exists(p)] *)
Definition isdir (fs : filesys) (p : string) : bool :=
  match stat fs p with Some s => S_ISDIR s | None => false end.

Definition islink (fs : filesys) (p : string) : bool :=
  match lstat fs p with Some s => S_ISLNK s | None => false end.

Definition exists_ (fs : filesys) (p : string) : bool :=
  match stat fs p with Some _ => true | None => false end.

(** [os.listdir(p)]; [None] is an OSError. *)
Definition listdir (fs : filesys) (p : string) : option (list string) :=
  match resolve symloop_max fs p with
  | Some n => if S_ISDIR (n_lstat n) then Some (n_entries n) else None
  | None => None
  end.

(** [os.access(p, mode)] *)
Definition access (lib : Lib) (fs : filesys) (p : string) (m : access_mode)
  : bool :=
  match stat fs p with Some s => lib_access lib s m | None => false end.

(** Whether a path that is not in the table lies under a path that is
    there and is no directory. *)
Fixpoint under_file (fuel : nat) (fs : filesys) (p : string) : bool :=
  match fuel with
  | O => false
  | S k =>
      let d := OsPath.dirname p in
      if String.eqb d "" || String.eqb d p then false
      else match stat fs d with
           | Some st => negb (S_ISDIR st)
           | None => under_file k fs d
           end
  end.

(** The error of a system call on a path that is not in the table:
    ENOTDIR under something that is no directory, ENOENT otherwise. *)
Definition missing_errno (fs : filesys) (p : string) : oserror :=
  if under_file (String.length p) fs p then ENOTDIR else ENOENT.

(** The error [os.stat(p)] raises when it raises: ELOOP when there are
    more symbolic links to follow than the system allows, and the error
    of the path that is missing at the end of the links otherwise. *)
Fixpoint stat_errno_from (hops : nat) (fs : filesys) (p : string) : oserror :=
  match fs !! p with
  | None => missing_errno fs p
  | Some n =>
      if ftype_eqb (st_type (n_lstat n)) S_IFLNK
      then match hops, n_target n with
           | S h, Some t => stat_errno_from h fs t
           | O, Some _ => ELOOP
           | _, None => ENOENT
           end
      else ENOENT
  end.

(** [os.stat(p)] and [os.lstat(p)]: the result, or the error of the
    OSError raised. ENOENT is FileNotFoundError. *)
Definition stat_or_error (fs : filesys) (p : string)
  : oserror + stat_result :=
  match stat fs p with
  | Some st => inr st
  | None => inl (stat_errno_from symloop_max fs p)
  end.

Definition lstat_or_error (fs : filesys) (p : string)
  : oserror + stat_result :=
  match lstat fs p with
  | Some st => inr st
  | None => inl (missing_errno fs p)
  end.

(** The last component of a path, as the system call sees it. *)
Definition last_name (p : string) : string :=
  OsPath.basename (PyStr.rstrip (Ascii.eqb OsPath.sep) p).

(** The meta data of another path after the removal of [p]: the
    operating system may update the link count, the size, the blocks and
    the times of modification and change; the rest stays. *)
Definition touched (lib : Lib) (p d : string) (st : stat_result)
  : stat_result :=
  let st' := lib_removal_touch lib p d st in
  mk_stat (st_type st) (st_perm st) (st_size st') (st_nlink st') (st_ino st)
    (st_uid st) (st_gid st) (st_blocks st') (st_atime st) (st_mtime st')
    (st_ctime st').

(** Taking the path [p] out of the table and out of the listing of the
    directory it is in. *)
Definition drop_name (lib : Lib) (p : string) (fs : filesys) : filesys :=
  delete p
    (map_imap (fun d n =>
       Some (mk_node (touched lib p d (n_lstat n)) (n_target n)
               (List.filter (fun x => negb (String.eqb (OsPath.join d x) p))
                  (n_entries n)))) fs).

(** [os.remove(p)], in the order in which [unlink] checks: the name is
    looked up, [.] and [..] are refused, the directory must allow the
    removal, and the name must not be a directory. *)
Definition remove (lib : Lib) (fs : filesys) (p : string)
  : oserror + filesys :=
  match lstat fs p with
  | None => inl (missing_errno fs p)
  | Some s =>
      if String.eqb (last_name p) "." || String.eqb (last_name p) ".."
      then inl EISDIR
      else match lib_remove_denied lib fs p with
           | Some e => inl e
           | None => if S_ISDIR s then inl EISDIR
                     else inr (drop_name lib p fs)
           end
  end.

(** [os.rmdir(p)], in the order in which [rmdir] checks: the name is
    looked up, [.] is refused with EINVAL and [..] with ENOTEMPTY, the
    directory the name is in must allow the removal, the name must be a
    directory, and the directory must be empty. *)
Definition rmdir (lib : Lib) (fs : filesys) (p : string)
  : oserror + filesys :=
  match fs !! p with
  | None => inl (missing_errno fs p)
  | Some n =>
      if String.eqb (last_name p) "." then inl EINVAL
      else if String.eqb (last_name p) ".." then inl ENOTEMPTY
      else match lib_remove_denied lib fs p with
           | Some e => inl e
           | None =>
               if negb (S_ISDIR (n_lstat n)) then inl ENOTDIR
               else match n_entries n with
                    | _ :: _ => inl ENOTEMPTY
                    | [] => inr (drop_name lib p fs)
                    end
           end
  end.

(** The two lists [os.walk] builds from [os.scandir(top)]: the names that
    are directories (symbolic links followed) and the others; [None] when
    the scan fails, which [os.walk] ignores. *)
Definition scandir (fs : filesys) (top : string)
  : option (list string * list string) :=
  match listdir fs top with
  | None => None
  | Some names =>
      Some (List.filter (fun x => isdir fs (OsPath.join top x)) names,
            List.filter (fun x => negb (isdir fs (OsPath.join top x))) names)
  end.

End Fs.

(* ===================================================================== *)
(** ** The program state and its effects *)
(* ===================================================================== *)

(** The exceptions that leave the evaluator. [main] catches ValueError;
    SystemExit ends the process with its code; every other one
    (TypeError, IndexError, AttributeError, re.error, and the OSErrors
    that are no FileNotFoundError) is caught nowhere. *)
Inductive exn : Type :=
| ValueError (msg : string)
| SystemExit (code : Z)
| OtherError (name : string).

(** The mutable attributes of a [FindMimic] object ([pos],
    [prune_paths]) and the world it acts on: the file system, the number
    of clock readings taken so far, the lines waiting on standard input,
    and what has been written or done, oldest first. *)
Record state : Type := mk_state {
  pos : nat;
  prune_paths : gset string;
  fs : filesys;
  ticks : nat;
  stdin : list string;
  trace : list event
}.

Definition set_pos (n : nat) (s : state) : state :=
  mk_state n (prune_paths s) (fs s) (ticks s) (stdin s) (trace s).
Definition set_prune_paths (ps : gset string) (s : state) : state :=
  mk_state (pos s) ps (fs s) (ticks s) (stdin s) (trace s).
Definition set_fs (f : filesys) (s : state) : state :=
  mk_state (pos s) (prune_paths s) f (ticks s) (stdin s) (trace s).
Definition set_ticks (n : nat) (s : state) : state :=
  mk_state (pos s) (prune_paths s) (fs s) n (stdin s) (trace s).
Definition set_stdin (l : list string) (s : state) : state :=
  mk_state (pos s) (prune_paths s) (fs s) (ticks s) l (trace s).
Definition emit (e : event) (s : state) : state :=
  mk_state (pos s) (prune_paths s) (fs s) (ticks s) (stdin s) (trace s ++ [e]).

Inductive outcome (A : Type) : Type :=
| Ok (a : A) (s : state)
| Raise (e : exn) (s : state)
| OutOfFuel.
Arguments Ok {A} a s.
Arguments Raise {A} e s.
Arguments OutOfFuel {A}.

(** State and exceptions. *)
Definition M (A : Type) : Type := state -> outcome A.

Definition ret {A} (a : A) : M A := fun s => Ok a s.
Definition bind {A B} (m : M A) (k : A -> M B) : M B :=
  fun s => match m s with
           | Ok a s' => k a s'
           | Raise e s' => Raise e s'
           | OutOfFuel => OutOfFuel
           end.
Definition raise {A} (e : exn) : M A := fun s => Raise e s.
Definition out_of_fuel {A} : M A := fun _ => OutOfFuel.
Definition gets {A} (f : state -> A) : M A := fun s => Ok (f s) s.
Definition modify (f : state -> state) : M unit := fun s => Ok tt (f s).

Notation "'let*' x ':=' m 'in' k" := (bind m (fun x => k))
  (at level 10, x name, m at level 100, k at level 200).
Notation "m ';;' k" := (bind m (fun _ => k))
  (at level 100, k at level 200, right associativity).

(** [for x in l: f(x)] *)
Fixpoint for_each {A} (f : A -> M unit) (l : list A) : M unit :=
  match l with
  | [] => ret tt
  | x :: r => f x ;; for_each f r
  end.

Definition nl : string := String (ascii_of_nat 10) EmptyString.
Definition nul : string := String (ascii_of_nat 0) EmptyString.

(** [sys.stdout.write], [print] and [sys.stderr.write] *)
Definition write_stdout (s : string) : M unit := modify (emit (Stdout s)).
Definition print (s : string) : M unit := write_stdout (s ++ nl).
Definition write_stderr (s : string) : M unit := modify (emit (Stderr s)).

(** [sys.exit(code)] *)
Definition sys_exit {A} (code : Z) : M A := raise (SystemExit code).

(** [os.stat(path)] and [os.lstat(path)] under
    [try: ... except FileNotFoundError]: [None] is the FileNotFoundError
    the handler takes; every other OSError is not caught by it. *)
Definition os_stat (path : string) : M (option stat_result) :=
  let* r := gets (fun s => Fs.stat_or_error (fs s) path) in
  match r with
  | inr st => ret (Some st)
  | inl ENOENT => ret None
  | inl e => raise (OtherError (exception_name e))
  end.

Definition os_lstat (path : string) : M (option stat_result) :=
  let* r := gets (fun s => Fs.lstat_or_error (fs s) path) in
  match r with
  | inr st => ret (Some st)
  | inl ENOENT => ret None
  | inl e => raise (OtherError (exception_name e))
  end.

(** [str(x)] of a token that may be [None]. *)
Definition str_of_token (t : option string) : string :=
  match t with Some s => s | None => "None" end.

(** [t in (a, b, ...)] for a token that may be [None]. *)
Definition token_in (t : option string) (l : list string) : bool :=
  match t with
  | Some s => existsb (String.eqb s) l
  | None => false
  end.

(** [self.options] *)
Record options : Type := mk_options {
  depth : bool;
  maxdepth : option Z;   (* [None] is [float('inf')] *)
  mindepth : Z;
  follow : bool;
  daystart : bool
}.

Definition default_options : options := mk_options false None 0 false false.

(* ===================================================================== *)
(** ** class FindMimic: tests and actions *)
(* ===================================================================== *)

Section Primitives.

Variable lib : Lib.
Variable opts : options.

(** A test or an action is called as [f(self, path, *args)]; an argument
    is [None] when the token stream ended before it. *)
Definition primitive : Type := string -> list (option string) -> M bool.

(** A function declared with one parameter after [path]. *)
Definition one_arg (f : string -> option string -> M bool) : primitive :=
  fun path args =>
    match args with
    | [a] => f path a
    | _ => raise (OtherError "TypeError")
    end.

(** A function declared with [*args]. *)
Definition star_args (f : string -> M bool) : primitive :=
  fun path _ => f path.

Definition _compare_num (val : Z) (target_str : option string) : M bool :=
  match target_str with
  | None => raise (OtherError "AttributeError")
  | Some t =>
      let signed := PyStr.startswith "+" t || PyStr.startswith "-" t in
      let sign := if signed then PyStr.first t else None in
      let t' := if signed then PyStr.tail t else t in
      match PyInt.int t' with
      | None =>
          raise (ValueError ("invalid literal for int() with base 10: '"
                              ++ t' ++ "'"))
      | Some target =>
          ret (match sign with
               | Some "+" => target <? val
               | Some "-" => val <? target
               | _ => val =? target
               end)
      end
  end.

(** [datetime.now()], as microseconds of local time: one more reading of
    the clock. *)
Definition datetime_now : M Z :=
  fun s => Ok (lib_time_at lib (ticks s) + lib_utcoffset lib)
              (set_ticks (S (ticks s)) s).

(** [datetime.fromtimestamp(t)] *)
Definition fromtimestamp (t : Z) : Z := t + lib_utcoffset lib.

Definition day_us : Z := 86400 * 1000000.

(** [now.replace(hour=0, minute=0, second=0, microsecond=0)] *)
Definition midnight (now : Z) : Z := now - now mod day_us.

(** [int((now - file_time).total_seconds() / unit_multiplier)]: the
    quotient rounded toward zero. *)
Definition age_units (now file_time unit_multiplier : Z) : Z :=
  Z.quot (now - file_time) (unit_multiplier * 1000000).

Definition _test_time (attr : stat_result -> Z) (unit_multiplier : Z)
    (path : string) (time_str : option string) : M bool :=
  let* now := datetime_now in
  let now := if daystart opts then midnight now else now in
  let* st := os_stat path in
  match st with
  | None => ret false
  | Some st =>
      _compare_num (age_units now (fromtimestamp (attr st)) unit_multiplier)
        time_str
  end.

(** *** Tests *)

Definition _test_name (path : string) (pattern : option string) : M bool :=
  match pattern with
  | None => raise (OtherError "TypeError")
  | Some pat => ret (lib_fnmatch lib (OsPath.basename path) pat)
  end.

Definition _test_iname (path : string) (pattern : option string) : M bool :=
  match pattern with
  | None => raise (OtherError "AttributeError")
  | Some pat =>
      ret (lib_fnmatch lib (lib_lower lib (OsPath.basename path))
             (lib_lower lib pat))
  end.

Definition _test_path (path : string) (pattern : option string) : M bool :=
  match pattern with
  | None => raise (OtherError "TypeError")
  | Some pat => ret (lib_fnmatch lib path pat)
  end.

Definition _test_ipath (path : string) (pattern : option string) : M bool :=
  match pattern with
  | None => raise (OtherError "AttributeError")
  | Some pat => ret (lib_fnmatch lib (lib_lower lib path) (lib_lower lib pat))
  end.

Definition re_search (icase : bool) (path : string) (pattern : option string)
  : M bool :=
  match pattern with
  | None => raise (OtherError "TypeError")
  | Some pat =>
      match lib_re_search lib icase pat path with
      | Some b => ret b
      | None => raise (OtherError "re.error")
      end
  end.

Definition _test_regex : string -> option string -> M bool := re_search false.
Definition _test_iregex : string -> option string -> M bool := re_search true.

(** [type_map] *)
Definition type_map (c : ascii) : option ftype :=
  if Ascii.eqb c "b" then Some S_IFBLK
  else if Ascii.eqb c "c" then Some S_IFCHR
  else if Ascii.eqb c "d" then Some S_IFDIR
  else if Ascii.eqb c "p" then Some S_IFIFO
  else if Ascii.eqb c "f" then Some S_IFREG
  else if Ascii.eqb c "l" then Some S_IFLNK
  else if Ascii.eqb c "s" then Some S_IFSOCK
  else None.

Definition _test_type (path : string) (type_chars : option string) : M bool :=
  let* st := os_lstat path in
  match st with
  | None => ret false
  | Some st =>
      match type_chars with
      | None => raise (OtherError "TypeError")
      | Some cs =>
          ret (existsb (fun c => match type_map c with
                                 | Some t => ftype_eqb (st_type st) t
                                 | None => false
                                 end) (list_ascii_of_string cs))
      end
  end.

Definition int8_or_raise (s : string) : M Z :=
  match PyInt.int8 s with
  | Some m => ret m
  | None => raise (ValueError ("invalid literal for int() with base 8: '"
                                ++ s ++ "'"))
  end.

Definition _test_perm (path : string) (mode_str : option string) : M bool :=
  let* st := os_stat path in
  match st with
  | None => ret false
  | Some st =>
      let file_mode := st_perm st in
      match mode_str with
      | None => raise (OtherError "AttributeError")
      | Some ms =>
          if PyStr.startswith "-" ms then
            let* mode := int8_or_raise (PyStr.tail ms) in
            ret (Z.land file_mode mode =? mode)
          else if PyStr.startswith "/" ms then
            let* mode := int8_or_raise (PyStr.tail ms) in
            ret (negb (Z.land file_mode mode =? 0))
          else
            let* mode := int8_or_raise ms in
            ret (file_mode =? mode)
      end
  end.

(** [unit_map] *)
Definition unit_map (c : ascii) : option Z :=
  if Ascii.eqb c "c" then Some 1
  else if Ascii.eqb c "w" then Some 2
  else if Ascii.eqb c "k" then Some 1024
  else if Ascii.eqb c "M" then Some (1024 ^ 2)
  else if Ascii.eqb c "G" then Some (1024 ^ 3)
  else None.

Definition is_sign (c : ascii) : bool := Ascii.eqb c "+" || Ascii.eqb c "-".

Definition _test_size (path : string) (size_str : option string) : M bool :=
  match size_str with
  | None => raise (OtherError "TypeError")
  | Some size_str =>
      match PyStr.last size_str with
      | None => raise (OtherError "IndexError")
      | Some unit =>
          let '(target_val_str, multiplier) :=
            match unit_map unit with
            | Some m => (PyStr.init size_str, m)
            | None => (size_str, 512)
            end in
          let* st := os_lstat path in
          match st with
          | None => ret false
          | Some st =>
              let file_size := st_size st in
              let target_val_str_numeric := PyStr.lstrip is_sign target_val_str in
              match PyInt.int target_val_str_numeric with
              | None =>
                  raise (ValueError
                           ("invalid literal for int() with base 10: '"
                            ++ target_val_str_numeric ++ "'"))
              | Some target_blocks =>
                  let sign :=
                    if PyStr.startswith "+" target_val_str
                       || PyStr.startswith "-" target_val_str
                    then PyStr.first target_val_str else None in
                  let file_blocks := (file_size + multiplier - 1) / multiplier in
                  ret (match sign with
                       | Some "+" => target_blocks <? file_blocks
                       | Some "-" => file_blocks <? target_blocks
                       | _ => file_blocks =? target_blocks
                       end)
              end
          end
      end
  end.

Definition _test_mtime := _test_time st_mtime 86400.
Definition _test_atime := _test_time st_atime 86400.
Definition _test_ctime := _test_time st_ctime 86400.
Definition _test_mmin := _test_time st_mtime 60.
Definition _test_amin := _test_time st_atime 60.
Definition _test_cmin := _test_time st_ctime 60.

Definition _test_empty (path : string) : M bool :=
  let* st := gets (fun s => Fs.lstat (fs s) path) in
  match st with
  | None => ret false
  | Some st =>
      if Fs.S_ISDIR st then
        let* l := gets (fun s => Fs.listdir (fs s) path) in
        match l with
        | Some [] => ret true
        | Some (_ :: _) => ret false
        | None => ret false
        end
      else ret (Fs.S_ISREG st && (st_size st =? 0))
  end.

Definition _test_links (path : string) (n : option string) : M bool :=
  let* st := os_stat path in
  match st with
  | None => ret false
  | Some st => _compare_num (st_nlink st) n
  end.

Definition _test_inum (path : string) (n : option string) : M bool :=
  let* st := os_stat path in
  match st with
  | None => ret false
  | Some st => _compare_num (st_ino st) n
  end.

Definition no_such_file (file : string) : string :=
  "find.py: '" ++ file ++ "': No such file or directory" ++ nl.

Definition _test_newer_attr (attr : stat_result -> Z) (path : string)
    (file : option string) : M bool :=
  match file with
  | None => raise (OtherError "TypeError")
  | Some file =>
      let* ref := os_stat file in
      match ref with
      | None => write_stderr (no_such_file file) ;; sys_exit 1
      | Some ref =>
          let ref_time := attr ref in
          let* st := os_stat path in
          match st with
          | None => write_stderr (no_such_file file) ;; sys_exit 1
          | Some st => ret (ref_time <? attr st)
          end
      end
  end.

Definition _test_newer := _test_newer_attr st_mtime.
Definition _test_anewer := _test_newer_attr st_atime.
Definition _test_cnewer := _test_newer_attr st_ctime.

Definition _test_access (m : access_mode) (path : string) : M bool :=
  gets (fun s => Fs.access lib (fs s) path m).

Definition _test_readable := _test_access R_OK.
Definition _test_writable := _test_access W_OK.
Definition _test_executable := _test_access X_OK.

Definition _test_true (path : string) : M bool := ret true.
Definition _test_false (path : string) : M bool := ret false.

(** *** Actions *)

Definition _action_print (path : string) : M bool :=
  print path ;; ret true.

Definition _action_print0 (path : string) : M bool :=
  write_stdout (path ++ nul) ;; ret true.

Definition _action_ls (path : string) : M bool :=
  let* st := os_lstat path in
  match st with
  | None => ret true
  | Some st =>
      let* link := gets (fun s => fs s !! path) in
      let path_str :=
        if Fs.S_ISLNK st then
          match link with
          | Some (mk_node _ (Some target) _) => path ++ " -> " ++ target
          | _ => path ++ " -> [broken]"
          end
        else path in
      print (lib_format_ls lib st path_str) ;; ret true
  end.

Definition cannot_delete (path : string) (e : oserror) : string :=
  "find.py: cannot delete '" ++ path ++ "': " ++ strerror e ++ nl.

Definition _action_delete (path : string) : M bool :=
  let* is_dir := gets (fun s => Fs.isdir (fs s) path) in
  let* r := gets (fun s => if is_dir then Fs.rmdir lib (fs s) path
                           else Fs.remove lib (fs s) path) in
  match r with
  | inr fs' =>
      modify (set_fs fs') ;;
      modify (emit (if is_dir then RmDir path else Unlinked path)) ;;
      ret true
  | inl e => write_stderr (cannot_delete path e) ;; ret true
  end.

(** [input(prompt)]: the prompt goes to standard output and a line is
    read; [None] is EOFError. *)
Definition read_line : M (option string) :=
  fun s => match stdin s with
           | [] => Ok None s
           | l :: r => Ok (Some l) (set_stdin r s)
           end.

Definition input (prompt : string) : M (option string) :=
  write_stdout prompt ;; read_line.

Definition _action_exec_with (interactive is_dir : bool) (path : string)
    (command_parts : list string) : M bool :=
  let cmd := map (PyStr.replace "{}" path) command_parts in
  let* go :=
    (if interactive then
       let prompt := "< " ++ PyStr.join " " cmd ++ " > ? " in
       let* response := input prompt in
       match response with
       | Some r =>
           ret (existsb (String.eqb (lib_lower lib r)) ["y"; "yes"])
       | None => print "" ;; ret false
       end
     else ret true) in
  if negb go then ret true
  else
    let cwd := if is_dir then Some (OsPath.dirname path) else None in
    let cmd := if is_dir
               then map (PyStr.replace "{}" (OsPath.basename path))
                      command_parts
               else cmd in
    match cmd with
    | [] => raise (OtherError "IndexError")
    | c0 :: _ =>
        let* r := gets (fun s => lib_run lib cmd cwd (fs s)) in
        match r with
        | Ran fs' =>
            modify (emit (Spawned cmd cwd)) ;; modify (set_fs fs') ;; ret true
        | SpawnNotFound msg =>
            write_stderr ("find.py: exec failed for " ++ c0 ++ ": " ++ msg ++ nl) ;;
            ret true
        | SpawnDenied => raise (OtherError "PermissionError")
        end
    end.

(** The four command actions take the list of argument tokens as their
    one argument. *)
Definition _action_exec := _action_exec_with false false.
Definition _action_ok := _action_exec_with true false.
Definition _action_execdir := _action_exec_with false true.
Definition _action_okdir := _action_exec_with true true.

Definition _action_prune (path : string) : M bool :=
  let* is_dir := gets (fun s => Fs.isdir (fs s) path) in
  (if is_dir
   then modify (fun s => set_prune_paths ({[ path ]} ∪ prune_paths s) s)
   else ret tt) ;;
  ret true.

Definition _action_quit (path : string) : M bool := sys_exit 0.

(** *** Dispatch tables *)

Definition _tests : list (string * primitive) :=
  [ ("-name", one_arg _test_name); ("-iname", one_arg _test_iname);
    ("-path", one_arg _test_path); ("-wholename", one_arg _test_path);
    ("-ipath", one_arg _test_ipath); ("-iwholename", one_arg _test_ipath);
    ("-regex", one_arg _test_regex); ("-iregex", one_arg _test_iregex);
    ("-type", one_arg _test_type); ("-perm", one_arg _test_perm);
    ("-size", one_arg _test_size); ("-mtime", one_arg _test_mtime);
    ("-atime", one_arg _test_atime); ("-ctime", one_arg _test_ctime);
    ("-mmin", one_arg _test_mmin); ("-amin", one_arg _test_amin);
    ("-cmin", one_arg _test_cmin); ("-empty", star_args _test_empty);
    ("-links", one_arg _test_links); ("-inum", one_arg _test_inum);
    ("-newer", one_arg _test_newer); ("-anewer", one_arg _test_anewer);
    ("-cnewer", one_arg _test_cnewer);
    ("-readable", star_args _test_readable);
    ("-writable", star_args _test_writable);
    ("-executable", star_args _test_executable);
    ("-true", star_args _test_true); ("-false", star_args _test_false) ].

(** The other actions; the command actions are in [_exec_actions]. *)
Definition _plain_actions : list (string * primitive) :=
  [ ("-print", star_args _action_print); ("-print0", star_args _action_print0);
    ("-ls", star_args _action_ls); ("-delete", star_args _action_delete);
    ("-prune", star_args _action_prune); ("-quit", star_args _action_quit) ].

Definition _exec_actions : list (string * (string -> list string -> M bool)) :=
  [ ("-exec", _action_exec); ("-ok", _action_ok);
    ("-execdir", _action_execdir); ("-okdir", _action_okdir) ].

End Primitives.

(** [d[key]] in a table written as a list. *)
Fixpoint assoc {A} (key : string) (d : list (string * A)) : option A :=
  match d with
  | [] => None
  | (k, v) :: r => if String.eqb key k then Some v else assoc key r
  end.

(** The keys of [_actions]. *)
Definition action_names : list string :=
  [ "-print"; "-print0"; "-ls"; "-delete"; "-exec"; "-ok"; "-execdir";
    "-okdir"; "-prune"; "-quit" ].

Definition one_arg_ops : list string :=
  [ "-name"; "-iname"; "-path"; "-ipath"; "-regex"; "-iregex"; "-type";
    "-perm"; "-user"; "-group"; "-size"; "-mtime"; "-atime"; "-ctime";
    "-mmin"; "-amin"; "-cmin"; "-links"; "-inum"; "-newer"; "-anewer";
    "-cnewer" ].

Definition _get_num_args (op : string) : nat :=
  if existsb (String.eqb op) one_arg_ops then 1%nat else 0%nat.

(* ===================================================================== *)
(** ** class FindMimic: the recursive-descent evaluator *)
(* ===================================================================== *)

Section Evaluator.

Variable lib : Lib.
Variable opts : options.
(** [self.expression_tokens], fixed once [__init__] has returned. *)
Variable expression_tokens : list string.

Definition _peek : M (option string) :=
  gets (fun s => expression_tokens !! pos s).

Definition _consume (expected : option string) : M (option string) :=
  let* token := _peek in
  let mismatch :=
    match expected with
    | Some e =>
        negb (String.eqb e "")
        && negb (match token with Some t => String.eqb t e | None => false end)
    | None => false
    end in
  if mismatch then
    raise (ValueError ("Expected '" ++ str_of_token expected
                       ++ "' but found '" ++ str_of_token token ++ "'"))
  else
    (match token with
     | Some _ => modify (fun s => set_pos (S (pos s)) s)
     | None => ret tt
     end) ;;
    ret token.

(** [[self._consume() for _ in range(n)]] *)
Fixpoint consume_args (n : nat) : M (list (option string)) :=
  match n with
  | O => ret []
  | S n' =>
      let* a := _consume None in
      let* r := consume_args n' in
      ret (a :: r)
  end.

(** The loop of the command actions,
    [while self._peek() != ';': arg = self._consume(); ...], run on the
    tokens from the cursor on: the arguments before the first [;], or
    [None] when the stream ends first. *)
Fixpoint until_semicolon (rest : list string) : option (list string) :=
  match rest with
  | [] => None
  | t :: r =>
      if String.eqb t ";" then Some []
      else cons t <$> until_semicolon r
  end.

Definition consume_command (token : string) : M (list string) :=
  let* rest := gets (fun s => drop (pos s) expression_tokens) in
  match until_semicolon rest with
  | None =>
      modify (fun s => set_pos (pos s + length rest)%nat s) ;;
      raise (ValueError ("Missing ';' for " ++ token))
  | Some args =>
      modify (fun s => set_pos (pos s + length args)%nat s) ;;
      _consume (Some ";") ;;
      ret args
  end.

(** The functions of the parser call one another in a cycle that is
    closed by [_parse_primary] calling [_parse_or_expr] on an opening
    parenthesis. The cycle is cut there: the four functions below take
    the parser of primaries as [primary], and a bound [k] on the number
    of turns of their [while] loops. *)
Section Levels.

Variable primary : string -> bool -> M bool.

Definition not_expr (path : string) (evaluate : bool) : M bool :=
  let* t := _peek in
  if token_in t ["!"; "-not"] then
    _consume None ;;
    if negb evaluate then
      primary path false ;;
      ret false
    else
      let* r := primary path true in
      ret (negb r)
  else primary path evaluate.

Fixpoint and_loop (k : nat) (path : string) (evaluate left : bool)
  : M bool :=
  match k with
  | O => out_of_fuel
  | S k' =>
      let* t := _peek in
      match t with
      | None => ret left
      | Some _ =>
          if token_in t ["-o"; "-or"; ")"; ","] then ret left
          else
            (if token_in t ["-a"; "-and"] then _consume None ;; ret tt
             else ret tt) ;;
            if negb evaluate || negb left then
              not_expr path false ;;
              and_loop k' path evaluate false
            else
              let* right := not_expr path true in
              and_loop k' path evaluate (left && right)
      end
  end.

Definition and_expr (k : nat) (path : string) (evaluate : bool) : M bool :=
  let* left := not_expr path evaluate in
  and_loop k path evaluate left.

Fixpoint or_loop (k : nat) (path : string) (left : bool) : M bool :=
  match k with
  | O => out_of_fuel
  | S k' =>
      let* t := _peek in
      if token_in t ["-o"; "-or"] then
        _consume None ;;
        if left then
          and_expr k' path false ;;
          ret true
        else
          let* right := and_expr k' path true in
          or_loop k' path (left || right)
      else ret left
  end.

Definition or_expr (k : nat) (path : string) : M bool :=
  let* left := and_expr k path true in
  or_loop k path left.

End Levels.

Definition is_exec_action (token : string) : bool :=
  existsb (String.eqb token) ["-exec"; "-ok"; "-execdir"; "-okdir"].

(** [fuel] bounds the depth of the parentheses that can be entered and
    the turns of the loops inside them. *)
Fixpoint _parse_primary (fuel : nat) (path : string) (evaluate : bool)
  : M bool :=
  match fuel with
  | O => out_of_fuel
  | S n =>
      let* token := _peek in
      match token with
      | None => ret true
      | Some tok =>
          if String.eqb tok "(" then
            _consume None ;;
            let* res := or_expr (_parse_primary n) n path in
            _consume (Some ")") ;;
            ret res
          else
            match assoc tok (_tests lib opts) with
            | Some test_func =>
                _consume None ;;
                let* args := consume_args (_get_num_args tok) in
                if evaluate then test_func path args else ret true
            | None =>
                if existsb (String.eqb tok) action_names then
                  _consume None ;;
                  if is_exec_action tok then
                    let* args := consume_command tok in
                    if evaluate then
                      match assoc tok (_exec_actions lib) with
                      | Some action_func => action_func path args
                      | None => ret true
                      end
                    else ret true
                  else
                    let* args := consume_args (_get_num_args tok) in
                    if evaluate then
                      match assoc tok (_plain_actions lib) with
                      | Some action_func => action_func path args
                      | None => ret true
                      end
                    else ret true
                else raise (ValueError ("Unknown expression token: " ++ tok))
            end
      end
  end.

Definition _parse_not_expr (fuel : nat) := not_expr (_parse_primary fuel).
Definition _parse_and_expr (fuel : nat) := and_expr (_parse_primary fuel) fuel.
Definition _parse_or_expr (fuel : nat) := or_expr (_parse_primary fuel) fuel.

(** Every turn of a loop and every parenthesis entered takes a token, so
    one more than the number of tokens is fuel enough
    ([_evaluate_expression_returns] below). *)
Definition enough_fuel : nat := S (length expression_tokens).

Definition _evaluate_expression (path : string) : M bool :=
  modify (set_pos 0) ;;
  _parse_or_expr enough_fuel path.

End Evaluator.

(* ===================================================================== *)
(** ** class FindMimic: the traversal *)
(* ===================================================================== *)

Section Traversal.

Variable lib : Lib.
Variable opts : options.
Variable expression_tokens : list string.

(** Comparisons of a level with [max_depth], which may be infinite. *)
Definition le_max (l : Z) (m : option Z) : bool :=
  match m with Some m => l <=? m | None => true end.
Definition lt_max (l : Z) (m : option Z) : bool :=
  match m with Some m => l <? m | None => true end.
Definition ge_max (l : Z) (m : option Z) : bool :=
  match m with Some m => m <=? l | None => false end.

(** [self.pos = 0; self._evaluate_expression(path)] *)
Definition evaluate_entry (path : string) : M bool :=
  modify (set_pos 0) ;;
  _evaluate_expression lib opts expression_tokens path.

Section OneRoot.

Variable start_path : string.

Definition start_level : Z := Z.of_nat (PyStr.count OsPath.sep start_path).

Definition level_of (root : string) : Z :=
  Z.of_nat (PyStr.count OsPath.sep root) - start_level.

(** The body of the loop of the pre-order walk, for one triple
    [(root, dirs, files)] that [os.walk] yields. It returns [dirs] as the
    body leaves it, which is what [os.walk] then descends into. *)
Definition preorder_body (root : string) (dirs files : list string)
  : M (list string) :=
  let max_depth := maxdepth opts in
  let min_depth := mindepth opts in
  let* pruned := gets prune_paths in
  let dirs :=
    List.filter
      (fun d => negb (bool_decide (OsPath.join root d ∈ pruned))) dirs in
  let current_level := level_of root in
  let* skip :=
    (if (min_depth <=? current_level) && le_max current_level max_depth then
       let* r := evaluate_entry root in
       if r then gets (fun s => bool_decide (root ∈ prune_paths s))
       else ret false
     else ret false) in
  if skip then ret []
  else
    let dirs := if ge_max current_level max_depth then [] else dirs in
    (if lt_max current_level max_depth then
       for_each (fun name =>
                   if min_depth <=? current_level + 1
                   then evaluate_entry (OsPath.join root name) ;; ret tt
                   else ret tt) files ;;
       for_each (fun name =>
                   if min_depth <=? current_level + 1
                   then evaluate_entry (OsPath.join root name) ;; ret tt
                   else ret tt) dirs
     else ret tt) ;;
    ret dirs.

(** [for root, dirs, files in os.walk(top, topdown=True, ...)]: the
    directory is scanned, the body runs, and the walk goes down into the
    directories the body has left in [dirs]. [fuel] bounds the depth of
    the descent. *)
Fixpoint walk_topdown (fuel : nat) (top : string) : M unit :=
  match fuel with
  | O => out_of_fuel
  | S n =>
      let* scan := gets (fun s => Fs.scandir (fs s) top) in
      match scan with
      | None => ret tt
      | Some (dirs, files) =>
          let* dirs := preorder_body top dirs files in
          for_each (fun dirname =>
                      let new_path := OsPath.join top dirname in
                      let* is_link := gets (fun s => Fs.islink (fs s) new_path) in
                      if follow opts || negb is_link
                      then walk_topdown n new_path
                      else ret tt) dirs
      end
  end.

(** The body of the loop of the post-order walk. *)
Definition postorder_body (root : string) (dirs files : list string)
  : M unit :=
  let max_depth := maxdepth opts in
  let min_depth := mindepth opts in
  let current_level := level_of root in
  (if (min_depth <=? current_level + 1) && lt_max current_level max_depth
   then for_each (fun name => evaluate_entry (OsPath.join root name) ;; ret tt)
          files
   else ret tt) ;;
  (if (min_depth <=? current_level) && lt_max current_level max_depth
   then for_each (fun name => evaluate_entry (OsPath.join root name) ;; ret tt)
          dirs
   else ret tt).

(** [os.walk(top, topdown=False, ...)]: the directory is scanned, the
    walk goes down into its directories (symbolic links only when they
    are followed), and the body runs last. *)
Fixpoint walk_bottomup (fuel : nat) (top : string) : M unit :=
  match fuel with
  | O => out_of_fuel
  | S n =>
      let* scan := gets (fun s => Fs.scandir (fs s) top) in
      match scan with
      | None => ret tt
      | Some (dirs, files) =>
          let* walk_dirs :=
            gets (fun s =>
                    List.filter
                      (fun d => follow opts
                                || negb (Fs.islink (fs s) (OsPath.join top d)))
                      dirs) in
          for_each (fun d => walk_bottomup n (OsPath.join top d)) walk_dirs ;;
          postorder_body top dirs files
      end
  end.

Definition _walk (fuel : nat) : M unit :=
  if depth opts then
    walk_bottomup fuel start_path ;;
    if mindepth opts =? 0 then evaluate_entry start_path ;; ret tt
    else ret tt
  else walk_topdown fuel start_path.

End OneRoot.

Definition run (fuel : nat) (paths : list string) : M unit :=
  for_each (fun path =>
              let* there := gets (fun s => Fs.exists_ (fs s) path) in
              if negb there then write_stderr (no_such_file path)
              else _walk path fuel) paths.

End Traversal.

(* ===================================================================== *)
(** ** [__init__] and [main] *)
(* ===================================================================== *)

Definition starts_expression (arg : string) : bool :=
  PyStr.startswith "-" arg || existsb (String.eqb arg) ["("; ")"; "!"; ","].

Fixpoint initial_paths (args : list string) : list string :=
  match args with
  | [] => []
  | arg :: r => if starts_expression arg then [] else arg :: initial_paths r
  end.

Definition _parse_initial_args (args : list string)
  : list string * list string :=
  let paths := initial_paths args in
  (match paths with [] => ["."] | _ => paths end, drop (length paths) args).

Definition set_maxdepth (m : Z) (o : options) : options :=
  mk_options (depth o) (Some m) (mindepth o) (follow o) (daystart o).
Definition set_mindepth (m : Z) (o : options) : options :=
  mk_options (depth o) (maxdepth o) m (follow o) (daystart o).
Definition set_depth (o : options) : options :=
  mk_options true (maxdepth o) (mindepth o) (follow o) (daystart o).
Definition set_follow (o : options) : options :=
  mk_options (depth o) (maxdepth o) (mindepth o) true (daystart o).
Definition set_daystart (o : options) : options :=
  mk_options (depth o) (maxdepth o) (mindepth o) (follow o) true.

Definition int_or_raise (s : string) : exn + Z :=
  match PyInt.int s with
  | Some n => inr n
  | None => inl (ValueError ("invalid literal for int() with base 10: '"
                             ++ s ++ "'"))
  end.

(** The loop of [_pre_process_options]: the options found so far and the
    tokens kept so far go along; the result is [self.options] and the new
    [self.expression_tokens]. *)
Fixpoint _pre_process_options (o : options) (new_tokens tokens : list string)
  : exn + (options * list string) :=
  match tokens with
  | [] => inr (o, new_tokens)
  | token :: r =>
      if String.eqb token "-maxdepth" then
        match r with
        | [] => inl (OtherError "IndexError")
        | v :: r' =>
            match int_or_raise v with
            | inl e => inl e
            | inr m => _pre_process_options (set_maxdepth m o) new_tokens r'
            end
        end
      else if String.eqb token "-mindepth" then
        match r with
        | [] => inl (OtherError "IndexError")
        | v :: r' =>
            match int_or_raise v with
            | inl e => inl e
            | inr m => _pre_process_options (set_mindepth m o) new_tokens r'
            end
        end
      else if String.eqb token "-depth" then
        _pre_process_options (set_depth o) new_tokens r
      else if existsb (String.eqb token) ["-L"; "-follow"] then
        _pre_process_options (set_follow o) new_tokens r
      else if String.eqb token "-daystart" then
        _pre_process_options (set_daystart o) new_tokens r
      else if existsb (String.eqb token)
                ["-P"; "-H"; "-warn"; "-nowarn"; "-noleaf"; "-xdev"; "-mount"]
      then _pre_process_options o new_tokens r
      else _pre_process_options o (new_tokens ++ [token])%list r
  end.

(** What [__init__] leaves in [self]: [paths], [options] and
    [expression_tokens]; [pos] and [prune_paths] start as [0] and the
    empty set. *)
Record finder : Type := mk_finder {
  paths : list string;
  f_options : options;
  f_tokens : list string
}.

Definition __init__ (args : list string) : exn + finder :=
  let '(paths, expression) := _parse_initial_args args in
  match _pre_process_options default_options [] expression with
  | inl e => inl e
  | inr (o, tokens) =>
      let tokens :=
        if existsb (fun arg => existsb (String.eqb arg) action_names) tokens
        then tokens else (tokens ++ ["-print"])%list in
      inr (mk_finder paths o tokens)
  end.

Definition usage : list string :=
  [ "Usage: find.py [-H] [-L] [-P] [path...] [expression]";
    "A python mimic of the find command.";
    String (ascii_of_nat 10) "This is a partial implementation and may not support all features or edge cases.";
    "Supported options: -L, -P, -depth, -maxdepth, -mindepth, -daystart";
    "Supported operators: -a, -and, -o, -or, !, -not, ( )";
    "Supported tests: -name, -iname, -path, -type, -perm, -size, -mtime, -empty, ...";
    "Supported actions: -print, -print0, -ls, -delete, -exec, -ok, -prune, -quit" ].

(** The state a run starts in. *)
Definition initial_state (fs0 : filesys) (stdin0 : list string) : state :=
  mk_state 0 ∅ fs0 0 stdin0 [].

(** How the process ends: its exit status and the final state; [None]
    when [fuel] did not suffice for the depth of the tree. *)
Definition finish (r : outcome unit) : option (Z * state) :=
  match r with
  | Ok _ s => Some (0, s)
  | Raise (ValueError msg) s =>
      Some (1, emit (Stderr ("find.py: " ++ msg ++ nl)) s)
  | Raise (SystemExit code) s => Some (code, s)
  | Raise (OtherError name) s => Some (1, emit (Stderr name) s)
  | OutOfFuel => None
  end.

(** [main()], with [sys.argv] as [argv]. *)
Definition main (lib : Lib) (fuel : nat) (argv : list string)
    (fs0 : filesys) (stdin0 : list string) : option (Z * state) :=
  let s0 := initial_state fs0 stdin0 in
  if (length argv =? 1)%nat || existsb (String.eqb "--help") argv then
    finish ((for_each print usage) s0)
  else
    match __init__ (tail argv) with
    | inl e => finish (Raise e s0)
    | inr f => finish (run lib (f_options f) (f_tokens f) fuel (paths f) s0)
    end.

(* ===================================================================== *)
(** ** The grammar of expressions *)
(* ===================================================================== *)

(** The keys of [_tests]. *)
Definition test_names : list string :=
  [ "-name"; "-iname"; "-path"; "-wholename"; "-ipath"; "-iwholename";
    "-regex"; "-iregex"; "-type"; "-perm"; "-size"; "-mtime"; "-atime";
    "-ctime"; "-mmin"; "-amin"; "-cmin"; "-empty"; "-links"; "-inum";
    "-newer"; "-anewer"; "-cnewer"; "-readable"; "-writable"; "-executable";
    "-true"; "-false" ].

(** The token lists of the grammar
<<
    Primary := '(' OrExpr ')' | Predicate | Action
    NotExpr := ('!' | NOT) Primary | Primary
    AndExpr := NotExpr ( (AND)? NotExpr )*
    OrExpr  := AndExpr ( OR AndExpr )*
>>
    A predicate or an action comes with as many argument tokens as
    [_get_num_args] says, a command action with its arguments up to the
    first [;]. [AndTail] and [OrTail] are the starred parts. *)
Inductive Primary : list string -> Prop :=
| P_paren ts :
    OrExpr ts -> Primary ("(" :: ts ++ [")"])
| P_test t args :
    In t test_names -> length args = _get_num_args t -> Primary (t :: args)
| P_action t :
    In t action_names -> is_exec_action t = false -> Primary [t]
| P_command t args :
    is_exec_action t = true -> Forall (fun a => a <> ";") args ->
    Primary (t :: args ++ [";"])
with NotExpr : list string -> Prop :=
| N_primary ts : Primary ts -> NotExpr ts
| N_not n ts : In n ["!"; "-not"] -> Primary ts -> NotExpr (n :: ts)
with AndTail : list string -> Prop :=
| AT_nil : AndTail []
| AT_implicit ts rest : NotExpr ts -> AndTail rest -> AndTail (ts ++ rest)
| AT_explicit a ts rest :
    In a ["-a"; "-and"] -> NotExpr ts -> AndTail rest ->
    AndTail (a :: ts ++ rest)
with AndExpr : list string -> Prop :=
| A_intro ts rest : NotExpr ts -> AndTail rest -> AndExpr (ts ++ rest)
with OrTail : list string -> Prop :=
| OT_nil : OrTail []
| OT_cons o ts rest :
    In o ["-o"; "-or"] -> AndExpr ts -> OrTail rest ->
    OrTail (o :: ts ++ rest)
with OrExpr : list string -> Prop :=
| O_intro ts rest : AndExpr ts -> OrTail rest -> OrExpr (ts ++ rest).

Scheme Primary_mut := Minimality for Primary Sort Prop
  with NotExpr_mut := Minimality for NotExpr Sort Prop
  with AndTail_mut := Minimality for AndTail Sort Prop
  with AndExpr_mut := Minimality for AndExpr Sort Prop
  with OrTail_mut := Minimality for OrTail Sort Prop
  with OrExpr_mut := Minimality for OrExpr Sort Prop.

Combined Scheme grammar_ind from
  Primary_mut, NotExpr_mut, AndTail_mut, AndExpr_mut, OrTail_mut, OrExpr_mut.

(* ===================================================================== *)
(** ** A sample world *)
(* ===================================================================== *)

(** A matcher for patterns made of literal characters, [?] and [*],
    which the example runs use as [fnmatch.fnmatch]. *)
Fixpoint glob (fuel : nat) (pat name : string) : bool :=
  match fuel with
  | O => false
  | S n =>
      match pat, name with
      | EmptyString, EmptyString => true
      | EmptyString, String _ _ => false
      | String "*" p', EmptyString => glob n p' name
      | String "*" p', String _ n' => glob n p' name || glob n pat n'
      | String "?" p', String _ n' => glob n p' n'
      | String c p', String d n' => Ascii.eqb c d && glob n p' n'
      | String _ _, EmptyString => false
      end
  end.

Definition sample_fnmatch (name pat : string) : bool :=
  glob (S (String.length pat + String.length name)) pat name.

(** A library in which every command runs and changes nothing, every
    file may be read, written, run and removed, a removal leaves the meta
    data of the other paths as they are, no regular expression matches,
    and [clock] gives the readings of the clock. *)
Definition sample_lib (clock : nat -> Z) : Lib :=
  mk_lib sample_fnmatch (fun _ _ _ => Some false) (fun s => s) clock 0
    (fun _ _ => true) (fun _ _ => None) (fun _ _ st => st)
    (fun _ _ f => Ran f) (fun _ p => p).

Definition regular_file (size mtime : Z) : node :=
  mk_node (mk_stat S_IFREG 420 size 1 0 0 0 0 mtime mtime mtime) None [].

Definition directory (entries : list string) : node :=
  mk_node (mk_stat S_IFDIR 493 4096 2 0 0 0 0 0 0 0) None entries.

(** The tree [t/a.txt], [t/sub/b.log] of the specification's scenario:
    [a.txt] is empty, [b.log] has 513 bytes. *)
Definition scenario_fs : filesys :=
  list_to_map [ ("t", directory ["a.txt"; "sub"]);
                ("t/a.txt", regular_file 0 0);
                ("t/sub", directory ["b.log"]);
                ("t/sub/b.log", regular_file 513 0) ].

(** The tree [dirA/sub/file] with a file [dirA/top] next to [sub]. *)
Definition prune_fs : filesys :=
  list_to_map [ ("dirA", directory ["top"; "sub"]);
                ("dirA/top", regular_file 1 0);
                ("dirA/sub", directory ["file"]);
                ("dirA/sub/file", regular_file 1 0) ].

(* ===================================================================== *)
(** * Properties *)
(* ===================================================================== *)

Local Open Scope list_scope.

(* ===================================================================== *)
(** ** What a computation leaves unchanged *)
(* ===================================================================== *)

(** [keeps R m]: [m] returns or raises, and the state it ends in is
    related by [R] to the state it started in. *)
Definition keeps (R : state -> state -> Prop) {A} (m : M A) : Prop :=
  forall s, match m s with
            | Ok _ s' | Raise _ s' => R s s'
            | OutOfFuel => False
            end.

(** The same when [m] may run out of fuel. *)
Definition keeps_if_done (R : state -> state -> Prop) {A} (m : M A) : Prop :=
  forall s, match m s with
            | Ok _ s' | Raise _ s' => R s s'
            | OutOfFuel => True
            end.

(** The cursor stays where it is. *)
Definition same_pos (s s' : state) : Prop := pos s' = pos s.

(** Neither the cursor nor the Prune Set changes. *)
Definition same_pos_prune (s s' : state) : Prop :=
  pos s' = pos s /\ prune_paths s' = prune_paths s.

Section Keeps.

Variable R : state -> state -> Prop.
Hypothesis R_refl : forall s, R s s.
Hypothesis R_trans : forall s1 s2 s3, R s1 s2 -> R s2 s3 -> R s1 s3.

Lemma keeps_ret {A} (a : A) : keeps R (ret a).
Proof. intros s. apply R_refl. Qed.

Lemma keeps_raise {A} (e : exn) : keeps R (@raise A e).
Proof. intros s. apply R_refl. Qed.

Lemma keeps_gets {A} (f : state -> A) : keeps R (gets f).
Proof. intros s. apply R_refl. Qed.

Lemma keeps_modify (f : state -> state) :
  (forall s, R s (f s)) -> keeps R (modify f).
Proof. intros H s. apply H. Qed.

Lemma keeps_bind {A B} (m : M A) (k : A -> M B) :
  keeps R m -> (forall a, keeps R (k a)) -> keeps R (bind m k).
Proof.
  intros Hm Hk s. unfold bind. specialize (Hm s).
  destruct (m s) as [a s1|e s1|]; [|assumption|assumption].
  specialize (Hk a s1). destruct (k a s1); eauto.
Qed.

Lemma keeps_if_done_bind {A B} (m : M A) (k : A -> M B) :
  keeps_if_done R m -> (forall a, keeps_if_done R (k a)) ->
  keeps_if_done R (bind m k).
Proof.
  intros Hm Hk s. unfold bind. specialize (Hm s).
  destruct (m s) as [a s1|e s1|]; [|assumption|exact I].
  specialize (Hk a s1). destruct (k a s1); eauto.
Qed.

Lemma keeps_weaken {A} (m : M A) : keeps R m -> keeps_if_done R m.
Proof. intros H s. specialize (H s). destruct (m s); tauto. Qed.

Lemma keeps_for_each {A} (f : A -> M unit) (l : list A) :
  (forall a, keeps R (f a)) -> keeps R (for_each f l).
Proof.
  intros H. induction l as [|x l IH]; simpl.
  - apply keeps_ret.
  - apply keeps_bind; auto.
Qed.

End Keeps.

(** Taking a computation apart along its binds and its case analyses. *)
Ltac keeps_step :=
  first
    [ apply keeps_ret; solve [auto]
    | apply keeps_raise; solve [auto]
    | apply keeps_gets; solve [auto]
    | apply keeps_modify; solve [auto]
    | apply keeps_bind; [solve [auto] | | intros ]
    | match goal with
      | |- keeps _ (match ?x with _ => _ end) => destruct x
      | |- keeps _ (let '(_, _) := ?x in _) => destruct x
      end ].

Ltac keeps_tac := repeat keeps_step.

(** What the tests leave alone: everything but the clock and the trace. *)
Definition test_frame (s s' : state) : Prop :=
  pos s' = pos s /\ prune_paths s' = prune_paths s /\ fs s' = fs s
  /\ stdin s' = stdin s.

Ltac rel_solve :=
  solve [ intros;
          cbv [same_pos same_pos_prune test_frame set_pos set_prune_paths
               set_fs set_ticks set_stdin emit pos prune_paths fs ticks stdin
               trace] in *;
          intuition congruence ].

Ltac frame_step :=
  first
    [ apply keeps_ret; rel_solve
    | apply keeps_raise; rel_solve
    | apply keeps_gets; rel_solve
    | apply keeps_modify; rel_solve
    | apply keeps_bind; [rel_solve | | intros ]
    | match goal with
      | |- keeps _ (match ?x with _ => _ end) => destruct x
      end ].

Ltac frame_tac := repeat frame_step.

Create HintDb prims.
#[local] Hint Unfold one_arg star_args _compare_num _test_time _test_name
  _test_iname _test_path _test_ipath re_search _test_regex _test_iregex
  _test_type int8_or_raise _test_perm _test_size _test_mtime _test_atime
  _test_ctime _test_mmin _test_amin _test_cmin _test_empty _test_links
  _test_inum _test_newer_attr _test_newer _test_anewer _test_cnewer
  _test_access _test_readable _test_writable _test_executable _test_true
  _test_false _action_print _action_print0 _action_ls _action_delete
  _action_exec_with _action_exec _action_ok _action_execdir _action_okdir
  _action_quit write_stdout write_stderr print sys_exit input os_stat
  os_lstat : prims.

Section PrimitiveFrames.

Variable lib : Lib.
Variable opts : options.

Lemma keeps_datetime_now (R : state -> state -> Prop) :
  (forall s, R s (set_ticks (S (ticks s)) s)) -> keeps R (datetime_now lib).
Proof. intros H s. apply H. Qed.

Lemma keeps_read_line (R : state -> state -> Prop) :
  (forall s, R s s) -> (forall s l, R s (set_stdin l s)) -> keeps R read_line.
Proof. intros Hr Hs s. unfold read_line. destruct (stdin s); auto. Qed.

(** Every test leaves the cursor, the Prune Set, the file system and
    standard input as they are. *)
Lemma tests_frame :
  Forall (fun p => forall path args, keeps test_frame (snd p path args))
    (_tests lib opts).
Proof.
  unfold _tests.
  repeat (constructor; [intros path args; simpl|]); try (apply List.Forall_nil);
    autounfold with prims;
    try (destruct args as [|a [|]]);
    frame_tac;
    try (apply keeps_bind; [rel_solve | apply keeps_datetime_now; rel_solve | intros]);
    frame_tac.
Qed.

End PrimitiveFrames.

(* ===================================================================== *)
(** ** A frame rule for the evaluator *)
(* ===================================================================== *)

Lemma assoc_In {A} key (d : list (string * A)) v :
  assoc key d = Some v -> In (key, v) d.
Proof.
  induction d as [|[k w] d IH]; simpl; [discriminate|].
  destruct (String.eqb key k) eqn:E.
  - apply String.eqb_eq in E. intros [= ->]. subst. now left.
  - intros H. right. auto.
Qed.

Section EvaluatorFrame.

Variable lib : Lib.
Variable opts : options.
Variable toks : list string.
Variable path : string.

(** A relation that every move of the cursor respects, and that the
    tests and actions named in the token stream respect when they are
    called on [path]. *)
Variable R : state -> state -> Prop.
Hypothesis R_refl : forall s, R s s.
Hypothesis R_trans : forall s1 s2 s3, R s1 s2 -> R s2 s3 -> R s1 s3.
Hypothesis R_pos : forall s n, R s (set_pos n s).
Hypothesis R_tests :
  forall tok f args, In tok toks -> assoc tok (_tests lib opts) = Some f ->
                     keeps R (f path args).
Hypothesis R_plain :
  forall tok f args, In tok toks -> assoc tok (_plain_actions lib) = Some f ->
                     keeps R (f path args).
Hypothesis R_exec :
  forall tok f args, In tok toks -> assoc tok (_exec_actions lib) = Some f ->
                     keeps R (f path args).

Let kd {A} (m : M A) : Prop := keeps_if_done R m.

Lemma kd_ret {A} (a : A) : kd (ret a).
Proof. apply keeps_weaken, keeps_ret, R_refl. Qed.

Lemma kd_raise {A} e : kd (@raise A e).
Proof. apply keeps_weaken, keeps_raise, R_refl. Qed.

Lemma kd_bind {A B} (m : M A) (k : A -> M B) :
  kd m -> (forall a, kd (k a)) -> kd (bind m k).
Proof. apply keeps_if_done_bind, R_trans. Qed.

Lemma kd_keeps {A} (m : M A) : keeps R m -> kd m.
Proof. apply keeps_weaken. Qed.

(** After [_peek], the token is one of the stream. *)
Lemma kd_bind_peek {B} (k : option string -> M B) :
  (forall t, (forall tok, t = Some tok -> In tok toks) -> kd (k t)) ->
  kd (bind (_peek toks) k).
Proof.
  intros H s. unfold bind, _peek, gets.
  apply (H (toks !! pos s)). intros tok E.
  apply list_elem_of_In. eapply list_elem_of_lookup_2; eauto.
Qed.

Lemma kd_consume expected : kd (_consume toks expected).
Proof.
  unfold _consume. apply kd_bind_peek. intros t _.
  destruct (match expected with Some _ => _ | None => _ end).
  - apply kd_raise.
  - apply kd_bind; [|intros; apply kd_ret].
    destruct t; [|apply kd_ret].
    apply kd_keeps, keeps_modify; intros; apply R_pos.
Qed.

Lemma kd_consume_args n : kd (consume_args toks n).
Proof.
  induction n; simpl; [apply kd_ret|].
  apply kd_bind; [apply kd_consume|intros].
  apply kd_bind; [assumption|intros; apply kd_ret].
Qed.

Lemma kd_consume_command tok : kd (consume_command toks tok).
Proof.
  unfold consume_command. apply kd_bind.
  { apply kd_keeps, keeps_gets, R_refl. }
  intros rest. destruct (until_semicolon rest).
  - apply kd_bind; [apply kd_keeps, keeps_modify; intros; apply R_pos|intros].
    apply kd_bind; [apply kd_consume|intros; apply kd_ret].
  - apply kd_bind; [apply kd_keeps, keeps_modify; intros; apply R_pos|intros].
    apply kd_raise.
Qed.

Section Levels.

Variable primary : string -> bool -> M bool.
Hypothesis kd_primary : forall e, kd (primary path e).

Lemma kd_not_expr e : kd (not_expr toks primary path e).
Proof.
  unfold not_expr. apply kd_bind_peek. intros t _.
  destruct (token_in t _); [|apply kd_primary].
  apply kd_bind; [apply kd_consume|intros _].
  destruct (negb e).
  - apply kd_bind; [apply kd_primary|intros; apply kd_ret].
  - apply kd_bind; [apply kd_primary|intros; apply kd_ret].
Qed.

Lemma kd_and_loop k e left : kd (and_loop toks primary k path e left).
Proof.
  revert left. induction k as [|k IH]; intros left; simpl.
  { intros s. exact I. }
  apply kd_bind_peek. intros t _. destruct t as [tok|]; [|apply kd_ret].
  destruct (token_in (Some tok) ["-o"; "-or"; ")"; ","]); [apply kd_ret|].
  apply kd_bind.
  { destruct (token_in _ _); [|apply kd_ret].
    apply kd_bind; [apply kd_consume|intros; apply kd_ret]. }
  intros _. destruct (negb e || negb left).
  - apply kd_bind; [apply kd_not_expr|intros; apply IH].
  - apply kd_bind; [apply kd_not_expr|intros; apply IH].
Qed.

Lemma kd_and_expr k e : kd (and_expr toks primary k path e).
Proof.
  unfold and_expr. apply kd_bind; [apply kd_not_expr|intros; apply kd_and_loop].
Qed.

Lemma kd_or_loop k left : kd (or_loop toks primary k path left).
Proof.
  revert left. induction k as [|k IH]; intros left; simpl.
  { intros s. exact I. }
  apply kd_bind_peek. intros t _.
  destruct (token_in t _); [|apply kd_ret].
  apply kd_bind; [apply kd_consume|intros _].
  destruct left.
  - apply kd_bind; [apply kd_and_expr|intros; apply kd_ret].
  - apply kd_bind; [apply kd_and_expr|intros; apply IH].
Qed.

Lemma kd_or_expr k : kd (or_expr toks primary k path).
Proof.
  unfold or_expr. apply kd_bind; [apply kd_and_expr|intros; apply kd_or_loop].
Qed.

End Levels.

Lemma kd_parse_primary fuel :
  forall e, kd (_parse_primary lib opts toks fuel path e).
Proof.
  induction fuel as [|n IH]; intros e; cbn [_parse_primary].
  { intros s. exact I. }
  apply kd_bind_peek. intros t Ht. destruct t as [tok|]; [|apply kd_ret].
  specialize (Ht tok eq_refl).
  destruct (String.eqb tok "(").
  { apply kd_bind; [apply kd_consume|intros _].
    apply kd_bind; [apply kd_or_expr, IH|intros res].
    apply kd_bind; [apply kd_consume|intros; apply kd_ret]. }
  destruct (assoc tok (_tests lib opts)) as [test_func|] eqn:Et.
  { apply kd_bind; [apply kd_consume|intros _].
    apply kd_bind; [apply kd_consume_args|intros args].
    destruct e; [|apply kd_ret]. apply kd_keeps. eapply R_tests; eauto. }
  destruct (existsb (String.eqb tok) action_names); [|apply kd_raise].
  apply kd_bind; [apply kd_consume|intros _].
  destruct (is_exec_action tok).
  - apply kd_bind; [apply kd_consume_command|intros args].
    destruct e; [|apply kd_ret].
    destruct (assoc tok (_exec_actions lib)) eqn:Ea; [|apply kd_ret].
    apply kd_keeps. eapply R_exec; eauto.
  - apply kd_bind; [apply kd_consume_args|intros args].
    destruct e; [|apply kd_ret].
    destruct (assoc tok (_plain_actions lib)) eqn:Ea; [|apply kd_ret].
    apply kd_keeps. eapply R_plain; eauto.
Qed.

Lemma kd_evaluate_expression :
  kd (_evaluate_expression lib opts toks path).
Proof.
  unfold _evaluate_expression, _parse_or_expr.
  apply kd_bind.
  - apply kd_keeps, keeps_modify; intros; apply R_pos.
  - intros _. apply kd_or_expr. apply kd_parse_primary.
Qed.

End EvaluatorFrame.

Section ActionFrames.

Variable lib : Lib.

Lemma assoc_cons {A} key k (v : A) d :
  assoc key ((k, v) :: d) = if String.eqb key k then Some v else assoc key d.
Proof. reflexivity. Qed.

(** The actions other than [-prune] leave the cursor and the Prune Set
    as they are. *)
Lemma plain_actions_frame tok f :
  assoc tok (_plain_actions lib) = Some f -> tok <> "-prune" ->
  forall path args, keeps same_pos_prune (f path args).
Proof.
  unfold _plain_actions. intros H Hne path args.
  repeat (rewrite assoc_cons in H;
          destruct (String.eqb tok _) eqn:E in H;
          [ apply String.eqb_eq in E; injection H as <-
          | clear E ]);
    try discriminate; try contradiction;
    unfold star_args; autounfold with prims; frame_tac.
Qed.

Lemma exec_actions_frame tok f :
  assoc tok (_exec_actions lib) = Some f ->
  forall path args, keeps same_pos_prune (f path args).
Proof.
  unfold _exec_actions. intros H path args.
  repeat (rewrite assoc_cons in H;
          destruct (String.eqb tok _) eqn:E in H;
          [ apply String.eqb_eq in E; injection H as <-
          | clear E ]);
    try discriminate;
    autounfold with prims; frame_tac;
    try (apply keeps_read_line; rel_solve).
Qed.

Lemma action_prune_directory path s :
  Fs.isdir (fs s) path = true ->
  _action_prune path s
  = Ok true (set_prune_paths ({[ path ]} ∪ prune_paths s) s).
Proof.
  intros H. unfold _action_prune, bind, gets, modify, ret. now rewrite H.
Qed.

Lemma action_prune_other path s :
  Fs.isdir (fs s) path = false -> _action_prune path s = Ok true s.
Proof.
  intros H. unfold _action_prune, bind, gets, modify, ret. now rewrite H.
Qed.

End ActionFrames.

(** How an evaluation against [path] may change the Prune Set: not at
    all, or by adding [path], and this only when [-prune] is among the
    tokens. *)
Definition prune_gain (toks : list string) (path : string) (s s' : state)
  : Prop :=
  prune_paths s' = prune_paths s
  \/ (In "-prune" toks /\ prune_paths s' = {[ path ]} ∪ prune_paths s).

Lemma prune_gain_refl toks path s : prune_gain toks path s s.
Proof. now left. Qed.

Lemma prune_gain_trans toks path s1 s2 s3 :
  prune_gain toks path s1 s2 -> prune_gain toks path s2 s3 ->
  prune_gain toks path s1 s3.
Proof.
  unfold prune_gain. intros [H1|[Hp H1]] [H2|[Hq H2]]; rewrite ?H2, ?H1; auto.
  right. split; [assumption|].
  apply set_eq. intros x. rewrite !elem_of_union. tauto.
Qed.

Lemma evaluate_expression_prune_gain lib opts toks path :
  keeps_if_done (prune_gain toks path)
    (_evaluate_expression lib opts toks path).
Proof.
  apply kd_evaluate_expression.
  - apply prune_gain_refl.
  - apply prune_gain_trans.
  - intros s n. now left.
  - intros tok f args _ Hf s.
    pose proof (assoc_In _ _ _ Hf) as Hin.
    pose proof (tests_frame lib opts) as HF.
    rewrite List.Forall_forall in HF. specialize (HF _ Hin path args s).
    simpl in HF. destruct (f path args s); try contradiction; left; apply HF.
  - intros tok f args Hin Hf.
    destruct (String.eqb tok "-prune") eqn:E.
    + apply String.eqb_eq in E. subst tok.
      unfold _plain_actions in Hf. repeat rewrite assoc_cons in Hf.
      simpl in Hf. injection Hf as <-. intros s. unfold star_args.
      destruct (Fs.isdir (fs s) path) eqn:D.
      * rewrite action_prune_directory by assumption. right. simpl. auto.
      * rewrite action_prune_other by assumption. now left.
    + apply String.eqb_neq in E. intros s.
      pose proof (plain_actions_frame lib tok f Hf E path args s) as H.
      destruct (f path args s); try contradiction; left; apply H.
  - intros tok f args _ Hf s.
    pose proof (exec_actions_frame lib tok f Hf path args s) as H.
    destruct (f path args s); try contradiction; left; apply H.
Qed.

(** C10. The prune action on an entry that is not a directory returns
    true and changes nothing; on a directory it adds the path of the
    entry to the Prune Set. Whatever the expression, evaluating it against
    an entry leaves the Prune Set as it was or adds the path of the entry
    to it, and adds it only when [-prune] is among the tokens. *)
Theorem prune_set_gains_only_by_prune lib opts toks path s :
  (Fs.isdir (fs s) path = false -> _action_prune path s = Ok true s)
  /\ (Fs.isdir (fs s) path = true ->
      _action_prune path s
      = Ok true (set_prune_paths ({[ path ]} ∪ prune_paths s) s))
  /\ (forall e s',
        _evaluate_expression lib opts toks path s = Raise e s' ->
        prune_gain toks path s s')
  /\ (forall v s',
        _evaluate_expression lib opts toks path s = Ok v s' ->
        prune_gain toks path s s').
Proof.
  split; [apply action_prune_other|].
  split; [apply action_prune_directory|].
  pose proof (evaluate_expression_prune_gain lib opts toks path s) as H.
  split; intros ? s' E; rewrite E in H; exact H.
Qed.

(* ===================================================================== *)
(** ** Where the cursor goes *)
(* ===================================================================== *)

(** [cursor_spec p m Q]: started with the cursor at [p], if [m] returns
    [a] with the cursor at [q], then [Q a q]. *)
Definition cursor_spec {A} (p : nat) (m : M A) (Q : A -> nat -> Prop) : Prop :=
  forall s, pos s = p ->
            match m s with
            | Ok a s' => Q a (pos s')
            | Raise _ _ | OutOfFuel => True
            end.

(** [returns p m]: started with the cursor at [p], [m] returns or
    raises. *)
Definition returns {A} (p : nat) (m : M A) : Prop :=
  forall s, pos s = p -> m s <> OutOfFuel.

Lemma cursor_ret {A} p (a : A) (Q : A -> nat -> Prop) :
  Q a p -> cursor_spec p (ret a) Q.
Proof. intros H s <-. exact H. Qed.

Lemma cursor_raise {A} p e (Q : A -> nat -> Prop) :
  cursor_spec p (raise e) Q.
Proof. intros s _. exact I. Qed.

Lemma cursor_out_of_fuel {A} p (Q : A -> nat -> Prop) :
  cursor_spec p out_of_fuel Q.
Proof. intros s _. exact I. Qed.

Lemma cursor_bind {A B} p (m : M A) (k : A -> M B) Q Q' :
  cursor_spec p m Q -> (forall a q, Q a q -> cursor_spec q (k a) Q') ->
  cursor_spec p (bind m k) Q'.
Proof.
  intros Hm Hk s Hs. unfold bind. specialize (Hm s Hs).
  destruct (m s) as [a s1| |]; try exact I.
  exact (Hk a (pos s1) Hm s1 eq_refl).
Qed.

Lemma cursor_weaken {A} p (m : M A) (Q Q' : A -> nat -> Prop) :
  cursor_spec p m Q -> (forall a q, Q a q -> Q' a q) -> cursor_spec p m Q'.
Proof.
  intros H HQ s Hs. specialize (H s Hs). destruct (m s); auto.
Qed.

Lemma cursor_gets {A B} p (f : state -> A) (k : A -> M B) Q :
  (forall a, cursor_spec p (k a) Q) -> cursor_spec p (bind (gets f) k) Q.
Proof. intros H s Hs. unfold bind, gets. apply H, Hs. Qed.

Lemma cursor_keeps {A} p (m : M A) :
  keeps same_pos m -> cursor_spec p m (fun _ q => q = p).
Proof.
  intros H s Hs. specialize (H s). destruct (m s); auto. now rewrite <- Hs.
Qed.

Lemma returns_ret {A} p (a : A) : returns p (ret a).
Proof. intros s _. discriminate. Qed.

Lemma returns_raise {A} p e : returns p (@raise A e).
Proof. intros s _. discriminate. Qed.

Lemma returns_bind {A B} p (m : M A) (k : A -> M B) Q :
  returns p m -> cursor_spec p m Q -> (forall a q, Q a q -> returns q (k a)) ->
  returns p (bind m k).
Proof.
  intros Hr Hm Hk s Hs. unfold bind. specialize (Hr s Hs).
  specialize (Hm s Hs). destruct (m s) as [a s1| |]; try discriminate.
  - exact (Hk a (pos s1) Hm s1 eq_refl).
  - contradiction.
Qed.

Lemma returns_keeps {A} p (m : M A) (R : state -> state -> Prop) :
  keeps R m -> returns p m.
Proof. intros H s _ E. specialize (H s). now rewrite E in H. Qed.

Section Cursor.

Variable toks : list string.

(** The steps of the cursor. *)
Lemma cursor_peek {B} p (k : option string -> M B) Q :
  cursor_spec p (k (toks !! p)) Q -> cursor_spec p (bind (_peek toks) k) Q.
Proof. intros H s Hs. unfold bind, _peek, gets. rewrite Hs. apply H, Hs. Qed.

Lemma returns_peek {B} p (k : option string -> M B) :
  returns p (k (toks !! p)) -> returns p (bind (_peek toks) k).
Proof. intros H s Hs. unfold bind, _peek, gets. rewrite Hs. apply H, Hs. Qed.

Definition step (p : nat) : nat :=
  match toks !! p with Some _ => S p | None => p end.

Lemma cursor_consume p expected :
  cursor_spec p (_consume toks expected)
    (fun t q => t = toks !! p /\ q = step p
                /\ match expected with
                   | Some e => e <> "" -> t = Some e
                   | None => True
                   end).
Proof.
  unfold _consume. apply cursor_peek.
  destruct expected as [e|].
  - destruct (String.eqb e "") eqn:Ee; simpl.
    + apply String.eqb_eq in Ee. unfold step.
      destruct (toks !! p); intros st Hs; simpl; rewrite ?Hs; split; auto;
        split; auto; congruence.
    + destruct (toks !! p) as [t|] eqn:Et; simpl.
      * destruct (String.eqb t e) eqn:E; simpl; [|apply cursor_raise].
        apply String.eqb_eq in E. subst t. unfold step. rewrite Et.
        intros st Hs; simpl. rewrite Hs. auto.
      * apply cursor_raise.
  - unfold step. destruct (toks !! p); intros st Hs; simpl; rewrite ?Hs; auto.
Qed.

Lemma returns_consume p expected : returns p (_consume toks expected).
Proof.
  unfold _consume. apply returns_peek.
  destruct (match expected with Some _ => _ | None => _ end).
  - apply returns_raise.
  - destruct (toks !! p); intros st _; discriminate.
Qed.

Lemma step_le p : (p <= step p)%nat.
Proof. unfold step. destruct (toks !! p); lia. Qed.

Lemma cursor_consume_args p n :
  cursor_spec p (consume_args toks n)
    (fun args q => (p <= q <= p + n)%nat
                   /\ ((p + n <= length toks)%nat -> q = (p + n)%nat)).
Proof.
  revert p. induction n as [|n IH]; intros p; simpl.
  - apply cursor_ret. lia.
  - eapply cursor_bind; [apply cursor_consume|].
    intros a q (_ & -> & _).
    eapply cursor_bind; [apply IH|]. intros r q [H1 H2].
    apply cursor_ret. unfold step in *.
    destruct (toks !! p) eqn:E.
    + split; [lia|]. intros H. rewrite H2; lia.
    + apply lookup_ge_None in E. split; lia.
Qed.

Lemma returns_consume_args p n : returns p (consume_args toks n).
Proof.
  revert p. induction n as [|n IH]; intros p; simpl.
  - apply returns_ret.
  - eapply returns_bind; [apply returns_consume|apply cursor_consume|].
    intros a q _. eapply returns_bind; [apply IH|apply cursor_consume_args|].
    intros; apply returns_ret.
Qed.

End Cursor.

Lemma keeps_impl {A} (R R' : state -> state -> Prop) (m : M A) :
  (forall s s', R s s' -> R' s s') -> keeps R m -> keeps R' m.
Proof. intros HR H s. specialize (H s). destruct (m s); auto. Qed.

Section PrimitiveCursor.

Variable lib : Lib.
Variable opts : options.

Lemma tests_same_pos tok f path args :
  assoc tok (_tests lib opts) = Some f -> keeps same_pos (f path args).
Proof.
  intros Hf. apply assoc_In in Hf.
  pose proof (tests_frame lib opts) as HF. rewrite List.Forall_forall in HF.
  apply (keeps_impl test_frame); [intros s s' H; apply H|].
  apply (HF _ Hf).
Qed.

Lemma plain_actions_same_pos tok f path args :
  assoc tok (_plain_actions lib) = Some f -> keeps same_pos (f path args).
Proof.
  intros Hf. destruct (String.eqb tok "-prune") eqn:E.
  - apply String.eqb_eq in E. subst tok.
    unfold _plain_actions in Hf. repeat rewrite assoc_cons in Hf.
    simpl in Hf. injection Hf as <-.
    unfold star_args, _action_prune. frame_tac.
  - apply String.eqb_neq in E.
    apply (keeps_impl same_pos_prune); [intros s s' H; apply H|].
    eapply plain_actions_frame; eauto.
Qed.

Lemma exec_actions_same_pos tok f path args :
  assoc tok (_exec_actions lib) = Some f -> keeps same_pos (f path args).
Proof.
  intros Hf. apply (keeps_impl same_pos_prune); [intros s s' H; apply H|].
  eapply exec_actions_frame; eauto.
Qed.

End PrimitiveCursor.

Section CursorMoves.

Variable toks : list string.

Lemma cursor_gets_pos {A B} p (f : nat -> A) (k : A -> M B) Q :
  cursor_spec p (k (f p)) Q ->
  cursor_spec p (bind (gets (fun s => f (pos s))) k) Q.
Proof. intros H s Hs. unfold bind, gets. rewrite Hs. apply H, Hs. Qed.

Lemma cursor_set_pos {B} p (g : nat -> nat) (k : unit -> M B) Q :
  cursor_spec (g p) (k tt) Q ->
  cursor_spec p (bind (modify (fun s => set_pos (g (pos s)) s)) k) Q.
Proof.
  intros H s Hs. unfold bind, modify. apply H. simpl. now rewrite Hs.
Qed.

Lemma until_semicolon_Some rest args :
  until_semicolon rest = Some args ->
  exists rest', rest = args ++ ";" :: rest'.
Proof.
  revert args. induction rest as [|t r IH]; intros args; simpl; [discriminate|].
  destruct (String.eqb t ";") eqn:E.
  - apply String.eqb_eq in E. subst t. intros [= <-]. now exists r.
  - destruct (until_semicolon r) as [a|]; [|discriminate].
    intros [= <-]. destruct (IH a eq_refl) as [rest' ->]. now exists rest'.
Qed.

Lemma until_semicolon_app args rest :
  Forall (fun a => a <> ";") args ->
  until_semicolon (args ++ ";" :: rest) = Some args.
Proof.
  induction 1 as [|a args Ha _ IH]; simpl; [reflexivity|].
  apply String.eqb_neq in Ha. now rewrite Ha, IH.
Qed.

(** A command action takes its arguments and the [;] after them. *)
Lemma cursor_consume_command p tok :
  cursor_spec p (consume_command toks tok)
    (fun args q => until_semicolon (drop p toks) = Some args
                   /\ q = S (p + length args)).
Proof.
  unfold consume_command.
  apply (cursor_gets_pos p (fun n => drop n toks)).
  destruct (until_semicolon (drop p toks)) as [args|] eqn:E.
  - apply (cursor_set_pos p (fun n => (n + length args)%nat)).
    eapply cursor_bind; [apply cursor_consume|].
    intros t q (Ht & -> & _). apply cursor_ret. split; [reflexivity|].
    destruct (until_semicolon_Some _ _ E) as [rest' Hr].
    unfold step.
    assert (toks !! (p + length args)%nat = Some ";") as ->; [|reflexivity].
    rewrite <- lookup_drop, Hr. rewrite lookup_app_r by lia.
    now replace (length args - length args)%nat with 0%nat by lia.
  - apply (cursor_set_pos p (fun n => (n + length (drop p toks))%nat)).
    apply cursor_raise.
Qed.

Lemma returns_consume_command p tok : returns p (consume_command toks tok).
Proof.
  intros s Hs. unfold consume_command, bind, gets, modify.
  destruct (until_semicolon _); [|discriminate].
  pose proof (returns_consume toks (pos s + length l)%nat (Some ";")
                (set_pos (pos s + length l) s) eq_refl) as H.
  destruct (_consume toks (Some ";") _); try discriminate. contradiction.
Qed.

End CursorMoves.

(* ===================================================================== *)
(** ** The cursor only moves forward, and the evaluator returns *)
(* ===================================================================== *)

(** From [p] the cursor has not moved back, and has moved on when there
    was a token at [p]. *)
Definition progress (toks : list string) (p : nat) {A} : A -> nat -> Prop :=
  fun _ q => (p <= q)%nat /\ (is_Some (toks !! p) -> (p < q)%nat).

Definition forward (p : nat) {A} : A -> nat -> Prop :=
  fun _ q => (p <= q)%nat.

Section LevelsForward.

Variable toks : list string.
Variable path : string.
Variable primary : string -> bool -> M bool.
Hypothesis primary_progress :
  forall p e, cursor_spec p (primary path e) (progress toks p).

Lemma step_Some p t : toks !! p = Some t -> step toks p = S p.
Proof. unfold step. now intros ->. Qed.

Lemma cursor_consume_forward p expected :
  cursor_spec p (_consume toks expected) (progress toks p).
Proof.
  eapply cursor_weaken; [apply cursor_consume|].
  intros t q (_ & -> & _). unfold progress, step.
  destruct (toks !! p); split; try lia. intros [? Hx]. discriminate Hx.
Qed.

Lemma not_expr_progress p e :
  cursor_spec p (not_expr toks primary path e) (progress toks p).
Proof.
  unfold not_expr. apply cursor_peek.
  destruct (token_in (toks !! p) ["!"; "-not"]) eqn:E;
    [|apply primary_progress].
  destruct (toks !! p) as [t|] eqn:Et; [|discriminate].
  eapply cursor_bind; [apply cursor_consume|].
  intros a q (_ & -> & _). rewrite (step_Some _ _ Et).
  destruct (negb e).
  - eapply cursor_bind; [apply primary_progress|].
    intros r q [Hq _]. apply cursor_ret. split; intros; lia.
  - eapply cursor_bind; [apply primary_progress|].
    intros r q [Hq _]. apply cursor_ret. split; intros; lia.
Qed.

Lemma and_loop_forward k : forall p e left,
  cursor_spec p (and_loop toks primary k path e left) (forward p).
Proof.
  induction k as [|k IH]; intros p e left; simpl.
  { apply cursor_out_of_fuel. }
  apply cursor_peek. destruct (toks !! p) as [t|] eqn:Et;
    [|apply cursor_ret; unfold forward; lia].
  destruct (token_in (Some t) ["-o"; "-or"; ")"; ","]);
    [apply cursor_ret; unfold forward; lia|].
  eapply (cursor_bind _ _ _ (forward p)).
  { destruct (token_in (Some t) ["-a"; "-and"]);
      [|apply cursor_ret; unfold forward; lia].
    eapply cursor_bind; [apply cursor_consume_forward|].
    intros a q [Hq _]. apply cursor_ret. exact Hq. }
  intros u q Hq. unfold forward in Hq.
  destruct (negb e || negb left).
  - eapply cursor_bind; [apply not_expr_progress|].
    intros r q' [Hq' _]. eapply cursor_weaken; [apply IH|].
    unfold forward. intros; lia.
  - eapply cursor_bind; [apply not_expr_progress|].
    intros r q' [Hq' _]. eapply cursor_weaken; [apply IH|].
    unfold forward. intros; lia.
Qed.

Lemma and_expr_progress k p e :
  cursor_spec p (and_expr toks primary k path e) (progress toks p).
Proof.
  unfold and_expr. eapply cursor_bind; [apply not_expr_progress|].
  intros r q [H1 H2]. eapply cursor_weaken; [apply and_loop_forward|].
  unfold forward, progress. intros _ q' H. split; [lia|].
  intros Hs. specialize (H2 Hs). lia.
Qed.

Lemma or_loop_forward k : forall p left,
  cursor_spec p (or_loop toks primary k path left) (forward p).
Proof.
  induction k as [|k IH]; intros p left; simpl.
  { apply cursor_out_of_fuel. }
  apply cursor_peek.
  destruct (token_in (toks !! p) ["-o"; "-or"]);
    [|apply cursor_ret; unfold forward; lia].
  eapply cursor_bind; [apply cursor_consume_forward|].
  intros a q [Hq _]. destruct left.
  - eapply cursor_bind; [apply and_expr_progress|].
    intros r q' [Hq' _]. apply cursor_ret. unfold forward. lia.
  - eapply cursor_bind; [apply and_expr_progress|].
    intros r q' [Hq' _]. eapply cursor_weaken; [apply IH|].
    unfold forward. intros; lia.
Qed.

Lemma or_expr_progress k p :
  cursor_spec p (or_expr toks primary k path) (progress toks p).
Proof.
  unfold or_expr. eapply cursor_bind; [apply and_expr_progress|].
  intros r q [H1 H2]. eapply cursor_weaken; [apply or_loop_forward|].
  unfold forward, progress. intros _ q' H. split; [lia|].
  intros Hs. specialize (H2 Hs). lia.
Qed.

End LevelsForward.

Section PrimaryForward.

Variable lib : Lib.
Variable opts : options.
Variable toks : list string.
Variable path : string.

Lemma parse_primary_progress fuel : forall p e,
  cursor_spec p (_parse_primary lib opts toks fuel path e) (progress toks p).
Proof.
  induction fuel as [|n IH]; intros p e; cbn [_parse_primary].
  { apply cursor_out_of_fuel. }
  apply cursor_peek. destruct (toks !! p) as [tok|] eqn:Et.
  2:{ apply cursor_ret. split; [lia|]. rewrite Et. intros [? Hx].
      discriminate Hx. }
  assert (Hdone : forall (a : bool) q, (S p <= q)%nat -> progress toks p a q).
  { intros a q Hq. split; intros; lia. }
  destruct (String.eqb tok "(").
  { eapply cursor_bind; [apply cursor_consume|].
    intros a q (_ & -> & _). rewrite (step_Some _ _ _ Et).
    eapply cursor_bind; [apply or_expr_progress, IH|].
    intros res q [Hq _].
    eapply cursor_bind; [apply cursor_consume_forward|].
    intros a' q' [Hq' _]. apply cursor_ret, Hdone. lia. }
  destruct (assoc tok (_tests lib opts)) as [test_func|] eqn:Ef.
  { eapply cursor_bind; [apply cursor_consume|].
    intros a q (_ & -> & _). rewrite (step_Some _ _ _ Et).
    eapply cursor_bind; [apply cursor_consume_args|].
    intros args q [Hq _]. destruct e; [|apply cursor_ret, Hdone; lia].
    eapply cursor_weaken;
      [apply cursor_keeps; eapply tests_same_pos; eauto|].
    intros a' q' ->. apply Hdone. lia. }
  destruct (existsb (String.eqb tok) action_names); [|apply cursor_raise].
  eapply cursor_bind; [apply cursor_consume|].
  intros a q (_ & -> & _). rewrite (step_Some _ _ _ Et).
  destruct (is_exec_action tok).
  - eapply cursor_bind; [apply cursor_consume_command|].
    intros args q [_ ->]. destruct e; [|apply cursor_ret, Hdone; lia].
    destruct (assoc tok (_exec_actions lib)) eqn:Ea;
      [|apply cursor_ret, Hdone; lia].
    eapply cursor_weaken;
      [apply cursor_keeps; eapply exec_actions_same_pos; eauto|].
    intros a' q' ->. apply Hdone. lia.
  - eapply cursor_bind; [apply cursor_consume_args|].
    intros args q [Hq _]. destruct e; [|apply cursor_ret, Hdone; lia].
    destruct (assoc tok (_plain_actions lib)) eqn:Ea;
      [|apply cursor_ret, Hdone; lia].
    eapply cursor_weaken;
      [apply cursor_keeps; eapply plain_actions_same_pos; eauto|].
    intros a' q' ->. apply Hdone. lia.
Qed.

End PrimaryForward.

Section LevelsReturn.

Variable toks : list string.
Variable path : string.
Variable primary : string -> bool -> M bool.
Variable n : nat.
Hypothesis primary_progress :
  forall p e, cursor_spec p (primary path e) (progress toks p).
Hypothesis primary_returns :
  forall p e, (length toks - p < n)%nat -> returns p (primary path e).

Lemma lookup_Some_lt p (t : string) : toks !! p = Some t -> (p < length toks)%nat.
Proof. intros H. eapply lookup_lt_Some; eauto. Qed.

Lemma not_expr_returns p e :
  (length toks - p < n)%nat -> returns p (not_expr toks primary path e).
Proof.
  intros Hp. unfold not_expr. apply returns_peek.
  destruct (token_in (toks !! p) ["!"; "-not"]) eqn:E;
    [|now apply primary_returns].
  eapply returns_bind; [apply returns_consume|apply cursor_consume_forward|].
  intros a q [Hq _].
  assert (length toks - q < n)%nat by lia.
  destruct (negb e).
  - eapply returns_bind;
      [now apply primary_returns|apply primary_progress|].
    intros; apply returns_ret.
  - eapply returns_bind;
      [now apply primary_returns|apply primary_progress|].
    intros; apply returns_ret.
Qed.

Lemma and_loop_returns k : forall p e left,
  (length toks - p < n)%nat -> (length toks - p < k)%nat ->
  returns p (and_loop toks primary k path e left).
Proof.
  induction k as [|k IH]; intros p e left Hn Hk; [lia|]. simpl.
  apply returns_peek. destruct (toks !! p) as [t|] eqn:Et;
    [|apply returns_ret].
  destruct (token_in (Some t) ["-o"; "-or"; ")"; ","]); [apply returns_ret|].
  pose proof (lookup_Some_lt _ _ Et) as Hlt.
  eapply (returns_bind _ _ _ (fun _ q => q = S p \/ q = p)).
  { destruct (token_in (Some t) ["-a"; "-and"]); [|apply returns_ret].
    eapply returns_bind; [apply returns_consume|apply cursor_consume|].
    intros; apply returns_ret. }
  { destruct (token_in (Some t) ["-a"; "-and"]); [|apply cursor_ret; auto].
    eapply cursor_bind; [apply cursor_consume|].
    intros a q (_ & -> & _). rewrite (step_Some _ _ _ Et).
    apply cursor_ret. auto. }
  intros u q Hq.
  assert (Hnext : forall (r : bool) q',
             progress toks q r q' -> (p < q')%nat).
  { intros r q' [H1 H2]. destruct Hq as [->| ->]; [lia|].
    apply H2. rewrite Et. eauto. }
  assert (length toks - q < n)%nat by (destruct Hq; lia).
  destruct (negb e || negb left).
  - eapply returns_bind;
      [now apply not_expr_returns
      |eapply cursor_weaken; [apply not_expr_progress, primary_progress|];
       apply Hnext|].
    intros r q' Hq'. cbv beta in Hq'. apply IH; lia.
  - eapply returns_bind;
      [now apply not_expr_returns
      |eapply cursor_weaken; [apply not_expr_progress, primary_progress|];
       apply Hnext|].
    intros r q' Hq'. cbv beta in Hq'. apply IH; lia.
Qed.

Lemma and_expr_returns k p e :
  (length toks - p < n)%nat -> (length toks - p < k)%nat ->
  returns p (and_expr toks primary k path e).
Proof.
  intros Hn Hk. unfold and_expr.
  eapply returns_bind;
    [now apply not_expr_returns|apply not_expr_progress, primary_progress|].
  intros r q [Hq _]. apply and_loop_returns; lia.
Qed.

Lemma or_loop_returns k : forall p left,
  (length toks - p < n)%nat -> (length toks - p < k)%nat ->
  returns p (or_loop toks primary k path left).
Proof.
  induction k as [|k IH]; intros p left Hn Hk; [lia|]. simpl.
  apply returns_peek.
  destruct (token_in (toks !! p) ["-o"; "-or"]) eqn:E; [|apply returns_ret].
  destruct (toks !! p) as [t|] eqn:Et; [|discriminate].
  pose proof (lookup_Some_lt _ _ Et) as Hlt.
  eapply returns_bind; [apply returns_consume|apply cursor_consume|].
  intros a q (_ & -> & _). rewrite (step_Some _ _ _ Et).
  destruct left.
  - eapply returns_bind;
      [apply and_expr_returns; lia
      |apply and_expr_progress, primary_progress|].
    intros; apply returns_ret.
  - eapply returns_bind;
      [apply and_expr_returns; lia
      |apply and_expr_progress, primary_progress|].
    intros r q [Hq _]. apply IH; lia.
Qed.

Lemma or_expr_returns k p :
  (length toks - p < n)%nat -> (length toks - p < k)%nat ->
  returns p (or_expr toks primary k path).
Proof.
  intros Hn Hk. unfold or_expr.
  eapply returns_bind;
    [now apply and_expr_returns|apply and_expr_progress, primary_progress|].
  intros r q [Hq _]. apply or_loop_returns; lia.
Qed.

End LevelsReturn.

Section EvaluatorReturns.

Variable lib : Lib.
Variable opts : options.
Variable toks : list string.
Variable path : string.

Lemma parse_primary_returns fuel : forall p e,
  (length toks - p < fuel)%nat ->
  returns p (_parse_primary lib opts toks fuel path e).
Proof.
  induction fuel as [|n IH]; intros p e Hp; [lia|]. cbn [_parse_primary].
  apply returns_peek. destruct (toks !! p) as [tok|] eqn:Et;
    [|apply returns_ret].
  pose proof (lookup_lt_Some _ _ _ Et) as Hlt.
  destruct (String.eqb tok "(").
  { eapply returns_bind; [apply returns_consume|apply cursor_consume|].
    intros a q (_ & -> & _). rewrite (step_Some _ _ _ Et).
    eapply returns_bind;
      [apply (or_expr_returns toks path (_parse_primary lib opts toks n) n);
         [apply parse_primary_progress|apply IH|lia|lia]
      |apply or_expr_progress, parse_primary_progress|].
    intros res q _.
    eapply returns_bind; [apply returns_consume|apply cursor_consume|].
    intros; apply returns_ret. }
  destruct (assoc tok (_tests lib opts)) as [test_func|] eqn:Ef.
  { eapply returns_bind; [apply returns_consume|apply cursor_consume|].
    intros a q _.
    eapply returns_bind;
      [apply returns_consume_args|apply cursor_consume_args|].
    intros args q' _. destruct e; [|apply returns_ret].
    eapply returns_keeps, tests_same_pos; eauto. }
  destruct (existsb (String.eqb tok) action_names); [|apply returns_raise].
  eapply returns_bind; [apply returns_consume|apply cursor_consume|].
  intros a q _.
  destruct (is_exec_action tok).
  - eapply returns_bind;
      [apply returns_consume_command|apply cursor_consume_command|].
    intros args q' _. destruct e; [|apply returns_ret].
    destruct (assoc tok (_exec_actions lib)) eqn:Ea; [|apply returns_ret].
    eapply returns_keeps, exec_actions_same_pos; eauto.
  - eapply returns_bind;
      [apply returns_consume_args|apply cursor_consume_args|].
    intros args q' _. destruct e; [|apply returns_ret].
    destruct (assoc tok (_plain_actions lib)) eqn:Ea; [|apply returns_ret].
    eapply returns_keeps, plain_actions_same_pos; eauto.
Qed.

(** The fuel [_evaluate_expression] gives the parser is enough: the
    evaluation of an expression always returns or raises. *)
Lemma _evaluate_expression_returns s :
  _evaluate_expression lib opts toks path s <> OutOfFuel.
Proof.
  unfold _evaluate_expression, _parse_or_expr, enough_fuel, bind, modify.
  assert (H : returns 0
                (or_expr toks (_parse_primary lib opts toks (S (length toks)))
                   (S (length toks)) path)).
  { apply or_expr_returns with (n := S (length toks)).
    - apply parse_primary_progress.
    - intros p e Hp. now apply parse_primary_returns.
    - lia.
    - lia. }
  exact (H (set_pos 0 s) eq_refl).
Qed.

End EvaluatorReturns.

(* ===================================================================== *)
(** ** The evaluator parses the grammar *)
(* ===================================================================== *)

Lemma drop_head {A} p (toks : list A) x r :
  drop p toks = x :: r -> toks !! p = Some x /\ drop (S p) toks = r.
Proof.
  intros H. split.
  - pose proof (lookup_drop toks p 0) as E. rewrite Nat.add_0_r in E.
    rewrite <- E, H. reflexivity.
  - pose proof (drop_drop toks 1 p) as E.
    replace (p + 1)%nat with (S p) in E by lia. rewrite <- E, H.
    reflexivity.
Qed.

Lemma drop_nil_lookup {A} p (toks : list A) :
  drop p toks = [] -> toks !! p = None.
Proof.
  intros H. pose proof (lookup_drop toks p 0) as E.
  rewrite Nat.add_0_r in E. rewrite <- E, H. reflexivity.
Qed.

Lemma drop_app_length {A} p (toks a b : list A) :
  drop p toks = a ++ b -> drop (p + length a) toks = b.
Proof.
  intros H. rewrite <- drop_drop, H. apply drop_app_length.
Qed.

Lemma drop_length_le {A} p (toks a : list A) :
  drop p toks = a -> (p + length a <= length toks \/ a = [])%nat.
Proof.
  intros H. destruct (decide (p <= length toks)%nat).
  - left. rewrite <- H, length_drop. lia.
  - right. rewrite <- H. apply drop_ge. lia.
Qed.

(** Where [_parse_and_expr] stops: at the end of the stream or at one of
    [-o], [-or], [)] and [,]. *)
Definition and_stops (rest : list string) : Prop :=
  match rest with
  | [] => True
  | t :: _ => token_in (Some t) ["-o"; "-or"; ")"; ","] = true
  end.

(** The same without [-o] and [-or], where [_parse_or_expr] stops too. *)
Definition or_stops (rest : list string) : Prop :=
  match rest with
  | [] => True
  | t :: _ => token_in (Some t) [")"; ","] = true
  end.

Section GrammarFacts.

Variable lib : Lib.
Variable opts : options.

Lemma test_names_spec t :
  In t test_names ->
  String.eqb t "(" = false
  /\ token_in (Some t) ["!"; "-not"] = false
  /\ token_in (Some t) ["-o"; "-or"; ")"; ","] = false
  /\ token_in (Some t) ["-a"; "-and"] = false
  /\ exists f, assoc t (_tests lib opts) = Some f.
Proof.
  unfold test_names. intros H.
  repeat (destruct H as [<-|H];
          [repeat split; try reflexivity; eexists; reflexivity|]).
  destruct H.
Qed.

Lemma action_names_spec t :
  In t action_names ->
  String.eqb t "(" = false
  /\ token_in (Some t) ["!"; "-not"] = false
  /\ token_in (Some t) ["-o"; "-or"; ")"; ","] = false
  /\ token_in (Some t) ["-a"; "-and"] = false
  /\ assoc t (_tests lib opts) = None
  /\ existsb (String.eqb t) action_names = true
  /\ _get_num_args t = 0%nat.
Proof.
  unfold action_names. intros H.
  repeat (destruct H as [<-|H]; [repeat split; reflexivity|]).
  destruct H.
Qed.

Lemma is_exec_action_In t :
  is_exec_action t = true -> In t action_names.
Proof.
  unfold is_exec_action. simpl.
  repeat (destruct (String.eqb t _) eqn:E;
          [apply String.eqb_eq in E; subst t; simpl; tauto|clear E]).
  discriminate.
Qed.

(** What an operand of AND starts with. *)
Definition operand_start (t : string) : Prop :=
  token_in (Some t) ["-o"; "-or"; ")"; ","] = false
  /\ token_in (Some t) ["-a"; "-and"] = false.

Lemma Primary_head ts :
  Primary ts -> exists t r, ts = t :: r /\ operand_start t
                            /\ token_in (Some t) ["!"; "-not"] = false.
Proof.
  intros [ts' _|t args Ht _|t Ht _|t args Ht _].
  - eexists _, _. split; [reflexivity|]. now repeat split.
  - eexists _, _. split; [reflexivity|].
    destruct (test_names_spec t Ht) as (_ & ? & ? & ? & _). now repeat split.
  - eexists _, _. split; [reflexivity|].
    destruct (action_names_spec t Ht) as (_ & ? & ? & ? & _).
    now repeat split.
  - eexists _, _. split; [reflexivity|].
    destruct (action_names_spec t (is_exec_action_In t Ht))
      as (_ & ? & ? & ? & _).
    now repeat split.
Qed.

Lemma NotExpr_head ts :
  NotExpr ts -> exists t r, ts = t :: r /\ operand_start t.
Proof.
  intros [ts' H|n ts' Hn _].
  - destruct (Primary_head _ H) as (t & r & -> & Ho & _). eauto.
  - exists n, ts'. split; [reflexivity|].
    destruct Hn as [<-|[<-|[]]]; now split.
Qed.

Lemma OrTail_and_stops tl rest :
  OrTail tl -> or_stops rest -> and_stops (tl ++ rest).
Proof.
  intros [|o ts r Ho _ _] Hr; simpl.
  - destruct rest as [|t rest]; [exact I|]. simpl in *.
    destruct (String.eqb t ")"), (String.eqb t ","); simpl in *;
      try discriminate; now rewrite ?orb_true_r.
  - destruct Ho as [<-|[<-|[]]]; reflexivity.
Qed.

Lemma AndTail_and_stops_or rest : or_stops rest -> and_stops rest.
Proof. intros H. apply (OrTail_and_stops [] rest OT_nil H). Qed.

End GrammarFacts.

Section Parsing.

Variable lib : Lib.
Variable opts : options.
Variable toks : list string.
Variable path : string.

(** The cursor ends right after the tokens [ts] it started at. *)
Definition lands (p : nat) (ts : list string) {A} : A -> nat -> Prop :=
  fun _ q => q = (p + length ts)%nat.

(** [_parse_or_expr] may also stop early: it returns true after the
    operand that follows the first true one, and another [-o] is next. *)
Definition lands_or_stops_early (p : nat) (ts : list string)
  : bool -> nat -> Prop :=
  fun v q => q = (p + length ts)%nat
             \/ (v = true /\ token_in (toks !! q) ["-o"; "-or"] = true).

Definition parses_primary (ts : list string) : Prop :=
  forall n e p rest, drop p toks = ts ++ rest ->
    cursor_spec p (_parse_primary lib opts toks n path e) (lands p ts).

Definition parses_not (ts : list string) : Prop :=
  forall n e p rest, drop p toks = ts ++ rest ->
    cursor_spec p (not_expr toks (_parse_primary lib opts toks n) path e)
      (lands p ts).

Definition parses_and_tail (ts : list string) : Prop :=
  forall n k e left p rest, drop p toks = ts ++ rest -> and_stops rest ->
    cursor_spec p
      (and_loop toks (_parse_primary lib opts toks n) k path e left)
      (lands p ts).

Definition parses_and (ts : list string) : Prop :=
  forall n k e p rest, drop p toks = ts ++ rest -> and_stops rest ->
    cursor_spec p (and_expr toks (_parse_primary lib opts toks n) k path e)
      (lands p ts).

Definition parses_or_tail (ts : list string) : Prop :=
  forall n k left p rest, drop p toks = ts ++ rest -> or_stops rest ->
    cursor_spec p (or_loop toks (_parse_primary lib opts toks n) k path left)
      (lands_or_stops_early p ts).

Definition parses_or (ts : list string) : Prop :=
  forall n k p rest, drop p toks = ts ++ rest -> or_stops rest ->
    cursor_spec p (or_expr toks (_parse_primary lib opts toks n) k path)
      (lands_or_stops_early p ts).

Lemma cursor_consume_known p t expected :
  toks !! p = Some t ->
  cursor_spec p (_consume toks expected)
    (fun a q => q = S p /\ match expected with
                           | Some e => e <> "" -> t = e
                           | None => True
                           end).
Proof.
  intros Ht. eapply cursor_weaken; [apply cursor_consume|].
  intros a q (-> & -> & H). rewrite (step_Some _ _ _ Ht). split; [easy|].
  destruct expected; [|exact I]. intros He. specialize (H He). congruence.
Qed.

Lemma parse_paren ts : parses_or ts -> parses_primary ("(" :: ts ++ [")"]).
Proof.
  intros IH n e p rest Hd. destruct n as [|n]; [apply cursor_out_of_fuel|].
  cbn [_parse_primary]. apply cursor_peek.
  simpl in Hd. apply drop_head in Hd as [Ht Hd]. rewrite Ht.
  rewrite <- app_assoc in Hd. simpl in Hd.
  replace (String.eqb "(" "(") with true by reflexivity.
  eapply cursor_bind; [apply (cursor_consume_known _ _ _ Ht)|].
  intros a q [-> _].
  eapply cursor_bind; [apply (IH n n _ _ Hd); reflexivity|].
  intros res q [-> |[_ Hq]].
  - apply drop_app_length, drop_head in Hd as [Hc _].
    eapply cursor_bind; [apply (cursor_consume_known _ _ _ Hc)|].
    intros a' q' [-> _]. apply cursor_ret. unfold lands. simpl.
    rewrite length_app. simpl. lia.
  - eapply cursor_bind; [apply cursor_consume|].
    intros a' q' (-> & _ & H). exfalso.
    rewrite H in Hq by discriminate. discriminate.
Qed.

Lemma parse_test t args :
  In t test_names -> length args = _get_num_args t ->
  parses_primary (t :: args).
Proof.
  intros Ht Hl n e p rest Hd. destruct n as [|n]; [apply cursor_out_of_fuel|].
  cbn [_parse_primary]. apply cursor_peek.
  destruct (test_names_spec lib opts t Ht) as (Hp & _ & _ & _ & f & Hf).
  simpl in Hd. pose proof (drop_length_le _ _ _ Hd) as Hlen.
  apply drop_head in Hd as [Hh Hd]. rewrite Hh, Hp, Hf.
  eapply cursor_bind; [apply (cursor_consume_known _ _ _ Hh)|].
  intros a q [-> _].
  eapply cursor_bind; [apply cursor_consume_args|].
  intros args' q [_ Hq].
  assert (q = S p + length args)%nat as ->.
  { rewrite <- Hl in Hq. apply Hq. destruct Hlen as [Hlen|]; [|discriminate].
    simpl in Hlen. rewrite length_app in Hlen. lia. }
  assert (Hend : lands p (t :: args) true (S p + length args)).
  { unfold lands. simpl. lia. }
  destruct e; [|apply cursor_ret, Hend].
  eapply cursor_weaken; [apply cursor_keeps; eapply tests_same_pos; eauto|].
  intros a' q' ->. exact Hend.
Qed.

Lemma parse_action t :
  In t action_names -> is_exec_action t = false -> parses_primary [t].
Proof.
  intros Ht Hx n e p rest Hd. destruct n as [|n]; [apply cursor_out_of_fuel|].
  cbn [_parse_primary]. apply cursor_peek.
  destruct (action_names_spec lib opts t Ht)
    as (Hp & _ & _ & _ & Hf & Ha & Hn).
  simpl in Hd. apply drop_head in Hd as [Hh Hd]. rewrite Hh, Hp, Hf, Ha, Hx, Hn.
  eapply cursor_bind; [apply (cursor_consume_known _ _ _ Hh)|].
  intros a q [-> _]. cbn [consume_args].
  eapply cursor_bind;
    [apply (cursor_ret _ _ (fun _ q => q = S p)); reflexivity|].
  intros args q ->.
  assert (Hend : lands p [t] true (S p)).
  { unfold lands. simpl. lia. }
  destruct e; [|apply cursor_ret, Hend].
  destruct (assoc t (_plain_actions lib)) eqn:Ea; [|apply cursor_ret, Hend].
  eapply cursor_weaken;
    [apply cursor_keeps; eapply plain_actions_same_pos; eauto|].
  intros a' q' ->. exact Hend.
Qed.

Lemma parse_command t args :
  is_exec_action t = true -> Forall (fun a => a <> ";") args ->
  parses_primary (t :: args ++ [";"]).
Proof.
  intros Hx Hargs n e p rest Hd.
  destruct n as [|n]; [apply cursor_out_of_fuel|].
  cbn [_parse_primary]. apply cursor_peek.
  destruct (action_names_spec lib opts t (is_exec_action_In t Hx))
    as (Hp & _ & _ & _ & Hf & Ha & Hn).
  simpl in Hd. apply drop_head in Hd as [Hh Hd]. rewrite Hh, Hp, Hf, Ha, Hx.
  rewrite <- app_assoc in Hd. simpl in Hd.
  eapply cursor_bind; [apply (cursor_consume_known _ _ _ Hh)|].
  intros a q [-> _].
  eapply cursor_bind; [apply cursor_consume_command|].
  intros args' q [Hu ->].
  rewrite Hd, until_semicolon_app in Hu by assumption.
  injection Hu as <-.
  assert (Hend : lands p (t :: args ++ [";"]) true (S (S p + length args))).
  { unfold lands. simpl. rewrite length_app. simpl. lia. }
  destruct e; [|apply cursor_ret, Hend].
  destruct (assoc t (_exec_actions lib)) eqn:Ea; [|apply cursor_ret, Hend].
  eapply cursor_weaken;
    [apply cursor_keeps; eapply exec_actions_same_pos; eauto|].
  intros a' q' ->. exact Hend.
Qed.

Lemma parse_not_primary ts :
  Primary ts -> parses_primary ts -> parses_not ts.
Proof.
  intros Hg IH n e p rest Hd. unfold not_expr. apply cursor_peek.
  destruct (Primary_head lib opts ts Hg) as (t & r & -> & _ & Hn).
  pose proof Hd as Hd'. simpl in Hd'. apply drop_head in Hd' as [Hh _].
  rewrite Hh, Hn. eapply IH; eauto.
Qed.

Lemma parse_not_not t ts :
  In t ["!"; "-not"] -> parses_primary ts -> parses_not (t :: ts).
Proof.
  intros Ht IH n e p rest Hd. unfold not_expr. apply cursor_peek.
  simpl in Hd. apply drop_head in Hd as [Hh Hd]. rewrite Hh.
  replace (token_in (Some t) ["!"; "-not"]) with true
    by (destruct Ht as [<-|[<-|[]]]; reflexivity).
  eapply cursor_bind; [apply (cursor_consume_known _ _ _ Hh)|].
  intros a q [-> _].
  assert (Hend : forall (v : bool) q,
             lands (S p) ts v q -> lands p (t :: ts) v q).
  { unfold lands. simpl. intros; lia. }
  destruct (negb e).
  - eapply cursor_bind; [eapply IH; eauto|].
    intros v q Hq. apply cursor_ret. now apply (Hend v).
  - eapply cursor_bind; [eapply IH; eauto|].
    intros v q Hq. apply cursor_ret. now apply (Hend v).
Qed.

Lemma parse_and_tail_nil : parses_and_tail [].
Proof.
  intros n k e left p rest Hd Hs. destruct k as [|k]; [apply cursor_out_of_fuel|].
  simpl. apply cursor_peek. simpl in Hd.
  assert (Hend : lands p [] left p) by (unfold lands; simpl; lia).
  destruct rest as [|t rest].
  - rewrite (drop_nil_lookup _ _ Hd). apply cursor_ret, Hend.
  - apply drop_head in Hd as [Hh _]. rewrite Hh.
    change (token_in (Some t) ["-o"; "-or"; ")"; ","] = true) in Hs.
    rewrite Hs. apply cursor_ret, Hend.
Qed.

(** One more turn of the loop of [_parse_and_expr], after an optional
    [-a]. *)
Lemma parse_and_tail_step (skip : list string) ts rest :
  (skip = [] \/ exists a, skip = [a] /\ In a ["-a"; "-and"]) ->
  NotExpr ts -> parses_not ts -> parses_and_tail rest ->
  parses_and_tail (skip ++ ts ++ rest).
Proof.
  intros Hskip Hg IHn IHt n k e left p rest' Hd Hs.
  destruct k as [|k]; [apply cursor_out_of_fuel|].
  simpl. apply cursor_peek.
  destruct (NotExpr_head lib opts ts Hg) as (t & r & Hts & Hf & Ha).
  rewrite <- !app_assoc in Hd.
  assert (Hend : forall (v : bool) q,
             lands (p + length skip + length ts) rest v q ->
             lands p (skip ++ ts ++ rest) v q).
  { unfold lands. intros v q ->. rewrite !length_app. lia. }
  destruct Hskip as [->|(a & -> & Hin)].
  - simpl in Hd. pose proof Hd as Hd'. rewrite Hts in Hd'. simpl in Hd'.
    apply drop_head in Hd' as [Hh _]. rewrite Hh, Hf, Ha.
    eapply cursor_bind;
      [apply (cursor_ret _ _ (fun _ q => q = p)); reflexivity|].
    intros u q ->.
    pose proof (drop_app_length _ _ _ _ Hd) as Hd2.
    destruct (negb e || negb left).
    + eapply cursor_bind; [eapply IHn; eauto|]. intros v q ->.
      eapply cursor_weaken; [eapply IHt; eauto|].
      intros v' q' Hq. apply (Hend v'). simpl.
      now rewrite Nat.add_0_r.
    + eapply cursor_bind; [eapply IHn; eauto|]. intros v q ->.
      eapply cursor_weaken; [eapply IHt; eauto|].
      intros v' q' Hq. apply (Hend v'). simpl.
      now rewrite Nat.add_0_r.
  - simpl in Hd. apply drop_head in Hd as [Hh Hd]. rewrite Hh.
    replace (token_in (Some a) ["-o"; "-or"; ")"; ","]) with false
      by (destruct Hin as [<-|[<-|[]]]; reflexivity).
    replace (token_in (Some a) ["-a"; "-and"]) with true
      by (destruct Hin as [<-|[<-|[]]]; reflexivity).
    eapply cursor_bind.
    { eapply cursor_bind; [apply (cursor_consume_known _ _ _ Hh)|].
      intros a' q [-> _].
      apply (cursor_ret _ _ (fun _ q => q = S p)); reflexivity. }
    intros u q ->.
    pose proof (drop_app_length _ _ _ _ Hd) as Hd2.
    destruct (negb e || negb left).
    + eapply cursor_bind; [eapply IHn; eauto|]. intros v q ->.
      eapply cursor_weaken; [eapply IHt; eauto|].
      intros v' q' Hq. apply (Hend v'). simpl.
      now replace (p + 1 + length ts)%nat with (S p + length ts)%nat by lia.
    + eapply cursor_bind; [eapply IHn; eauto|]. intros v q ->.
      eapply cursor_weaken; [eapply IHt; eauto|].
      intros v' q' Hq. apply (Hend v'). simpl.
      now replace (p + 1 + length ts)%nat with (S p + length ts)%nat by lia.
Qed.

Lemma parse_and ts rest :
  parses_not ts -> parses_and_tail rest -> parses_and (ts ++ rest).
Proof.
  intros IHn IHt n k e p rest' Hd Hs. unfold and_expr.
  rewrite <- app_assoc in Hd.
  pose proof (drop_app_length _ _ _ _ Hd) as Hd2.
  eapply cursor_bind; [eapply IHn; eauto|]. intros v q ->.
  eapply cursor_weaken; [eapply IHt; eauto|].
  unfold lands. intros v' q' ->. rewrite length_app. lia.
Qed.

Lemma parse_or_tail_nil : parses_or_tail [].
Proof.
  intros n k left p rest Hd Hs. destruct k as [|k]; [apply cursor_out_of_fuel|].
  simpl. apply cursor_peek. simpl in Hd.
  assert (Hend : lands_or_stops_early p [] left p).
  { left. simpl. lia. }
  destruct rest as [|t rest].
  - rewrite (drop_nil_lookup _ _ Hd). apply cursor_ret, Hend.
  - apply drop_head in Hd as [Hh _]. rewrite Hh. simpl in Hs.
    replace (token_in (Some t) ["-o"; "-or"]) with false;
      [apply cursor_ret, Hend|].
    simpl in *. destruct (String.eqb t ")") eqn:E1.
    + apply String.eqb_eq in E1. now subst t.
    + destruct (String.eqb t ",") eqn:E2; [|discriminate].
      apply String.eqb_eq in E2. now subst t.
Qed.

Lemma parse_or_tail_cons o ts rest :
  In o ["-o"; "-or"] -> parses_and ts -> OrTail rest -> parses_or_tail rest ->
  parses_or_tail (o :: ts ++ rest).
Proof.
  intros Ho IHa Hg IHt n k left p rest' Hd Hs.
  destruct k as [|k]; [apply cursor_out_of_fuel|].
  simpl. apply cursor_peek.
  simpl in Hd. apply drop_head in Hd as [Hh Hd]. rewrite Hh.
  replace (token_in (Some o) ["-o"; "-or"]) with true
    by (destruct Ho as [<-|[<-|[]]]; reflexivity).
  rewrite <- app_assoc in Hd.
  pose proof (drop_app_length _ _ _ _ Hd) as Hd2.
  pose proof (OrTail_and_stops _ _ Hg Hs) as Hst.
  eapply cursor_bind; [apply (cursor_consume_known _ _ _ Hh)|].
  intros a q [-> _].
  destruct left.
  - eapply cursor_bind; [eapply IHa; eauto|]. intros v q ->.
    apply cursor_ret.
    destruct Hg as [|o' ts' r' Ho' _ _].
    + left. simpl. rewrite app_nil_r. lia.
    + right. split; [reflexivity|].
      rewrite <- app_comm_cons in Hd2. apply drop_head in Hd2 as [Hq _].
      unfold lands_or_stops_early. rewrite Hq.
      destruct Ho' as [<-|[<-|[]]]; reflexivity.
  - eapply cursor_bind; [eapply IHa; eauto|]. intros v q ->.
    eapply cursor_weaken; [eapply IHt; eauto|].
    intros v' q' [-> |H]; [left|now right].
    simpl. rewrite length_app. lia.
Qed.

Lemma parse_or ts rest :
  parses_and ts -> OrTail rest -> parses_or_tail rest ->
  parses_or (ts ++ rest).
Proof.
  intros IHa Hg IHt n k p rest' Hd Hs. unfold or_expr.
  rewrite <- app_assoc in Hd.
  pose proof (drop_app_length _ _ _ _ Hd) as Hd2.
  pose proof (OrTail_and_stops _ _ Hg Hs) as Hst.
  eapply cursor_bind; [eapply IHa; eauto|]. intros v q ->.
  eapply cursor_weaken; [eapply IHt; eauto|].
  intros v' q' [-> |H]; [left|now right].
  rewrite length_app. lia.
Qed.

(** The evaluator follows the grammar: on the tokens of a primary, of an
    operand of AND, of an AndExpr and of an OrExpr, each function takes
    exactly these tokens, in active mode as in suppressed mode, whenever
    it returns; [_parse_or_expr] may instead stop early with true. *)
Lemma evaluator_parses_grammar :
  (forall ts, Primary ts -> Primary ts /\ parses_primary ts)
  /\ (forall ts, NotExpr ts -> NotExpr ts /\ parses_not ts)
  /\ (forall ts, AndTail ts -> parses_and_tail ts)
  /\ (forall ts, AndExpr ts -> parses_and ts)
  /\ (forall ts, OrTail ts -> OrTail ts /\ parses_or_tail ts)
  /\ (forall ts, OrExpr ts -> parses_or ts).
Proof.
  apply grammar_ind.
  - intros ts Hg IH. split; [now constructor|now apply parse_paren].
  - intros t args Ht Hl. split; [now constructor|now apply parse_test].
  - intros t Ht Hx. split; [now constructor|now apply parse_action].
  - intros t args Hx Ha. split; [now constructor|now apply parse_command].
  - intros ts Hg [_ IH]. split; [now constructor|now apply parse_not_primary].
  - intros t ts Ht Hg [_ IH]. split; [now constructor|now apply parse_not_not].
  - apply parse_and_tail_nil.
  - intros ts rest _ [Hg IHn] _ IHt.
    apply (parse_and_tail_step [] ts rest); auto.
  - intros a ts rest Ha _ [Hg IHn] _ IHt.
    apply (parse_and_tail_step [a] ts rest); eauto.
  - intros ts rest _ [_ IHn] _ IHt. now apply parse_and.
  - split; [constructor|apply parse_or_tail_nil].
  - intros o ts rest Ho Hg IHa _ [Hg' IHt].
    split; [now constructor|now apply parse_or_tail_cons].
  - intros ts rest _ IHa _ [Hg IHt]. now apply parse_or.
Qed.

End Parsing.

(* ===================================================================== *)
(** ** The short-circuit identities *)
(* ===================================================================== *)

Lemma evaluate_spec lib opts toks path (Q : bool -> Prop) s :
  cursor_spec 0 (_parse_or_expr lib opts toks (enough_fuel toks) path)
    (fun v _ => Q v) ->
  match _evaluate_expression lib opts toks path s with
  | Ok v _ => Q v
  | Raise _ _ => True
  | OutOfFuel => False
  end.
Proof.
  intros H. pose proof (_evaluate_expression_returns lib opts toks path s) as Hr.
  unfold _evaluate_expression, bind, modify in *.
  specialize (H (set_pos 0 s) eq_refl).
  destruct (_parse_or_expr _ _ _ _ _ _); auto.
Qed.

(** Nothing but the cursor has changed. *)
Definition only_cursor (s s' : state) : Prop := s' = set_pos (pos s') s.

Lemma only_cursor_refl s : only_cursor s s.
Proof. unfold only_cursor. now destruct s. Qed.

Lemma only_cursor_trans s1 s2 s3 :
  only_cursor s1 s2 -> only_cursor s2 s3 -> only_cursor s1 s3.
Proof. unfold only_cursor. intros H1 H2. rewrite H2 at 1. now rewrite H1. Qed.

Lemma only_cursor_set_pos s n : only_cursor s (set_pos n s).
Proof. reflexivity. Qed.

(* ===================================================================== *)
(** ** Two token streams, one a continuation of the other *)
(* ===================================================================== *)

Lemma bind_congr {A B} (m1 m2 : M A) (k1 k2 : A -> M B) s :
  m2 s = m1 s ->
  (forall a s', m1 s = Ok a s' -> k2 a s' = k1 a s') ->
  bind m2 k2 s = bind m1 k1 s.
Proof.
  intros Hm Hk. unfold bind. rewrite Hm.
  destruct (m1 s) as [a s'| |]; auto.
Qed.

(** [same_run p m1 m2 Q]: started in the same state with the cursor at
    [p], [m1] and [m2] end alike, unless one of them runs out of fuel:
    both return the same value, or both raise the same exception, in the
    same state; [Q] holds of the value and of the cursor when they
    return. *)
Definition same_run {A} (p : nat) (m1 m2 : M A) (Q : A -> nat -> Prop)
  : Prop :=
  forall s, pos s = p ->
    match m1 s, m2 s with
    | OutOfFuel, _ | _, OutOfFuel => True
    | Ok a1 s1, Ok a2 s2 => a1 = a2 /\ s1 = s2 /\ Q a1 (pos s1)
    | Raise e1 s1, Raise e2 s2 => e1 = e2 /\ s1 = s2
    | _, _ => False
    end.

(** [ends_with b p m1 m2 Q1 Q2]: started in the same state with the
    cursor at [p], whenever [m1] returns, [m2] returns [b] (or runs out
    of fuel), in a state that differs from the one of [m1] by the cursor
    at most; [Q1] and [Q2] hold of the two cursors. *)
Definition ends_with {A} (b : A) (p : nat) (m1 m2 : M A)
    (Q1 Q2 : nat -> Prop) : Prop :=
  forall s, pos s = p ->
    match m1 s with
    | Ok _ s1 =>
        match m2 s with
        | Ok v2 s2 => v2 = b /\ only_cursor s1 s2 /\ Q1 (pos s1) /\ Q2 (pos s2)
        | Raise _ _ => False
        | OutOfFuel => True
        end
    | _ => True
    end.

Lemma same_ret {A} p (a : A) (Q : A -> nat -> Prop) :
  Q a p -> same_run p (ret a) (ret a) Q.
Proof. intros H s <-. cbn. auto. Qed.

Lemma same_fuel_l {A} p (m : M A) Q : same_run p out_of_fuel m Q.
Proof. intros s _. exact I. Qed.

Lemma same_fuel_r {A} p (m : M A) Q : same_run p m out_of_fuel Q.
Proof. intros s _. unfold out_of_fuel. now destruct (m s). Qed.

Lemma same_refl {A} p (m : M A) Q : cursor_spec p m Q -> same_run p m m Q.
Proof. intros H s Hs. specialize (H s Hs). destruct (m s); auto. Qed.

Lemma same_eq {A} p (m1 m2 : M A) Q :
  (forall s, pos s = p -> m2 s = m1 s) -> cursor_spec p m1 Q ->
  same_run p m1 m2 Q.
Proof.
  intros E H s Hs. rewrite (E s Hs). exact (same_refl p m1 Q H s Hs).
Qed.

Lemma same_bind {A B} p (m1 m2 : M A) (k1 k2 : A -> M B) Q R :
  same_run p m1 m2 Q ->
  (forall a q, Q a q -> same_run q (k1 a) (k2 a) R) ->
  same_run p (bind m1 k1) (bind m2 k2) R.
Proof.
  intros Hm Hk s Hs. specialize (Hm s Hs). unfold bind.
  destruct (m1 s) as [a1 s1|e1 s1|], (m2 s) as [a2 s2|e2 s2|];
    try contradiction; try exact I.
  - destruct Hm as (<- & <- & HQ). exact (Hk a1 (pos s1) HQ s1 eq_refl).
  - now destruct (k1 a1 s1).
  - exact Hm.
Qed.

Lemma same_weaken {A} p (m1 m2 : M A) (Q Q' : A -> nat -> Prop) :
  same_run p m1 m2 Q -> (forall a q, Q a q -> Q' a q) -> same_run p m1 m2 Q'.
Proof.
  intros H HQ s Hs. specialize (H s Hs).
  destruct (m1 s), (m2 s); auto. destruct H as (? & ? & ?). auto.
Qed.

Lemma ends_fuel_l {A} (b : A) p (m : M A) Q1 Q2 :
  ends_with b p out_of_fuel m Q1 Q2.
Proof. intros s _. exact I. Qed.

Lemma ends_fuel_r {A} (b : A) p (m : M A) Q1 Q2 :
  ends_with b p m out_of_fuel Q1 Q2.
Proof. intros s _. unfold out_of_fuel. now destruct (m s). Qed.

Lemma ends_bind {A B} (b : B) p (m1 m2 : M A) (k1 k2 : A -> M B) Q Q1 Q2 :
  same_run p m1 m2 Q ->
  (forall a q, Q a q -> ends_with b q (k1 a) (k2 a) Q1 Q2) ->
  ends_with b p (bind m1 k1) (bind m2 k2) Q1 Q2.
Proof.
  intros Hm Hk s Hs. specialize (Hm s Hs). unfold bind.
  destruct (m1 s) as [a1 s1|e1 s1|], (m2 s) as [a2 s2|e2 s2|];
    try contradiction; try exact I.
  - destruct Hm as (<- & <- & HQ). exact (Hk a1 (pos s1) HQ s1 eq_refl).
  - now destruct (k1 a1 s1).
Qed.

Lemma ends_weaken {A} (b : A) p (m1 m2 : M A) (Q1 Q2 Q1' Q2' : nat -> Prop) :
  ends_with b p m1 m2 Q1 Q2 ->
  (forall q, Q1 q -> Q1' q) -> (forall q, Q2 q -> Q2' q) ->
  ends_with b p m1 m2 Q1' Q2'.
Proof.
  intros H H1 H2 s Hs. specialize (H s Hs).
  destruct (m1 s); auto. destruct (m2 s); auto.
  destruct H as (? & ? & ? & ?). auto.
Qed.

Section Simulation.

Variable lib : Lib.
Variable opts : options.
Variable path : string.
Variables toks1 toks2 : list string.
(** Where the first stream has a token, the second has the same. *)
Hypothesis agree : forall i t, toks1 !! i = Some t -> toks2 !! i = Some t.

Let prim1 (n : nat) := _parse_primary lib opts toks1 n.
Let prim2 (n : nat) := _parse_primary lib opts toks2 n.

Lemma same_peek {B} p (k1 k2 : option string -> M B) Q :
  same_run p (k1 (toks1 !! p)) (k2 (toks2 !! p)) Q ->
  same_run p (bind (_peek toks1) k1) (bind (_peek toks2) k2) Q.
Proof. intros H s Hs. unfold bind, _peek, gets. rewrite Hs. apply H, Hs. Qed.

Lemma ends_peek {B} (b : B) p (k1 k2 : option string -> M B) Q1 Q2 :
  ends_with b p (k1 (toks1 !! p)) (k2 (toks2 !! p)) Q1 Q2 ->
  ends_with b p (bind (_peek toks1) k1) (bind (_peek toks2) k2) Q1 Q2.
Proof. intros H s Hs. unfold bind, _peek, gets. rewrite Hs. apply H, Hs. Qed.

Lemma consume_agree p t expected s :
  toks1 !! p = Some t -> toks2 !! p = Some t -> pos s = p ->
  _consume toks2 expected s = _consume toks1 expected s.
Proof.
  intros H1 H2 Hs. unfold _consume, _peek, bind, gets.
  rewrite Hs, H1, H2. reflexivity.
Qed.

Lemma same_consume p t expected :
  toks1 !! p = Some t -> toks2 !! p = Some t ->
  same_run p (_consume toks1 expected) (_consume toks2 expected)
    (fun _ q => q = S p
                /\ match expected with
                   | Some e => e <> "" -> t = e
                   | None => True
                   end).
Proof.
  intros H1 H2. apply same_eq.
  - intros s Hs. now apply (consume_agree p t).
  - now apply cursor_consume_known.
Qed.

Lemma consume_args_agree args : forall p r1 r2 s,
  drop p toks1 = args ++ r1 -> drop p toks2 = args ++ r2 -> pos s = p ->
  consume_args toks2 (length args) s = consume_args toks1 (length args) s.
Proof.
  induction args as [|a args IH]; intros p r1 r2 s Hd1 Hd2 Hs; [reflexivity|].
  simpl in Hd1, Hd2.
  apply drop_head in Hd1 as [Hh1 Hd1]. apply drop_head in Hd2 as [Hh2 Hd2].
  cbn [length consume_args]. apply bind_congr.
  - now apply (consume_agree p a).
  - intros a' s' E.
    pose proof (cursor_consume_known toks1 p a None Hh1 s Hs) as Hc.
    rewrite E in Hc. destruct Hc as [Hc _].
    apply bind_congr; [|reflexivity].
    now apply (IH (S p) r1 r2).
Qed.

Lemma consume_command_agree tok args p r1 r2 s :
  Forall (fun a => a <> ";") args ->
  drop p toks1 = args ++ ";" :: r1 -> drop p toks2 = args ++ ";" :: r2 ->
  pos s = p ->
  consume_command toks2 tok s = consume_command toks1 tok s.
Proof.
  intros Hargs Hd1 Hd2 Hs. subst p.
  unfold consume_command, bind, gets, modify.
  rewrite Hd1, Hd2, !until_semicolon_app by assumption.
  apply drop_app_length, drop_head in Hd1 as [Hh1 _].
  apply drop_app_length, drop_head in Hd2 as [Hh2 _].
  rewrite (consume_agree (pos s + length args) ";" (Some ";")
             (set_pos (pos s + length args) s) Hh1 Hh2 eq_refl).
  reflexivity.
Qed.

(** The two runs of the evaluator over the tokens [ts], which both
    streams hold at the cursor. *)
Definition sim_primary (ts : list string) : Prop :=
  forall n1 n2 e p rest1 rest2,
    drop p toks1 = ts ++ rest1 -> drop p toks2 = ts ++ rest2 ->
    same_run p (prim1 n1 path e) (prim2 n2 path e) (lands p ts).

Definition sim_not (ts : list string) : Prop :=
  forall n1 n2 e p rest1 rest2,
    drop p toks1 = ts ++ rest1 -> drop p toks2 = ts ++ rest2 ->
    same_run p (not_expr toks1 (prim1 n1) path e)
      (not_expr toks2 (prim2 n2) path e) (lands p ts).

Definition sim_and_tail (ts : list string) : Prop :=
  forall n1 n2 k1 k2 e left p rest1 rest2,
    drop p toks1 = ts ++ rest1 -> drop p toks2 = ts ++ rest2 ->
    and_stops rest1 -> and_stops rest2 ->
    same_run p (and_loop toks1 (prim1 n1) k1 path e left)
      (and_loop toks2 (prim2 n2) k2 path e left) (lands p ts).

Definition sim_and (ts : list string) : Prop :=
  forall n1 n2 k1 k2 e p rest1 rest2,
    drop p toks1 = ts ++ rest1 -> drop p toks2 = ts ++ rest2 ->
    and_stops rest1 -> and_stops rest2 ->
    same_run p (and_expr toks1 (prim1 n1) k1 path e)
      (and_expr toks2 (prim2 n2) k2 path e) (lands p ts).

Definition sim_or_tail (ts : list string) : Prop :=
  forall n1 n2 k1 k2 left p rest1 rest2,
    drop p toks1 = ts ++ rest1 -> drop p toks2 = ts ++ rest2 ->
    or_stops rest1 -> or_stops rest2 ->
    same_run p (or_loop toks1 (prim1 n1) k1 path left)
      (or_loop toks2 (prim2 n2) k2 path left)
      (lands_or_stops_early toks1 p ts).

Definition sim_or (ts : list string) : Prop :=
  forall n1 n2 k1 k2 p rest1 rest2,
    drop p toks1 = ts ++ rest1 -> drop p toks2 = ts ++ rest2 ->
    or_stops rest1 -> or_stops rest2 ->
    same_run p (or_expr toks1 (prim1 n1) k1 path)
      (or_expr toks2 (prim2 n2) k2 path)
      (lands_or_stops_early toks1 p ts).

Lemma sim_paren ts : sim_or ts -> sim_primary ("(" :: ts ++ [")"]).
Proof.
  intros IH n1 n2 e p rest1 rest2 Hd1 Hd2.
  destruct n1 as [|n1]; [apply same_fuel_l|].
  destruct n2 as [|n2]; [apply same_fuel_r|].
  unfold prim1, prim2. cbn [_parse_primary]. apply same_peek.
  simpl in Hd1, Hd2.
  apply drop_head in Hd1 as [Hh1 Hd1]. apply drop_head in Hd2 as [Hh2 Hd2].
  rewrite Hh1, Hh2. rewrite <- app_assoc in Hd1, Hd2. simpl in Hd1, Hd2.
  replace (String.eqb "(" "(") with true by reflexivity.
  eapply same_bind; [apply (same_consume _ _ _ Hh1 Hh2)|].
  intros a q [-> _].
  eapply same_bind;
    [apply (IH n1 n2 n1 n2 _ _ _ Hd1 Hd2); reflexivity|].
  intros res q [-> |[_ Hq]].
  - apply drop_app_length, drop_head in Hd1 as [Hc1 _].
    apply drop_app_length, drop_head in Hd2 as [Hc2 _].
    eapply same_bind; [apply (same_consume _ _ _ Hc1 Hc2)|].
    intros a' q' [-> _]. apply same_ret. unfold lands. simpl.
    rewrite length_app. simpl. lia.
  - destruct (toks1 !! q) as [t'|] eqn:E; [|discriminate].
    eapply same_bind; [apply (same_consume q t' (Some ")") E (agree _ _ E))|].
    intros a' q' [_ Ht]. exfalso.
    rewrite Ht in Hq by discriminate. discriminate.
Qed.

Lemma sim_test t args :
  In t test_names -> length args = _get_num_args t ->
  sim_primary (t :: args).
Proof.
  intros Ht Hl n1 n2 e p rest1 rest2 Hd1 Hd2.
  destruct n1 as [|n1]; [apply same_fuel_l|].
  destruct n2 as [|n2]; [apply same_fuel_r|].
  unfold prim1, prim2. cbn [_parse_primary]. apply same_peek.
  destruct (test_names_spec lib opts t Ht) as (Hp & _ & _ & _ & f & Hf).
  simpl in Hd1, Hd2. pose proof (drop_length_le _ _ _ Hd1) as Hlen.
  apply drop_head in Hd1 as [Hh1 Hd1]. apply drop_head in Hd2 as [Hh2 Hd2].
  rewrite Hh1, Hh2, Hp, Hf.
  eapply same_bind; [apply (same_consume _ _ _ Hh1 Hh2)|].
  intros a q [-> _].
  eapply same_bind.
  { apply same_eq; [|apply cursor_consume_args].
    intros s Hs. rewrite <- Hl. now apply (consume_args_agree args (S p) rest1 rest2). }
  intros args' q [_ Hq].
  assert (q = S p + length args)%nat as ->.
  { rewrite <- Hl in Hq. apply Hq. destruct Hlen as [Hlen|]; [|discriminate].
    simpl in Hlen. rewrite length_app in Hlen. lia. }
  assert (Hend : lands p (t :: args) true (S p + length args)).
  { unfold lands. simpl. lia. }
  destruct e; [|apply same_ret, Hend].
  eapply same_weaken;
    [apply same_refl, cursor_keeps; eapply tests_same_pos; eauto|].
  intros a' q' ->. exact Hend.
Qed.

Lemma sim_action t :
  In t action_names -> is_exec_action t = false -> sim_primary [t].
Proof.
  intros Ht Hx n1 n2 e p rest1 rest2 Hd1 Hd2.
  destruct n1 as [|n1]; [apply same_fuel_l|].
  destruct n2 as [|n2]; [apply same_fuel_r|].
  unfold prim1, prim2. cbn [_parse_primary]. apply same_peek.
  destruct (action_names_spec lib opts t Ht)
    as (Hp & _ & _ & _ & Hf & Ha & Hn).
  simpl in Hd1, Hd2.
  apply drop_head in Hd1 as [Hh1 Hd1]. apply drop_head in Hd2 as [Hh2 Hd2].
  rewrite Hh1, Hh2, Hp, Hf, Ha, Hx, Hn.
  eapply same_bind; [apply (same_consume _ _ _ Hh1 Hh2)|].
  intros a q [-> _]. cbn [consume_args].
  eapply same_bind;
    [apply (same_ret _ _ (fun _ q => q = S p)); reflexivity|].
  intros args q ->.
  assert (Hend : lands p [t] true (S p)).
  { unfold lands. simpl. lia. }
  destruct e; [|apply same_ret, Hend].
  destruct (assoc t (_plain_actions lib)) eqn:Ea; [|apply same_ret, Hend].
  eapply same_weaken;
    [apply same_refl, cursor_keeps; eapply plain_actions_same_pos; eauto|].
  intros a' q' ->. exact Hend.
Qed.

Lemma sim_command t args :
  is_exec_action t = true -> Forall (fun a => a <> ";") args ->
  sim_primary (t :: args ++ [";"]).
Proof.
  intros Hx Hargs n1 n2 e p rest1 rest2 Hd1 Hd2.
  destruct n1 as [|n1]; [apply same_fuel_l|].
  destruct n2 as [|n2]; [apply same_fuel_r|].
  unfold prim1, prim2. cbn [_parse_primary]. apply same_peek.
  destruct (action_names_spec lib opts t (is_exec_action_In t Hx))
    as (Hp & _ & _ & _ & Hf & Ha & Hn).
  simpl in Hd1, Hd2.
  apply drop_head in Hd1 as [Hh1 Hd1]. apply drop_head in Hd2 as [Hh2 Hd2].
  rewrite Hh1, Hh2, Hp, Hf, Ha, Hx.
  rewrite <- app_assoc in Hd1, Hd2. simpl in Hd1, Hd2.
  eapply same_bind; [apply (same_consume _ _ _ Hh1 Hh2)|].
  intros a q [-> _].
  eapply same_bind.
  { apply same_eq; [|apply cursor_consume_command].
    intros s Hs. now apply (consume_command_agree t args (S p) rest1 rest2). }
  intros args' q [Hu ->].
  rewrite Hd1, until_semicolon_app in Hu by assumption.
  injection Hu as <-.
  assert (Hend : lands p (t :: args ++ [";"]) true (S (S p + length args))).
  { unfold lands. simpl. rewrite length_app. simpl. lia. }
  destruct e; [|apply same_ret, Hend].
  destruct (assoc t (_exec_actions lib)) eqn:Ea; [|apply same_ret, Hend].
  eapply same_weaken;
    [apply same_refl, cursor_keeps; eapply exec_actions_same_pos; eauto|].
  intros a' q' ->. exact Hend.
Qed.

Lemma sim_not_primary ts : Primary ts -> sim_primary ts -> sim_not ts.
Proof.
  intros Hg IH n1 n2 e p rest1 rest2 Hd1 Hd2. unfold not_expr.
  apply same_peek.
  destruct (Primary_head lib opts ts Hg) as (t & r & -> & _ & Hn).
  pose proof Hd1 as Hd1'. simpl in Hd1'. apply drop_head in Hd1' as [Hh1 _].
  pose proof Hd2 as Hd2'. simpl in Hd2'. apply drop_head in Hd2' as [Hh2 _].
  rewrite Hh1, Hh2, Hn. eapply IH; eauto.
Qed.

Lemma sim_not_not t ts :
  In t ["!"; "-not"] -> sim_primary ts -> sim_not (t :: ts).
Proof.
  intros Ht IH n1 n2 e p rest1 rest2 Hd1 Hd2. unfold not_expr.
  apply same_peek. simpl in Hd1, Hd2.
  apply drop_head in Hd1 as [Hh1 Hd1]. apply drop_head in Hd2 as [Hh2 Hd2].
  rewrite Hh1, Hh2.
  replace (token_in (Some t) ["!"; "-not"]) with true
    by (destruct Ht as [<-|[<-|[]]]; reflexivity).
  eapply same_bind; [apply (same_consume _ _ _ Hh1 Hh2)|].
  intros a q [-> _].
  assert (Hend : forall (v : bool) q,
             lands (S p) ts v q -> lands p (t :: ts) v q).
  { unfold lands. simpl. intros; lia. }
  destruct (negb e).
  - eapply same_bind; [eapply IH; eauto|].
    intros v q Hq. apply same_ret. now apply (Hend v).
  - eapply same_bind; [eapply IH; eauto|].
    intros v q Hq. apply same_ret. now apply (Hend v).
Qed.

(** What the loop of [_parse_and_expr] sees where it stops. *)
Lemma and_stops_lookup (toks : list string) p rest :
  drop p toks = rest -> and_stops rest ->
  match toks !! p with
  | None => True
  | Some t => token_in (Some t) ["-o"; "-or"; ")"; ","] = true
  end.
Proof.
  intros Hd Hs. destruct rest as [|t rest].
  - now rewrite (drop_nil_lookup _ _ Hd).
  - apply drop_head in Hd as [Hh _]. now rewrite Hh.
Qed.

Lemma or_stops_lookup (toks : list string) p rest :
  drop p toks = rest -> or_stops rest ->
  token_in (toks !! p) ["-o"; "-or"] = false.
Proof.
  intros Hd Hs. destruct rest as [|t rest].
  - now rewrite (drop_nil_lookup _ _ Hd).
  - apply drop_head in Hd as [Hh _]. rewrite Hh. simpl in *.
    destruct (String.eqb t ")") eqn:E1.
    + apply String.eqb_eq in E1. now subst t.
    + destruct (String.eqb t ",") eqn:E2; [|discriminate].
      apply String.eqb_eq in E2. now subst t.
Qed.

Lemma sim_and_tail_nil : sim_and_tail [].
Proof.
  intros n1 n2 k1 k2 e left p rest1 rest2 Hd1 Hd2 Hs1 Hs2.
  destruct k1 as [|k1]; [apply same_fuel_l|].
  destruct k2 as [|k2]; [apply same_fuel_r|].
  simpl. apply same_peek. simpl in Hd1, Hd2.
  assert (Hend : lands p [] left p) by (unfold lands; simpl; lia).
  pose proof (and_stops_lookup _ _ _ Hd1 Hs1) as H1.
  pose proof (and_stops_lookup _ _ _ Hd2 Hs2) as H2.
  destruct (toks1 !! p), (toks2 !! p); rewrite ?H1, ?H2;
    apply same_ret, Hend.
Qed.

Lemma sim_and_tail_step (skip : list string) ts rest :
  (skip = [] \/ exists a, skip = [a] /\ In a ["-a"; "-and"]) ->
  NotExpr ts -> sim_not ts -> sim_and_tail rest ->
  sim_and_tail (skip ++ ts ++ rest).
Proof.
  intros Hskip Hg IHn IHt n1 n2 k1 k2 e left p rest1 rest2 Hd1 Hd2 Hs1 Hs2.
  destruct k1 as [|k1]; [apply same_fuel_l|].
  destruct k2 as [|k2]; [apply same_fuel_r|].
  simpl. apply same_peek.
  destruct (NotExpr_head lib opts ts Hg) as (t & r & Hts & Hf & Ha).
  rewrite <- !app_assoc in Hd1, Hd2.
  assert (Hend : forall (v : bool) q,
             lands (p + length skip + length ts) rest v q ->
             lands p (skip ++ ts ++ rest) v q).
  { unfold lands. intros v q ->. rewrite !length_app. lia. }
  destruct Hskip as [->|(a & -> & Hin)].
  - simpl in Hd1, Hd2.
    pose proof Hd1 as Hd1'. rewrite Hts in Hd1'. simpl in Hd1'.
    apply drop_head in Hd1' as [Hh1 _].
    pose proof Hd2 as Hd2'. rewrite Hts in Hd2'. simpl in Hd2'.
    apply drop_head in Hd2' as [Hh2 _].
    rewrite Hh1, Hh2, Hf, Ha.
    eapply same_bind;
      [apply (same_ret _ _ (fun _ q => q = p)); reflexivity|].
    intros u q ->.
    pose proof (drop_app_length _ _ _ _ Hd1) as Hd12.
    pose proof (drop_app_length _ _ _ _ Hd2) as Hd22.
    destruct (negb e || negb left).
    + eapply same_bind; [eapply IHn; eauto|]. intros v q ->.
      eapply same_weaken; [eapply IHt; eauto|].
      intros v' q' Hq. apply (Hend v'). simpl.
      now rewrite Nat.add_0_r.
    + eapply same_bind; [eapply IHn; eauto|]. intros v q ->.
      eapply same_weaken; [eapply IHt; eauto|].
      intros v' q' Hq. apply (Hend v'). simpl.
      now rewrite Nat.add_0_r.
  - simpl in Hd1, Hd2.
    apply drop_head in Hd1 as [Hh1 Hd1]. apply drop_head in Hd2 as [Hh2 Hd2].
    rewrite Hh1, Hh2.
    replace (token_in (Some a) ["-o"; "-or"; ")"; ","]) with false
      by (destruct Hin as [<-|[<-|[]]]; reflexivity).
    replace (token_in (Some a) ["-a"; "-and"]) with true
      by (destruct Hin as [<-|[<-|[]]]; reflexivity).
    eapply same_bind.
    { eapply same_bind; [apply (same_consume _ _ _ Hh1 Hh2)|].
      intros a' q [-> _].
      apply (same_ret _ _ (fun _ q => q = S p)); reflexivity. }
    intros u q ->.
    pose proof (drop_app_length _ _ _ _ Hd1) as Hd12.
    pose proof (drop_app_length _ _ _ _ Hd2) as Hd22.
    destruct (negb e || negb left).
    + eapply same_bind; [eapply IHn; eauto|]. intros v q ->.
      eapply same_weaken; [eapply IHt; eauto|].
      intros v' q' Hq. apply (Hend v'). simpl.
      now replace (p + 1 + length ts)%nat with (S p + length ts)%nat by lia.
    + eapply same_bind; [eapply IHn; eauto|]. intros v q ->.
      eapply same_weaken; [eapply IHt; eauto|].
      intros v' q' Hq. apply (Hend v'). simpl.
      now replace (p + 1 + length ts)%nat with (S p + length ts)%nat by lia.
Qed.

Lemma sim_and_intro ts rest :
  sim_not ts -> sim_and_tail rest -> sim_and (ts ++ rest).
Proof.
  intros IHn IHt n1 n2 k1 k2 e p rest1 rest2 Hd1 Hd2 Hs1 Hs2.
  unfold and_expr. rewrite <- app_assoc in Hd1, Hd2.
  pose proof (drop_app_length _ _ _ _ Hd1) as Hd12.
  pose proof (drop_app_length _ _ _ _ Hd2) as Hd22.
  eapply same_bind; [eapply IHn; eauto|]. intros v q ->.
  eapply same_weaken; [eapply IHt; eauto|].
  unfold lands. intros v' q' ->. rewrite length_app. lia.
Qed.

Lemma sim_or_tail_nil : sim_or_tail [].
Proof.
  intros n1 n2 k1 k2 left p rest1 rest2 Hd1 Hd2 Hs1 Hs2.
  destruct k1 as [|k1]; [apply same_fuel_l|].
  destruct k2 as [|k2]; [apply same_fuel_r|].
  simpl. apply same_peek. simpl in Hd1, Hd2.
  rewrite (or_stops_lookup _ _ _ Hd1 Hs1), (or_stops_lookup _ _ _ Hd2 Hs2).
  apply same_ret. left. simpl. lia.
Qed.

Lemma sim_or_tail_cons o ts rest :
  In o ["-o"; "-or"] -> sim_and ts -> OrTail rest -> sim_or_tail rest ->
  sim_or_tail (o :: ts ++ rest).
Proof.
  intros Ho IHa Hg IHt n1 n2 k1 k2 left p rest1 rest2 Hd1 Hd2 Hs1 Hs2.
  destruct k1 as [|k1]; [apply same_fuel_l|].
  destruct k2 as [|k2]; [apply same_fuel_r|].
  simpl. apply same_peek. simpl in Hd1, Hd2.
  apply drop_head in Hd1 as [Hh1 Hd1]. apply drop_head in Hd2 as [Hh2 Hd2].
  rewrite Hh1, Hh2.
  replace (token_in (Some o) ["-o"; "-or"]) with true
    by (destruct Ho as [<-|[<-|[]]]; reflexivity).
  rewrite <- app_assoc in Hd1, Hd2.
  pose proof (drop_app_length _ _ _ _ Hd1) as Hd12.
  pose proof (drop_app_length _ _ _ _ Hd2) as Hd22.
  pose proof (OrTail_and_stops _ _ Hg Hs1) as Hst1.
  pose proof (OrTail_and_stops _ _ Hg Hs2) as Hst2.
  eapply same_bind; [apply (same_consume _ _ _ Hh1 Hh2)|].
  intros a q [-> _].
  destruct left.
  - eapply same_bind; [eapply IHa; eauto|]. intros v q ->.
    apply same_ret.
    destruct Hg as [|o' ts' r' Ho' _ _].
    + left. simpl. rewrite app_nil_r. lia.
    + right. split; [reflexivity|].
      rewrite <- app_comm_cons in Hd12. apply drop_head in Hd12 as [Hq _].
      rewrite Hq.
      destruct Ho' as [<-|[<-|[]]]; reflexivity.
  - eapply same_bind; [eapply IHa; eauto|]. intros v q ->.
    eapply same_weaken; [eapply IHt; eauto|].
    intros v' q' [-> |H]; [left|now right].
    simpl. rewrite length_app. lia.
Qed.

Lemma sim_or_intro ts rest :
  sim_and ts -> OrTail rest -> sim_or_tail rest -> sim_or (ts ++ rest).
Proof.
  intros IHa Hg IHt n1 n2 k1 k2 p rest1 rest2 Hd1 Hd2 Hs1 Hs2.
  unfold or_expr. rewrite <- app_assoc in Hd1, Hd2.
  pose proof (drop_app_length _ _ _ _ Hd1) as Hd12.
  pose proof (drop_app_length _ _ _ _ Hd2) as Hd22.
  pose proof (OrTail_and_stops _ _ Hg Hs1) as Hst1.
  pose proof (OrTail_and_stops _ _ Hg Hs2) as Hst2.
  eapply same_bind; [eapply IHa; eauto|]. intros v q ->.
  eapply same_weaken; [eapply IHt; eauto|].
  intros v' q' [-> |H]; [left|now right].
  rewrite length_app. lia.
Qed.

(** On the tokens of a phrase of the grammar the two runs are alike,
    whatever follows the phrase in each stream. *)
Lemma evaluator_runs_alike :
  (forall ts, Primary ts -> Primary ts /\ sim_primary ts)
  /\ (forall ts, NotExpr ts -> NotExpr ts /\ sim_not ts)
  /\ (forall ts, AndTail ts -> sim_and_tail ts)
  /\ (forall ts, AndExpr ts -> sim_and ts)
  /\ (forall ts, OrTail ts -> OrTail ts /\ sim_or_tail ts)
  /\ (forall ts, OrExpr ts -> sim_or ts).
Proof.
  apply grammar_ind.
  - intros ts Hg IH. split; [now constructor|now apply sim_paren].
  - intros t args Ht Hl. split; [now constructor|now apply sim_test].
  - intros t Ht Hx. split; [now constructor|now apply sim_action].
  - intros t args Hx Ha. split; [now constructor|now apply sim_command].
  - intros ts Hg [_ IH]. split; [now constructor|now apply sim_not_primary].
  - intros t ts Ht Hg [_ IH]. split; [now constructor|now apply sim_not_not].
  - apply sim_and_tail_nil.
  - intros ts rest _ [Hg IHn] _ IHt.
    apply (sim_and_tail_step [] ts rest); auto.
  - intros a ts rest Ha _ [Hg IHn] _ IHt.
    apply (sim_and_tail_step [a] ts rest); eauto.
  - intros ts rest _ [_ IHn] _ IHt. now apply sim_and_intro.
  - split; [constructor|apply sim_or_tail_nil].
  - intros o ts rest Ho Hg IHa _ [Hg' IHt].
    split; [now constructor|now apply sim_or_tail_cons].
  - intros ts rest _ IHa _ [Hg IHt]. now apply sim_or_intro.
Qed.

End Simulation.

Section Constants.

Variable lib : Lib.
Variable opts : options.
Variable toks : list string.
Variable path : string.

Let prim (n : nat) := _parse_primary lib opts toks n.

Lemma consume_some p t s :
  toks !! p = Some t -> pos s = p ->
  _consume toks None s = Ok (Some t) (set_pos (S p) s).
Proof.
  intros H Hs. subst p. unfold _consume, _peek, bind, gets, modify, ret.
  rewrite H. reflexivity.
Qed.

(** [-true] and [-false] as a primary: the cursor moves by one token and
    nothing else changes. *)
Lemma primary_constant_run n p t (b : bool) e s :
  (t = "-true" /\ b = true) \/ (t = "-false" /\ b = false) ->
  toks !! p = Some t -> pos s = p ->
  prim (S n) path e s = Ok (if e then b else true) (set_pos (S p) s).
Proof.
  intros Ht Hh Hs. unfold prim. cbn [_parse_primary].
  unfold bind at 1, _peek, gets. rewrite Hs, Hh.
  destruct Ht as [[-> ->]|[-> ->]].
  - change (String.eqb "-true" "(") with false. cbv iota.
    change (assoc "-true" (_tests lib opts))
      with (Some (star_args _test_true)).
    cbv iota. unfold bind at 1. rewrite (consume_some p "-true" s Hh Hs).
    change (_get_num_args "-true") with 0%nat. cbn [consume_args].
    destruct e; reflexivity.
  - change (String.eqb "-false" "(") with false. cbv iota.
    change (assoc "-false" (_tests lib opts))
      with (Some (star_args _test_false)).
    cbv iota. unfold bind at 1. rewrite (consume_some p "-false" s Hh Hs).
    change (_get_num_args "-false") with 0%nat. cbn [consume_args].
    destruct e; reflexivity.
Qed.

Lemma not_expr_constant_run n p t (b : bool) e s :
  (t = "-true" /\ b = true) \/ (t = "-false" /\ b = false) ->
  toks !! p = Some t -> pos s = p ->
  not_expr toks (prim n) path e s
  = match n with
    | O => OutOfFuel
    | S _ => Ok (if e then b else true) (set_pos (S p) s)
    end.
Proof.
  intros Ht Hh Hs. unfold not_expr. unfold bind at 1, _peek, gets.
  rewrite Hs, Hh.
  replace (token_in (Some t) ["!"; "-not"]) with false
    by (destruct Ht as [[-> _]|[-> _]]; reflexivity).
  destruct n as [|n]; [reflexivity|].
  exact (primary_constant_run n p t b e s Ht Hh Hs).
Qed.

Lemma and_loop_end_run n k e left s :
  toks !! pos s = None ->
  and_loop toks (prim n) (S k) path e left s = Ok left s.
Proof.
  intros H. cbn [and_loop]. unfold bind, _peek, gets. now rewrite H.
Qed.

Lemma or_loop_end_run n k left s :
  toks !! pos s = None ->
  or_loop toks (prim n) (S k) path left s = Ok left s.
Proof.
  intros H. cbn [or_loop]. unfold bind, _peek, gets. now rewrite H.
Qed.

(** The operand [-o -true] at the end of the stream makes the loop of
    [_parse_or_expr] return true; the cursor is all it changes. *)
Lemma or_true_run n k left p s :
  drop p toks = ["-o"; "-true"] -> pos s = p ->
  match or_loop toks (prim n) k path left s with
  | Ok v s' => v = true /\ s' = set_pos (S (S p)) s
  | Raise _ _ => False
  | OutOfFuel => True
  end.
Proof.
  intros Hd Hs.
  apply drop_head in Hd as [Hh0 Hd]. apply drop_head in Hd as [Hh1 Hd].
  apply drop_nil_lookup in Hd.
  destruct k as [|k]; [exact I|]. cbn [or_loop].
  unfold bind at 1, _peek, gets. rewrite Hs, Hh0.
  change (token_in (Some "-o") ["-o"; "-or"]) with true. cbv iota.
  unfold bind at 1. rewrite (consume_some p "-o" s Hh0 Hs).
  destruct left.
  - unfold bind at 1. unfold and_expr. unfold bind at 1.
    rewrite (not_expr_constant_run n (S p) "-true" true false) by auto.
    destruct n as [|n]; [exact I|].
    destruct k as [|k]; [exact I|].
    rewrite and_loop_end_run by exact Hd. split; reflexivity.
  - unfold bind at 1. unfold and_expr. unfold bind at 1.
    rewrite (not_expr_constant_run n (S p) "-true" true true) by auto.
    destruct n as [|n]; [exact I|].
    destruct k as [|k]; [exact I|].
    rewrite and_loop_end_run by exact Hd.
    rewrite or_loop_end_run by exact Hd. split; reflexivity.
Qed.

(** The operand [-a -false] at the end of the stream makes the loop of
    [_parse_and_expr] return false; the cursor is all it changes. *)
Lemma and_false_run n k e left p s :
  drop p toks = ["-a"; "-false"] -> pos s = p ->
  match and_loop toks (prim n) k path e left s with
  | Ok v s' => v = false /\ s' = set_pos (S (S p)) s
  | Raise _ _ => False
  | OutOfFuel => True
  end.
Proof.
  intros Hd Hs.
  apply drop_head in Hd as [Hh0 Hd]. apply drop_head in Hd as [Hh1 Hd].
  apply drop_nil_lookup in Hd.
  destruct k as [|k]; [exact I|]. cbn [and_loop].
  unfold bind at 1, _peek, gets. rewrite Hs, Hh0.
  change (token_in (Some "-a") ["-o"; "-or"; ")"; ","]) with false.
  change (token_in (Some "-a") ["-a"; "-and"]) with true. cbv iota.
  unfold bind at 1, bind at 1. rewrite (consume_some p "-a" s Hh0 Hs).
  unfold ret at 1.
  destruct (negb e || negb left) eqn:E.
  - unfold bind at 1.
    rewrite (not_expr_constant_run n (S p) "-false" false false) by auto.
    destruct n as [|n]; [exact I|].
    destruct k as [|k]; [exact I|].
    rewrite and_loop_end_run by exact Hd. split; reflexivity.
  - unfold bind at 1.
    rewrite (not_expr_constant_run n (S p) "-false" false true) by auto.
    destruct n as [|n]; [exact I|].
    destruct k as [|k]; [exact I|].
    rewrite and_loop_end_run by exact Hd. rewrite andb_false_r.
    split; reflexivity.
Qed.

End Constants.

Section Tails.

Variable lib : Lib.
Variable opts : options.
Variable path : string.
Variables toks1 toks2 : list string.
Hypothesis agree : forall i t, toks1 !! i = Some t -> toks2 !! i = Some t.

Let prim1 (n : nat) := _parse_primary lib opts toks1 n.
Let prim2 (n : nat) := _parse_primary lib opts toks2 n.

Lemma OrTail_stops rest ext :
  OrTail rest -> and_stops ext -> and_stops (rest ++ ext).
Proof.
  intros [|o ts r Ho _ _] He; [exact He|]. simpl.
  destruct Ho as [<-|[<-|[]]]; reflexivity.
Qed.

(** When the second stream is the first followed by [-o -true], the
    loop of [_parse_or_expr] returns true on it wherever it returns on
    the first, with the same effects. *)
Lemma or_tail_ends_true tl :
  OrTail tl -> forall n1 n2 k1 k2 left p,
  drop p toks1 = tl -> drop p toks2 = tl ++ ["-o"; "-true"] ->
  ends_with true p (or_loop toks1 (prim1 n1) k1 path left)
    (or_loop toks2 (prim2 n2) k2 path left)
    (fun _ => True) (fun _ => True).
Proof.
  destruct (evaluator_runs_alike lib opts path toks1 toks2 agree)
    as (_ & _ & _ & Hand & _).
  induction 1 as [|o ts rest Ho Ha Ht IH]; intros n1 n2 k1 k2 left p Hd1 Hd2.
  - intros s Hs. destruct k1 as [|k1]; [exact I|].
    unfold prim1. rewrite or_loop_end_run
      by (rewrite Hs; now apply drop_nil_lookup).
    pose proof (or_true_run lib opts toks2 path n2 k2 left p s Hd2 Hs) as H2.
    unfold prim2. destruct (or_loop toks2 _ k2 path left s); auto.
    destruct H2 as [-> ->]. repeat split.
  - destruct k1 as [|k1]; [apply ends_fuel_l|].
    destruct k2 as [|k2]; [apply ends_fuel_r|].
    simpl. apply ends_peek. simpl in Hd1, Hd2.
    apply drop_head in Hd1 as [Hh1 Hd1]. apply drop_head in Hd2 as [Hh2 Hd2].
    rewrite Hh1, Hh2.
    replace (token_in (Some o) ["-o"; "-or"]) with true
      by (destruct Ho as [<-|[<-|[]]]; reflexivity).
    rewrite <- app_assoc in Hd2.
    pose proof (drop_app_length _ _ _ _ Hd1) as Hd12.
    pose proof (drop_app_length _ _ _ _ Hd2) as Hd22.
    assert (Hst1 : and_stops rest).
    { rewrite <- (app_nil_r rest). now apply OrTail_stops. }
    assert (Hst2 : and_stops (rest ++ ["-o"; "-true"])).
    { now apply OrTail_stops. }
    eapply ends_bind; [apply (same_consume _ _ _ _ _ Hh1 Hh2)|].
    intros a q [-> _].
    destruct left.
    + eapply ends_bind; [eapply (Hand ts Ha); eauto|]. intros v q ->.
      intros s Hs. unfold ret. repeat split. apply only_cursor_refl.
    + eapply ends_bind; [eapply (Hand ts Ha); eauto|]. intros v q ->.
      apply IH; assumption.
Qed.

(** When the second stream is the first followed by [-a -false], the
    loop of [_parse_and_expr] returns false on it wherever it returns
    on the first, with the same effects; both end at the end of their
    stream. *)
Lemma and_tail_ends_false tl :
  AndTail tl -> forall n1 n2 k1 k2 e left p,
  drop p toks1 = tl -> drop p toks2 = tl ++ ["-a"; "-false"] ->
  ends_with false p (and_loop toks1 (prim1 n1) k1 path e left)
    (and_loop toks2 (prim2 n2) k2 path e left)
    (fun q => toks1 !! q = None) (fun q => toks2 !! q = None).
Proof.
  destruct (evaluator_runs_alike lib opts path toks1 toks2 agree)
    as (_ & Hnot & _).
  assert (Hstep : forall skip ts rest,
             (skip = [] \/ exists a, skip = [a] /\ In a ["-a"; "-and"]) ->
             NotExpr ts ->
             (forall n1 n2 k1 k2 e left p,
                 drop p toks1 = rest ->
                 drop p toks2 = rest ++ ["-a"; "-false"] ->
                 ends_with false p (and_loop toks1 (prim1 n1) k1 path e left)
                   (and_loop toks2 (prim2 n2) k2 path e left)
                   (fun q => toks1 !! q = None) (fun q => toks2 !! q = None)) ->
             forall n1 n2 k1 k2 e left p,
               drop p toks1 = skip ++ ts ++ rest ->
               drop p toks2 = (skip ++ ts ++ rest) ++ ["-a"; "-false"] ->
               ends_with false p (and_loop toks1 (prim1 n1) k1 path e left)
                 (and_loop toks2 (prim2 n2) k2 path e left)
                 (fun q => toks1 !! q = None) (fun q => toks2 !! q = None)).
  { intros skip ts rest Hskip Hg IH n1 n2 k1 k2 e left p Hd1 Hd2.
    destruct k1 as [|k1]; [apply ends_fuel_l|].
    destruct k2 as [|k2]; [apply ends_fuel_r|].
    simpl. apply ends_peek.
    destruct (NotExpr_head lib opts ts Hg) as (t & r & Hts & Hf & Ha).
    rewrite <- !app_assoc in Hd2.
    destruct Hskip as [->|(a & -> & Hin)].
    - simpl in Hd1, Hd2.
      pose proof Hd1 as Hd1'. rewrite Hts in Hd1'. simpl in Hd1'.
      apply drop_head in Hd1' as [Hh1 _].
      pose proof Hd2 as Hd2'. rewrite Hts in Hd2'. simpl in Hd2'.
      apply drop_head in Hd2' as [Hh2 _].
      rewrite Hh1, Hh2, Hf, Ha.
      eapply ends_bind;
        [apply (same_ret _ _ (fun _ q => q = p)); reflexivity|].
      intros u q ->.
      pose proof (drop_app_length _ _ _ _ Hd1) as Hd12.
      pose proof (drop_app_length _ _ _ _ Hd2) as Hd22.
      destruct (negb e || negb left).
      + eapply ends_bind; [eapply (Hnot ts Hg); eauto|]. intros v q ->.
        apply IH; assumption.
      + eapply ends_bind; [eapply (Hnot ts Hg); eauto|]. intros v q ->.
        apply IH; assumption.
    - simpl in Hd1, Hd2.
      apply drop_head in Hd1 as [Hh1 Hd1].
      apply drop_head in Hd2 as [Hh2 Hd2].
      rewrite Hh1, Hh2.
      replace (token_in (Some a) ["-o"; "-or"; ")"; ","]) with false
        by (destruct Hin as [<-|[<-|[]]]; reflexivity).
      replace (token_in (Some a) ["-a"; "-and"]) with true
        by (destruct Hin as [<-|[<-|[]]]; reflexivity).
      eapply ends_bind.
      { eapply same_bind; [apply (same_consume _ _ _ _ _ Hh1 Hh2)|].
        intros a' q [-> _].
        apply (same_ret _ _ (fun _ q => q = S p)); reflexivity. }
      intros u q ->.
      pose proof (drop_app_length _ _ _ _ Hd1) as Hd12.
      pose proof (drop_app_length _ _ _ _ Hd2) as Hd22.
      destruct (negb e || negb left).
      + eapply ends_bind; [eapply (Hnot ts Hg); eauto|]. intros v q ->.
        apply IH; assumption.
      + eapply ends_bind; [eapply (Hnot ts Hg); eauto|]. intros v q ->.
        apply IH; assumption. }
  induction 1 as [|ts rest Hg Ht IH|a ts rest Ha Hg Ht IH].
  - intros n1 n2 k1 k2 e left p Hd1 Hd2 s Hs.
    destruct k1 as [|k1]; [exact I|].
    pose proof (drop_nil_lookup _ _ Hd1) as Hn1.
    unfold prim1. rewrite and_loop_end_run by (now rewrite Hs).
    pose proof (and_false_run lib opts toks2 path n2 k2 e left p s Hd2 Hs)
      as H2.
    unfold prim2. destruct (and_loop toks2 _ k2 path e left s); auto.
    destruct H2 as [-> ->]. split; [reflexivity|].
    split; [reflexivity|]. split; [now rewrite Hs|].
    cbn [pos set_pos].
    apply drop_head in Hd2 as [_ Hd2]. apply drop_head in Hd2 as [_ Hd2].
    now apply drop_nil_lookup.
  - apply (Hstep [] ts rest); auto.
  - replace (a :: ts ++ rest) with ([a] ++ ts ++ rest) by reflexivity.
    apply (Hstep [a] ts rest); eauto.
Qed.

End Tails.

Lemma continued_agrees (A ext : list string) i t :
  A !! i = Some t -> (A ++ ext) !! i = Some t.
Proof. apply lookup_app_l_Some. Qed.

(** C4, as amended. For every expression [A] of the grammar whose
    evaluation against an entry returns (it raises no error and performs
    no run-terminating action), the evaluation of [A -o -true] against
    the entry returns true; and when [A] is an AndExpr of the grammar
    (no OR outside parentheses), the evaluation of [A -a -false] returns
    false. In both cases the evaluation has the effects of the
    evaluation of [A] and no other: the two end states differ by the
    cursor at most. *)
Theorem short_circuit_identities lib opts A path s v s1 :
  _evaluate_expression lib opts A path s = Ok v s1 ->
  (OrExpr A ->
   exists s2,
     _evaluate_expression lib opts (A ++ ["-o"; "-true"]) path s = Ok true s2
     /\ only_cursor s1 s2)
  /\ (AndExpr A ->
      exists s2,
        _evaluate_expression lib opts (A ++ ["-a"; "-false"]) path s
        = Ok false s2
        /\ only_cursor s1 s2).
Proof.
  intros H1. split.
  - intros HA. revert H1. destruct HA as [ts rest Ha Ht]. intros H1.
    set (ext := ["-o"; "-true"]).
    pose proof (_evaluate_expression_returns lib opts ((ts ++ rest) ++ ext)
                  path s) as Hr.
    destruct (evaluator_runs_alike lib opts path (ts ++ rest)
                ((ts ++ rest) ++ ext) (continued_agrees _ _))
      as (_ & _ & _ & Hand & _).
    assert (He : ends_with true 0
                   (_parse_or_expr lib opts (ts ++ rest)
                      (enough_fuel (ts ++ rest)) path)
                   (_parse_or_expr lib opts ((ts ++ rest) ++ ext)
                      (enough_fuel ((ts ++ rest) ++ ext)) path)
                   (fun _ => True) (fun _ => True)).
    { unfold _parse_or_expr, or_expr.
      eapply ends_bind.
      - eapply (Hand ts Ha _ _ _ _ true 0%nat rest (rest ++ ext));
          [reflexivity|now rewrite <- app_assoc| |].
        + rewrite <- (app_nil_r rest). now apply OrTail_stops.
        + now apply OrTail_stops.
      - intros v0 q ->.
        apply (or_tail_ends_true lib opts path _ _ (continued_agrees _ _)
                 rest Ht).
        + rewrite drop_app_length'; [reflexivity|]. simpl. lia.
        + rewrite <- app_assoc. rewrite drop_app_length'; [reflexivity|].
          simpl. lia. }
    unfold _evaluate_expression, bind, modify in *.
    specialize (He (set_pos 0 s) eq_refl). rewrite H1 in He.
    destruct (_parse_or_expr lib opts ((ts ++ rest) ++ ext) _ path _)
      as [v2 s2| |]; [|contradiction|congruence].
    destruct He as (-> & Ho & _). now exists s2.
  - intros HA. revert H1. destruct HA as [ts rest Hn Ht]. intros H1.
    set (ext := ["-a"; "-false"]).
    pose proof (_evaluate_expression_returns lib opts ((ts ++ rest) ++ ext)
                  path s) as Hr.
    destruct (evaluator_runs_alike lib opts path (ts ++ rest)
                ((ts ++ rest) ++ ext) (continued_agrees _ _))
      as (_ & Hnot & _).
    assert (He : forall k1 k2,
               ends_with false 0
                 (and_expr (ts ++ rest)
                    (_parse_primary lib opts (ts ++ rest)
                       (enough_fuel (ts ++ rest))) k1 path true)
                 (and_expr ((ts ++ rest) ++ ext)
                    (_parse_primary lib opts ((ts ++ rest) ++ ext)
                       (enough_fuel ((ts ++ rest) ++ ext))) k2 path true)
                 (fun q => (ts ++ rest) !! q = None)
                 (fun q => ((ts ++ rest) ++ ext) !! q = None)).
    { intros k1 k2. unfold and_expr. eapply ends_bind.
      - eapply (proj2 (Hnot ts Hn) _ _ true 0%nat rest (rest ++ ext));
          [reflexivity|now rewrite <- app_assoc].
      - intros v0 q ->.
        apply (and_tail_ends_false lib opts path _ _ (continued_agrees _ _)
                 rest Ht).
        + rewrite drop_app_length'; [reflexivity|]. simpl. lia.
        + rewrite <- app_assoc. rewrite drop_app_length'; [reflexivity|].
          simpl. lia. }
    unfold _evaluate_expression, _parse_or_expr, or_expr, bind, modify in *.
    specialize (He (enough_fuel (ts ++ rest))
                  (enough_fuel ((ts ++ rest) ++ ext)) (set_pos 0 s) eq_refl).
    destruct (and_expr (ts ++ rest) _ _ path true (set_pos 0 s))
      as [l1 s1'| |]; [|discriminate|discriminate].
    destruct (and_expr ((ts ++ rest) ++ ext) _ _ path true (set_pos 0 s))
      as [l2 s2'| |]; [|contradiction|congruence].
    destruct He as (-> & Ho & Hq1 & Hq2).
    unfold enough_fuel in H1 |- *.
    rewrite or_loop_end_run in H1 by exact Hq1. injection H1 as <- <-.
    rewrite or_loop_end_run by exact Hq2. now exists s2'.
Qed.

Definition no_clock : nat -> Z := fun _ => 0.

Lemma grammar_true : Primary ["-true"].
Proof. apply (P_test "-true" []); [simpl; tauto|reflexivity]. Qed.

Lemma grammar_true_or_true : OrExpr ["-true"; "-o"; "-true"].
Proof.
  assert (Ha : AndExpr ["-true"]).
  { apply (A_intro ["-true"] []); [apply N_primary, grammar_true|constructor]. }
  apply (O_intro ["-true"] ["-o"; "-true"]); [exact Ha|].
  apply (OT_cons "-o" ["-true"] []); [simpl; tauto|exact Ha|constructor].
Qed.

(** C4, the claim as stated: [-true -o -true] is an expression whose
    evaluation returns, and [-true -o -true -a -false] yields true. *)
Lemma short_circuit_and_false_counterexample :
  OrExpr ["-true"; "-o"; "-true"]
  /\ (exists s',
         _evaluate_expression (sample_lib no_clock) default_options
           ["-true"; "-o"; "-true"] "t" (initial_state scenario_fs [])
         = Ok true s')
  /\ exists s',
      _evaluate_expression (sample_lib no_clock) default_options
        (["-true"; "-o"; "-true"] ++ ["-a"; "-false"]) "t"
        (initial_state scenario_fs [])
      = Ok true s'.
Proof.
  split; [apply grammar_true_or_true|].
  split; eexists; vm_compute; reflexivity.
Qed.

Lemma short_circuit_identities_witness :
  let s := initial_state scenario_fs [] in
  let lib := sample_lib no_clock in
  (_evaluate_expression lib default_options ["-false"] "t" s
   = Ok false (set_pos 1 s)
   /\ OrExpr ["-false"] /\ AndExpr ["-false"])
  /\ (exists s2,
         _evaluate_expression lib default_options
           (["-false"] ++ ["-o"; "-true"]) "t" s = Ok true s2
         /\ only_cursor (set_pos 1 s) s2)
  /\ (exists s2,
         _evaluate_expression lib default_options
           (["-false"] ++ ["-a"; "-false"]) "t" s = Ok false s2
         /\ only_cursor (set_pos 1 s) s2).
Proof.
  intros s lib.
  assert (H1 : _evaluate_expression lib default_options ["-false"] "t" s
               = Ok false (set_pos 1 s)) by reflexivity.
  assert (Hp : Primary ["-false"])
    by (apply (P_test "-false" []); [simpl; tauto|reflexivity]).
  assert (Ha : AndExpr ["-false"]).
  { apply (A_intro ["-false"] []); [apply N_primary, Hp|constructor]. }
  assert (Ho : OrExpr ["-false"]).
  { apply (O_intro ["-false"] []); [exact Ha|constructor]. }
  split; [split; [exact H1|split; [exact Ho|exact Ha]]|].
  pose proof (short_circuit_identities lib default_options ["-false"] "t" s
                false (set_pos 1 s) H1) as [HO HA].
  split; [exact (HO Ho)|exact (HA Ha)].
Defined.

(* ===================================================================== *)
(** ** Suppressed mode *)
(* ===================================================================== *)

Section Suppressed.

Variable lib : Lib.
Variable opts : options.
Variable toks : list string.
Variable path : string.
Hypothesis no_parenthesis : ~ In "(" toks.

Let quiet {A} (m : M A) : Prop := keeps_if_done only_cursor m.

Lemma quiet_bind {A B} (m : M A) (k : A -> M B) :
  quiet m -> (forall a, quiet (k a)) -> quiet (bind m k).
Proof. apply keeps_if_done_bind, only_cursor_trans. Qed.

Lemma quiet_ret {A} (a : A) : quiet (ret a).
Proof. intros s. apply only_cursor_refl. Qed.

Lemma quiet_consume expected : quiet (_consume toks expected).
Proof.
  apply kd_consume;
    [apply only_cursor_refl|apply only_cursor_trans|apply only_cursor_set_pos].
Qed.

Lemma quiet_consume_args n : quiet (consume_args toks n).
Proof.
  apply kd_consume_args;
    [apply only_cursor_refl|apply only_cursor_trans|apply only_cursor_set_pos].
Qed.

Lemma quiet_consume_command tok : quiet (consume_command toks tok).
Proof.
  apply kd_consume_command;
    [apply only_cursor_refl|apply only_cursor_trans|apply only_cursor_set_pos].
Qed.

Lemma suppressed_primary fuel :
  quiet (_parse_primary lib opts toks fuel path false).
Proof.
  destruct fuel as [|n]; [intros s; exact I|]. cbn [_parse_primary].
  apply kd_bind_peek.
  intros t Ht. destruct t as [tok|]; [|apply quiet_ret].
  specialize (Ht tok eq_refl).
  destruct (String.eqb tok "(") eqn:E.
  { apply String.eqb_eq in E. subst tok. contradiction. }
  destruct (assoc tok (_tests lib opts)).
  { apply quiet_bind; [apply quiet_consume|intros _].
    apply quiet_bind; [apply quiet_consume_args|intros; apply quiet_ret]. }
  destruct (existsb (String.eqb tok) action_names);
    [|intros s; apply only_cursor_refl].
  apply quiet_bind; [apply quiet_consume|intros _].
  destruct (is_exec_action tok).
  - apply quiet_bind; [apply quiet_consume_command|intros; apply quiet_ret].
  - apply quiet_bind; [apply quiet_consume_args|intros; apply quiet_ret].
Qed.

Lemma suppressed_not_expr fuel :
  quiet (_parse_not_expr lib opts toks fuel path false).
Proof.
  unfold _parse_not_expr, not_expr.
  apply kd_bind_peek. intros t _.
  destruct (token_in t _); [|apply suppressed_primary].
  apply quiet_bind; [apply quiet_consume|intros _]. simpl.
  apply quiet_bind; [apply suppressed_primary|intros; apply quiet_ret].
Qed.

Lemma suppressed_and_loop fuel k left :
  quiet (and_loop toks (_parse_primary lib opts toks fuel) k path false left).
Proof.
  revert left. induction k as [|k IH]; intros left; [intros s; exact I|].
  simpl. apply kd_bind_peek. intros t _.
  destruct t as [tok|]; [|apply quiet_ret].
  destruct (token_in (Some tok) ["-o"; "-or"; ")"; ","]); [apply quiet_ret|].
  apply quiet_bind.
  { destruct (token_in _ _); [|apply quiet_ret].
    apply quiet_bind; [apply quiet_consume|intros; apply quiet_ret]. }
  intros _. apply quiet_bind; [apply suppressed_not_expr|intros; apply IH].
Qed.

(** In a token stream without an opening parenthesis, a call in
    suppressed mode changes nothing but the cursor: nothing is printed,
    deleted, spawned or pruned. *)
Lemma suppressed_and_expr fuel :
  quiet (_parse_and_expr lib opts toks fuel path false).
Proof.
  unfold _parse_and_expr, and_expr.
  apply quiet_bind; [apply suppressed_not_expr|intros; apply suppressed_and_loop].
Qed.

End Suppressed.

(* ===================================================================== *)
(** ** Runs on the sample world *)
(* ===================================================================== *)

Definition quiet_lib : Lib := sample_lib no_clock.

(** C1: [-false -a ( -delete )] deletes the entry. The operand after
    [-a] is parsed in suppressed mode, but [_parse_primary] calls
    [_parse_or_expr] on the parenthesis without the flag, so [-delete]
    runs: the evaluation returns false, and the file is gone. Without the
    parentheses nothing happens. *)
Theorem suppressed_parenthesis_deletes :
  (exists s',
      _evaluate_expression quiet_lib default_options
        ["-false"; "-a"; "("; "-delete"; ")"] "t/a.txt"
        (initial_state scenario_fs [])
      = Ok false s'
      /\ trace s' = [Unlinked "t/a.txt"]
      /\ fs s' !! "t/a.txt" = None)
  /\ _evaluate_expression quiet_lib default_options
       ["-false"; "-a"; "-delete"] "t/a.txt" (initial_state scenario_fs [])
     = Ok false (set_pos 3 (initial_state scenario_fs [])).
Proof.
  split; [eexists; split; [vm_compute; reflexivity|split; reflexivity]|].
  vm_compute. reflexivity.
Qed.

(** C2: on the tokens [-delete ( -type f -o -true -o -true )] and a
    regular file, [_parse_and_expr] in active mode returns with the
    cursor at 9, and in suppressed mode, from the same state, raises
    ValueError with the cursor at 6. In suppressed mode the parenthesis is
    evaluated all the same, the file is still there, [-type f] is true,
    and [_parse_or_expr] returns at the second [-o]. *)
Theorem and_expr_modes_diverge :
  let toks := ["-delete"; "("; "-type"; "f"; "-o"; "-true"; "-o"; "-true"; ")"] in
  let s := initial_state scenario_fs [] in
  (exists s', _parse_and_expr quiet_lib default_options toks 10 "t/a.txt" true s
              = Ok true s' /\ pos s' = 9%nat)
  /\ (exists s', _parse_and_expr quiet_lib default_options toks 10 "t/a.txt"
                   false s
                 = Raise (ValueError "Expected ')' but found '-o'") s'
                 /\ pos s' = 6%nat).
Proof.
  split; eexists; (split; [vm_compute; reflexivity|reflexivity]).
Qed.

(** C3: [find t] in pre-order mode prints the directory [t/sub] twice:
    it is evaluated among the directories of [t] and again as the root of
    the next step of the walk. *)
Theorem preorder_evaluates_directory_twice :
  exists s',
    main quiet_lib 3 ["find.py"; "t"] scenario_fs [] = Some (0, s')
    /\ trace s' = [ Stdout ("t" ++ nl)%string; Stdout ("t/a.txt" ++ nl)%string;
                    Stdout ("t/sub" ++ nl)%string; Stdout ("t/sub" ++ nl)%string;
                    Stdout ("t/sub/b.log" ++ nl)%string ].
Proof. eexists. split; [vm_compute; reflexivity|reflexivity]. Qed.

(** C5: [find t -depth -mindepth 1 -maxdepth 1] evaluates [t/a.txt] and
    not the directory [t/sub], which is at depth 1 as well; in pre-order
    mode both are evaluated. *)
Theorem postorder_skips_directory_at_mindepth :
  (exists s',
      main quiet_lib 3
        ["find.py"; "t"; "-depth"; "-mindepth"; "1"; "-maxdepth"; "1"]
        scenario_fs [] = Some (0, s')
      /\ trace s' = [ Stdout ("t/a.txt" ++ nl)%string ])
  /\ (exists s',
         main quiet_lib 3 ["find.py"; "t"; "-mindepth"; "1"; "-maxdepth"; "1"]
           scenario_fs [] = Some (0, s')
         /\ trace s' = [ Stdout ("t/a.txt" ++ nl)%string;
                         Stdout ("t/sub" ++ nl)%string;
                         Stdout ("t/sub" ++ nl)%string ]).
Proof.
  split; eexists; (split; [vm_compute; reflexivity|reflexivity]).
Qed.

(* ===================================================================== *)
(** ** The age predicates and the clock *)
(* ===================================================================== *)

(** The time an age predicate compares with when the clock has been read
    [k] times before: the next reading, in local time, moved to midnight
    when [daystart] is set. *)
Definition baseline (lib : Lib) (opts : options) (k : nat) : Z :=
  let now := lib_time_at lib k + lib_utcoffset lib in
  if daystart opts then midnight now else now.

(** The age predicates, with the time stamp and the unit (in seconds)
    each one uses. *)
Definition age_predicates : list (string * (stat_result -> Z) * Z) :=
  [ ("-mtime", st_mtime, 86400); ("-atime", st_atime, 86400);
    ("-ctime", st_ctime, 86400); ("-mmin", st_mtime, 60);
    ("-amin", st_atime, 60); ("-cmin", st_ctime, 60) ].

(** C8, as amended. Every invocation of an age predicate reads the clock
    anew: invoked when the clock has been read [ticks s] times, it
    compares with the next reading (moved to local midnight when
    [daystart] is set) and leaves the clock read once more. This holds
    for an entry that is there, for one that is not (the predicate is
    then false) and for one whose lookup fails otherwise (the OSError is
    not caught). *)
Theorem age_predicates_read_clock_each_time lib opts tok attr unit path arg s :
  In (tok, attr, unit) age_predicates ->
  exists f,
    assoc tok (_tests lib opts) = Some f
    /\ f path [Some arg] s
       = match Fs.stat_or_error (fs s) path with
         | inl ENOENT => Ok false (set_ticks (S (ticks s)) s)
         | inl e =>
             Raise (OtherError (exception_name e)) (set_ticks (S (ticks s)) s)
         | inr st =>
             _compare_num
               (age_units (baseline lib opts (ticks s))
                  (fromtimestamp lib (attr st)) unit)
               (Some arg) (set_ticks (S (ticks s)) s)
         end.
Proof.
  unfold age_predicates. intros H.
  repeat (destruct H as [[= <- <- <-]|H];
          [eexists; split; [reflexivity|];
           unfold one_arg, _test_mtime, _test_atime, _test_ctime, _test_mmin,
             _test_amin, _test_cmin, _test_time, baseline, os_stat, bind,
             datetime_now, gets;
           cbn [fs set_ticks];
           destruct (Fs.stat_or_error (fs s) path) as [[]|]; reflexivity|]).
  destruct H.
Qed.

(** A clock that shows 59 seconds at its first reading and 61 seconds
    from then on. *)
Definition two_readings : nat -> Z :=
  fun k => match k with O => 59000000 | S _ => 61000000 end.

(** C8, the claim as stated: within one evaluation of one entry, whose
    time stamp is 0 and does not change, [-mmin 0] is true and then
    false, so that [-mmin 0 ! -mmin 0] yields true, which no single
    evaluation time allows. *)
Lemma evaluation_time_not_fixed_counterexample :
  let lib := sample_lib two_readings in
  let s := initial_state scenario_fs [] in
  (exists s1 s2,
      _test_mmin lib default_options "t/a.txt" (Some "0") s = Ok true s1
      /\ _test_mmin lib default_options "t/a.txt" (Some "0") s1 = Ok false s2
      /\ fs s1 = fs s)
  /\ exists s',
      _evaluate_expression lib default_options
        ["-mmin"; "0"; "!"; "-mmin"; "0"] "t/a.txt" s
      = Ok true s'.
Proof.
  split.
  - eexists _, _. split; [vm_compute; reflexivity|].
    split; [vm_compute; reflexivity|reflexivity].
  - eexists. vm_compute. reflexivity.
Qed.

Lemma age_predicates_read_clock_each_time_witness :
  In ("-mmin", st_mtime, 60) age_predicates
  /\ exists f,
      assoc "-mmin" (_tests (sample_lib two_readings) default_options) = Some f
      /\ f "t/a.txt" [Some "0"] (initial_state scenario_fs [])
         = match
             Fs.stat_or_error (fs (initial_state scenario_fs [])) "t/a.txt"
           with
           | inl ENOENT =>
               Ok false (set_ticks 1 (initial_state scenario_fs []))
           | inl e =>
               Raise (OtherError (exception_name e))
                 (set_ticks 1 (initial_state scenario_fs []))
           | inr st =>
               _compare_num
                 (age_units
                    (baseline (sample_lib two_readings) default_options 0)
                    (fromtimestamp (sample_lib two_readings) (st_mtime st)) 60)
                 (Some "0") (set_ticks 1 (initial_state scenario_fs []))
           end.
Proof.
  split; [simpl; tauto|].
  apply (age_predicates_read_clock_each_time (sample_lib two_readings)
           default_options "-mmin" st_mtime 60 "t/a.txt" "0"
           (initial_state scenario_fs [])).
  simpl; tauto.
Defined.

(* ===================================================================== *)
(** ** Looking up meta data *)
(* ===================================================================== *)

#[local] Arguments Fs.stat : simpl never.
#[local] Arguments Fs.lstat : simpl never.
#[local] Arguments Fs.isdir : simpl never.
#[local] Arguments Fs.islink : simpl never.
#[local] Arguments Fs.exists_ : simpl never.
#[local] Arguments Fs.listdir : simpl never.
#[local] Arguments Fs.scandir : simpl never.
#[local] Arguments Fs.access : simpl never.

Definition newer_predicates : list string := ["-newer"; "-anewer"; "-cnewer"].

(** The other predicates that look up the meta data of the entry. *)
Definition lookup_predicates : list string :=
  [ "-type"; "-perm"; "-size"; "-mtime"; "-atime"; "-ctime"; "-mmin";
    "-amin"; "-cmin"; "-empty"; "-links"; "-inum"; "-readable"; "-writable";
    "-executable" ].

Lemma set_ticks_same s : s = set_ticks (ticks s) s.
Proof. now destruct s. Qed.

Lemma last_nonempty a : a <> "" -> exists c, PyStr.last a = Some c.
Proof.
  induction a as [|c r IH]; [congruence|]. intros _. simpl.
  destruct r; [eauto|]. apply IH. discriminate.
Qed.

Lemma stat_missing (f : filesys) path : f !! path = None -> Fs.stat f path = None.
Proof. intros H. unfold Fs.stat, Fs.symloop_max. simpl. now rewrite H. Qed.

Lemma lstat_missing (f : filesys) path :
  f !! path = None -> Fs.lstat f path = None.
Proof. intros H. unfold Fs.lstat. now rewrite H. Qed.

Lemma not_found_lookup (f : filesys) path :
  Fs.lstat_or_error f path = inl ENOENT ->
  f !! path = None /\ Fs.missing_errno f path = ENOENT.
Proof.
  unfold Fs.lstat_or_error, Fs.lstat.
  destruct (f !! path); cbn; [discriminate|]. intros [= H]. now split.
Qed.

(** A path [os.lstat] does not find is not found by [os.stat] either. *)
Lemma not_found_stat (f : filesys) path :
  Fs.lstat_or_error f path = inl ENOENT ->
  Fs.stat_or_error f path = inl ENOENT.
Proof.
  intros H. destruct (not_found_lookup _ _ H) as [Hl He].
  unfold Fs.stat_or_error. rewrite (stat_missing _ _ Hl).
  unfold Fs.symloop_max. cbn [Fs.stat_errno_from]. rewrite Hl. now rewrite He.
Qed.

Lemma stat_error_None (f : filesys) path e :
  Fs.stat_or_error f path = inl e -> Fs.stat f path = None.
Proof.
  unfold Fs.stat_or_error. destruct (Fs.stat f path); [discriminate|reflexivity].
Qed.

Lemma stat_or_error_Some (f : filesys) path st :
  Fs.stat f path = Some st -> Fs.stat_or_error f path = inr st.
Proof. unfold Fs.stat_or_error. now intros ->. Qed.

Lemma lstat_or_error_Some (f : filesys) path st :
  Fs.lstat f path = Some st -> Fs.lstat_or_error f path = inr st.
Proof. unfold Fs.lstat_or_error. now intros ->. Qed.

Lemma os_stat_Some path s st :
  Fs.stat (fs s) path = Some st -> os_stat path s = Ok (Some st) s.
Proof.
  intros H. unfold os_stat, bind, gets. now rewrite (stat_or_error_Some _ _ _ H).
Qed.

Lemma os_lstat_Some path s st :
  Fs.lstat (fs s) path = Some st -> os_lstat path s = Ok (Some st) s.
Proof.
  intros H. unfold os_lstat, bind, gets.
  now rewrite (lstat_or_error_Some _ _ _ H).
Qed.

Lemma os_stat_not_found path s :
  Fs.stat_or_error (fs s) path = inl ENOENT -> os_stat path s = Ok None s.
Proof. intros H. unfold os_stat, bind, gets. now rewrite H. Qed.

Lemma os_lstat_not_found path s :
  Fs.lstat_or_error (fs s) path = inl ENOENT -> os_lstat path s = Ok None s.
Proof. intros H. unfold os_lstat, bind, gets. now rewrite H. Qed.

(* ===================================================================== *)
(** ** The size predicate *)
(* ===================================================================== *)

Section Decimal.

Lemma digit_char_val d :
  0 <= d < 10 ->
  PyInt.digit_val (PyInt.digit_char d) = Some d
  /\ Ascii.eqb (PyInt.digit_char d) "_" = false.
Proof.
  intros H.
  assert (d = 0 \/ d = 1 \/ d = 2 \/ d = 3 \/ d = 4 \/ d = 5 \/ d = 6
          \/ d = 7 \/ d = 8 \/ d = 9) as Hd by lia.
  repeat (destruct Hd as [->|Hd]; [split; reflexivity|]).
  subst. split; reflexivity.
Qed.

Lemma digit_char_is_digit d :
  0 <= d < 10 -> PyInt.is_digit (PyInt.digit_char d) = true.
Proof.
  intros H. unfold PyInt.is_digit.
  now rewrite (proj1 (digit_char_val d H)).
Qed.

Lemma dec_digits_all_digits fuel : forall n acc,
  0 <= n -> PyStr.all_chars PyInt.is_digit acc = true ->
  PyStr.all_chars PyInt.is_digit (PyInt.dec_digits fuel n acc) = true.
Proof.
  induction fuel as [|f IH]; intros n acc Hn Hacc; simpl; [assumption|].
  assert (Hd : PyStr.all_chars PyInt.is_digit
                 (String (PyInt.digit_char (n mod 10)) acc) = true).
  { unfold PyStr.all_chars. simpl.
    rewrite digit_char_is_digit by (apply Z.mod_pos_bound; lia).
    exact Hacc. }
  destruct (n <? 10); [exact Hd|].
  apply IH; [apply Z.div_pos; lia|exact Hd].
Qed.

Lemma dec_digits_value fuel : forall n acc,
  0 <= n -> (Z.to_nat n < fuel)%nat ->
  exists m, forall a b,
      PyInt.int_digits 10 a b (PyInt.dec_digits fuel n acc)
      = PyInt.int_digits 10 (a * m + n) true acc.
Proof.
  induction fuel as [|f IH]; intros n acc Hn Hf; [lia|]. simpl.
  assert (Hm : 0 <= n mod 10 < 10) by (apply Z.mod_pos_bound; lia).
  destruct (digit_char_val _ Hm) as [Hv Hu].
  destruct (n <? 10) eqn:E.
  - apply Z.ltb_lt in E. exists 10. intros a b. simpl.
    rewrite Hu, Hv. replace (n mod 10 <? 10) with true by (symmetry; apply Z.ltb_lt; lia).
    rewrite Z.mod_small by lia. reflexivity.
  - apply Z.ltb_ge in E.
    assert (Hq : 0 <= n / 10 < n).
    { split; [apply Z.div_pos; lia|apply Z.div_lt; lia]. }
    destruct (IH (n / 10) (String (PyInt.digit_char (n mod 10)) acc))
      as [m Hm']; [lia|lia|].
    exists (m * 10). intros a b. rewrite Hm'. simpl.
    rewrite Hu, Hv. replace (n mod 10 <? 10) with true by (symmetry; apply Z.ltb_lt; lia).
    f_equal. pose proof (Z.div_mod n 10). lia.
Qed.

Lemma str_all_digits n :
  0 <= n -> PyStr.all_chars PyInt.is_digit (PyInt.str n) = true.
Proof. intros H. now apply dec_digits_all_digits. Qed.

Lemma dec_digits_nonempty fuel : forall n acc,
  acc <> "" -> PyInt.dec_digits fuel n acc <> "".
Proof.
  induction fuel as [|f IH]; intros n acc Hacc; simpl; [assumption|].
  destruct (n <? 10); [discriminate|]. apply IH. discriminate.
Qed.

Lemma str_nonempty n : PyInt.str n <> "".
Proof.
  unfold PyInt.str. simpl. destruct (n <? 10); [discriminate|].
  apply dec_digits_nonempty. discriminate.
Qed.

(** A digit is no white space, no sign and no unit letter. *)
Lemma digit_is_plain c :
  PyInt.is_digit c = true ->
  PyInt.is_space c = false /\ is_sign c = false /\ unit_map c = None
  /\ forall f r, PyInt.signed f (String c r) = f (String c r).
Proof.
  destruct c as [[] [] [] [] [] [] [] []]; try discriminate;
    intros _; repeat split; reflexivity.
Qed.

Lemma all_chars_cons p c r :
  PyStr.all_chars p (String c r) = p c && PyStr.all_chars p r.
Proof. reflexivity. Qed.

Lemma lstrip_digits p s :
  (forall c, PyInt.is_digit c = true -> p c = false) ->
  PyStr.all_chars PyInt.is_digit s = true -> PyStr.lstrip p s = s.
Proof.
  intros Hp. destruct s as [|c r]; [reflexivity|].
  rewrite all_chars_cons. intros [Hc _]%andb_true_iff. simpl.
  now rewrite (Hp c Hc).
Qed.

Lemma rstrip_digits p s :
  (forall c, PyInt.is_digit c = true -> p c = false) ->
  PyStr.all_chars PyInt.is_digit s = true -> PyStr.rstrip p s = s.
Proof.
  intros Hp. induction s as [|c r IH]; [reflexivity|].
  rewrite all_chars_cons. intros [Hc Hr]%andb_true_iff. simpl.
  rewrite (IH Hr), (Hp c Hc). now destruct r.
Qed.

Lemma last_digits s :
  s <> "" -> PyStr.all_chars PyInt.is_digit s = true ->
  exists c, PyStr.last s = Some c /\ PyInt.is_digit c = true.
Proof.
  induction s as [|c r IH]; [congruence|]. intros _.
  rewrite all_chars_cons. intros [Hc Hr]%andb_true_iff.
  destruct r as [|d r']; [exists c; auto|].
  destruct IH as (x & Hx & Hd); [discriminate|assumption|].
  exists x. split; [|assumption]. simpl in *. exact Hx.
Qed.

Lemma last_app a b : b <> "" -> PyStr.last (a ++ b)%string = PyStr.last b.
Proof.
  intros Hb. induction a as [|c r IH]; [reflexivity|]. simpl.
  assert (Hne : (r ++ b)%string <> "").
  { destruct r; simpl; [assumption|discriminate]. }
  destruct (r ++ b)%string eqn:E; [congruence|exact IH].
Qed.

(** [int(str(n)) == n] *)
Lemma int_str n : 0 <= n -> PyInt.int (PyInt.str n) = Some n.
Proof.
  intros Hn. pose proof (str_all_digits n Hn) as Hd.
  pose proof (str_nonempty n) as Hne.
  unfold PyInt.int, PyInt.strip.
  rewrite (lstrip_digits _ _ (fun c H => proj1 (digit_is_plain c H)) Hd).
  rewrite (rstrip_digits _ _ (fun c H => proj1 (digit_is_plain c H)) Hd).
  destruct (PyInt.str n) as [|c r] eqn:E; [congruence|].
  rewrite all_chars_cons in Hd. apply andb_true_iff in Hd as [Hc _].
  destruct (digit_is_plain c Hc) as (_ & _ & _ & ->). rewrite <- E.
  unfold PyInt.str.
  assert (Hf : (Z.to_nat n < S (Z.to_nat n))%nat) by lia.
  destruct (dec_digits_value (S (Z.to_nat n)) n "" Hn Hf) as [m Hm].
  rewrite Hm. reflexivity.
Qed.

End Decimal.

(** The signed-N rule of the specification: no sign, equal to [n]; [+],
    strictly greater; [-], strictly less. *)
Definition signed_N_rule (sign : string) (val n : Z) : bool :=
  if String.eqb sign "+" then n <? val
  else if String.eqb sign "-" then val <? n
  else val =? n.

Lemma startswith_sign_digit sg c r :
  In sg ["+"; "-"] -> PyInt.is_digit c = true ->
  PyStr.startswith sg (String c r) = false.
Proof.
  intros Hs. unfold PyStr.startswith.
  destruct Hs as [<-|[<-|[]]];
    destruct c as [[] [] [] [] [] [] [] []]; try discriminate;
    intros _; reflexivity.
Qed.

(** C7. With no unit suffix the size predicate counts blocks of 512
    bytes, rounded up: for a file of [st_size] bytes and the argument
    [sign N], it answers the signed-N rule on the number [blocks] with
    [512 * (blocks - 1) < st_size <= 512 * blocks]. *)
Theorem size_counts_blocks_rounded_up lib opts path s st n sign :
  Fs.lstat (fs s) path = Some st -> 0 <= n -> In sign [""; "+"; "-"] ->
  exists f blocks,
    assoc "-size" (_tests lib opts) = Some f
    /\ 512 * (blocks - 1) < st_size st <= 512 * blocks
    /\ f path [Some (sign ++ PyInt.str n)%string] s
       = Ok (signed_N_rule sign blocks n) s.
Proof.
  intros Hst Hn Hsign.
  exists (one_arg _test_size), ((st_size st + 512 - 1) / 512).
  split; [reflexivity|]. split.
  { pose proof (Z.div_mod (st_size st + 512 - 1) 512).
    pose proof (Z.mod_pos_bound (st_size st + 512 - 1) 512). lia. }
  pose proof (str_all_digits n Hn) as Hd.
  pose proof (str_nonempty n) as Hne.
  pose proof (int_str n Hn) as Hint.
  destruct (last_digits _ Hne Hd) as (u & Hu & Hud).
  destruct (digit_is_plain u Hud) as (_ & _ & Hunit & _).
  unfold one_arg, _test_size.
  rewrite (last_app sign _ Hne), Hu, Hunit.
  unfold bind. rewrite (os_lstat_Some _ _ _ Hst).
  destruct (PyInt.str n) as [|c r] eqn:E; [congruence|].
  rewrite all_chars_cons in Hd. apply andb_true_iff in Hd as [Hc _].
  destruct (digit_is_plain c Hc) as (_ & Hsg & _ & _).
  destruct Hsign as [<-|[<-|[<-|[]]]].
  - change ("" ++ String c r)%string with (String c r).
    rewrite !startswith_sign_digit by (simpl; tauto).
    simpl. rewrite Hsg, Hint. reflexivity.
  - change ("+" ++ String c r)%string with (String "+" (String c r)).
    simpl. rewrite Hsg, Hint. reflexivity.
  - change ("-" ++ String c r)%string with (String "-" (String c r)).
    simpl. rewrite Hsg, Hint. reflexivity.
Qed.

(** A file of 513 bytes has two blocks: it satisfies [-size 2] and
    neither [-size -2] nor [-size +2]. *)
Lemma size_counts_blocks_rounded_up_witness :
  let s := initial_state scenario_fs [] in
  Fs.lstat (fs s) "t/sub/b.log" = Some (n_lstat (regular_file 513 0))
  /\ (exists f blocks,
         assoc "-size" (_tests quiet_lib default_options) = Some f
         /\ 512 * (blocks - 1) < 513 <= 512 * blocks
         /\ f "t/sub/b.log" [Some ("" ++ PyInt.str 2)%string] s
            = Ok (signed_N_rule "" blocks 2) s)
  /\ _test_size "t/sub/b.log" (Some "2") s = Ok true s
  /\ _test_size "t/sub/b.log" (Some "-2") s = Ok false s
  /\ _test_size "t/sub/b.log" (Some "+2") s = Ok false s.
Proof.
  intros s.
  assert (H : Fs.lstat (fs s) "t/sub/b.log" = Some (n_lstat (regular_file 513 0)))
    by (vm_compute; reflexivity).
  split; [exact H|]. split.
  - apply (size_counts_blocks_rounded_up quiet_lib default_options
             "t/sub/b.log" s (n_lstat (regular_file 513 0)) 2 "" H);
      [lia|simpl; tauto].
  - repeat split; vm_compute; reflexivity.
Defined.

(* ===================================================================== *)
(** ** Pruning in pre-order mode *)
(* ===================================================================== *)

(** Running a computation up to the next test it cannot decide: the head
    of the left-hand side is reduced, and nothing under a binder is. *)
Ltac run_head :=
  match goal with
  | |- ?l = _ =>
      let l' := eval lazy head beta iota zeta delta
                  -[Fs.isdir Fs.stat Fs.lstat Fs.islink Fs.scandir Fs.exists_
                    union singleton elem_of bool_decide OsPath.basename
                    OsPath.join String.append lib_fnmatch nl for_each] in l in
      change l with l'
  end;
  cbn [fs pos prune_paths ticks stdin trace set_pos set_fs set_ticks
       set_stdin set_prune_paths emit].

(** The same for the traversal, the evaluation of an entry taken as one
    step. *)
Ltac walk_head :=
  match goal with
  | |- ?l = _ =>
      let l' := eval lazy head beta iota zeta delta
                  -[Fs.isdir Fs.stat Fs.lstat Fs.islink Fs.scandir Fs.exists_
                    union singleton elem_of bool_decide OsPath.basename
                    OsPath.join String.append lib_fnmatch nl for_each
                    evaluate_entry] in l in
      change l with l'
  end;
  cbn [fs pos prune_paths ticks stdin trace set_pos set_fs set_ticks
       set_stdin set_prune_paths emit].

Ltac walk_loops :=
  match goal with
  | |- ?l = _ =>
      let l' := eval lazy head beta iota zeta delta
                  -[Fs.isdir Fs.stat Fs.lstat Fs.islink Fs.scandir Fs.exists_
                    union singleton elem_of bool_decide OsPath.basename
                    String.append lib_fnmatch nl evaluate_entry] in l in
      change l with l'
  end;
  cbn [fs pos prune_paths ticks stdin trace set_pos set_fs set_ticks
       set_stdin set_prune_paths emit].

Definition prune_tokens : list string :=
  ["-name"; "sub"; "-prune"; "-o"; "-print"].

Lemma scandir_dirs (f : filesys) top dirs files :
  Fs.scandir f top = Some (dirs, files) ->
  Fs.exists_ f top = true
  /\ Forall (fun d => Fs.isdir f (OsPath.join top d) = true) dirs.
Proof.
  unfold Fs.scandir, Fs.listdir, Fs.exists_, Fs.stat.
  destruct (Fs.resolve Fs.symloop_max f top) as [n|]; [|discriminate].
  destruct (Fs.S_ISDIR (n_lstat n)); [|discriminate].
  intros [= <- _]. split; [reflexivity|].
  apply List.Forall_forall. intros d Hd. apply filter_In in Hd. tauto.
Qed.

Section PruneRun.

Variable lib : Lib.
(** [fnmatch] with the pattern [sub] matches the name [sub] only. *)
Hypothesis fnmatch_sub :
  forall name, lib_fnmatch lib name "sub" = String.eqb name "sub".

Lemma evaluate_not_sub path s :
  OsPath.basename path <> "sub" ->
  evaluate_entry lib default_options prune_tokens path s
  = Ok true (set_pos 5 (emit (Stdout (path ++ nl)%string) s)).
Proof.
  intros H. apply String.eqb_neq in H.
  run_head. rewrite fnmatch_sub, H. run_head. reflexivity.
Qed.

Lemma evaluate_sub path s :
  OsPath.basename path = "sub" -> Fs.isdir (fs s) path = true ->
  evaluate_entry lib default_options prune_tokens path s
  = Ok true (set_pos 5 (set_prune_paths ({[ path ]} ∪ prune_paths s) s)).
Proof.
  intros H Hd. apply String.eqb_eq in H.
  run_head. rewrite fnmatch_sub, H. run_head. rewrite Hd. run_head.
  reflexivity.
Qed.

(** The state after the entries [names] of [root] have been printed. *)
Definition printed (root : string) (names : list string) (s : state) : state :=
  fold_left
    (fun s name =>
       set_pos 5 (emit (Stdout (OsPath.join root name ++ nl)%string) s))
    names s.

Lemma for_each_printed root (f : string -> M unit) names :
  (forall name s, In name names ->
      f name s
      = Ok tt (set_pos 5 (emit (Stdout (OsPath.join root name ++ nl)%string) s)))
  -> forall s, for_each f names s = Ok tt (printed root names s).
Proof.
  induction names as [|x r IH]; intros Hf s; [reflexivity|].
  simpl. unfold bind. rewrite Hf by (now left).
  apply IH. intros name s' Hin. apply Hf. now right.
Qed.

Lemma printed_fields root names s :
  trace (printed root names s)
  = trace s ++ map (fun name => Stdout (OsPath.join root name ++ nl)%string) names
  /\ fs (printed root names s) = fs s
  /\ prune_paths (printed root names s) = prune_paths s
  /\ stdin (printed root names s) = stdin s.
Proof.
  revert s. induction names as [|x r IH]; intros s; simpl.
  - now rewrite app_nil_r.
  - destruct (IH (set_pos 5 (emit (Stdout (OsPath.join root x ++ nl)%string) s)))
      as (-> & -> & -> & ->).
    simpl. now rewrite <- app_assoc.
Qed.

Variable fs0 : filesys.
Variable stdin0 : list string.
Variable files : list string.
Hypothesis scan_dirA : Fs.scandir fs0 "dirA" = Some (["sub"], files).
Hypothesis files_not_sub :
  Forall (fun f => OsPath.basename (OsPath.join "dirA" f) <> "sub") files.

Lemma print_file name s :
  In name files ->
  (if 0 <=? 0 + 1
   then evaluate_entry lib default_options prune_tokens
          (OsPath.join "dirA" name) ;; ret tt
   else ret tt) s
  = Ok tt (set_pos 5 (emit (Stdout (OsPath.join "dirA" name ++ nl)%string) s)).
Proof.
  intros Hin. rewrite List.Forall_forall in files_not_sub.
  walk_head. rewrite evaluate_not_sub by auto. reflexivity.
Qed.

Lemma printed_fs root names s : fs (printed root names s) = fs s.
Proof. apply printed_fields. Qed.

Lemma printed_prune_paths root names s :
  prune_paths (printed root names s) = prune_paths s.
Proof. apply printed_fields. Qed.

Ltac known :=
  try change (OsPath.join "dirA" "sub") with "dirA/sub";
  cbn [fs pos prune_paths ticks stdin trace set_pos set_fs set_ticks
       set_stdin set_prune_paths emit];
  rewrite ?printed_fs, ?printed_prune_paths;
  repeat match goal with
         | |- context [bool_decide (?x ∈ ∅)] =>
             rewrite (bool_decide_eq_false_2 (x ∈ ∅))
               by apply not_elem_of_empty
         end;
  cbn [fs pos prune_paths ticks stdin trace set_pos set_fs set_ticks
       set_stdin set_prune_paths emit].

Lemma printed_trace root names s :
  trace (printed root names s)
  = trace s ++ map (fun name => Stdout (OsPath.join root name ++ nl)%string) names.
Proof. apply printed_fields. Qed.

Lemma singleton_twice (x : string) (X : gset string) :
  X = {[ x ]} ∪ ∅ \/ X = {[ x ]} ∪ ({[ x ]} ∪ ∅) -> X = {[ x ]}.
Proof.
  intros [->| ->]; apply set_eq; intros y;
    rewrite !elem_of_union, elem_of_empty; tauto.
Qed.

(** The state after the step of the walk at [dirA]. *)
Definition after_dirA : state :=
  set_pos 5
    (set_prune_paths ({[ "dirA/sub" ]} ∪ ∅)
       (printed "dirA" files
          (set_pos 5
             (emit (Stdout ("dirA" ++ nl)%string)
                (initial_state fs0 stdin0))))).

Lemma after_dirA_fs : fs after_dirA = fs0.
Proof. unfold after_dirA. cbn [fs set_pos set_prune_paths]. now rewrite printed_fs. Qed.

Lemma dirA_sub_isdir : Fs.isdir fs0 "dirA/sub" = true.
Proof.
  destruct (scandir_dirs _ _ _ _ scan_dirA) as [_ Hsub].
  now apply Forall_inv in Hsub.
Qed.

(** The step of the walk at [dirA]: [dirA] and its files are printed, and
    [dirA/sub] is pruned when it is evaluated among the directories. *)
Lemma preorder_body_dirA :
  preorder_body lib default_options prune_tokens "dirA" "dirA" ["sub"] files
    (initial_state fs0 stdin0)
  = Ok ["sub"] after_dirA.
Proof.
  pose proof dirA_sub_isdir as Hsub.
  unfold initial_state, after_dirA.
  walk_head. rewrite evaluate_not_sub by discriminate. walk_head. known.
  walk_head.
  rewrite (for_each_printed "dirA" _ files) by (intros; now apply print_file).
  walk_loops. known. walk_loops.
  rewrite evaluate_sub by (known; auto). walk_loops. known. walk_loops.
  reflexivity.
Qed.

(** The step of the walk at [dirA/sub]: the directory is evaluated again,
    is in the Prune Set, and the step ends there, whatever the directory
    holds. *)
Lemma preorder_body_sub dirs' files' :
  exists s',
    preorder_body lib default_options prune_tokens "dirA" "dirA/sub" dirs'
      files' after_dirA
    = Ok [] s'
    /\ trace s' = trace after_dirA /\ fs s' = fs0
    /\ prune_paths s' = {[ "dirA/sub" ]} ∪ ({[ "dirA/sub" ]} ∪ ∅).
Proof.
  pose proof dirA_sub_isdir as Hsub.
  eexists. split.
  - unfold after_dirA, initial_state. walk_head.
    rewrite evaluate_sub by (known; auto). walk_loops.
    rewrite bool_decide_eq_true_2
      by (apply elem_of_union_l, elem_of_singleton; reflexivity).
    walk_loops. reflexivity.
  - unfold after_dirA. cbn [fs pos prune_paths trace set_pos set_prune_paths emit].
    now rewrite printed_fs.
Qed.

Lemma walk_dirA n :
  exists s',
    walk_topdown lib default_options prune_tokens "dirA" (S (S n)) "dirA"
      (initial_state fs0 stdin0) = Ok tt s'
    /\ trace s'
       = Stdout ("dirA" ++ nl)%string
         :: map (fun f => Stdout (OsPath.join "dirA" f ++ nl)%string) files
    /\ prune_paths s' = {[ "dirA/sub" ]}
    /\ fs s' = fs0.
Proof.
  assert (Htrace : trace after_dirA
                   = Stdout ("dirA" ++ nl)%string
                     :: map (fun f => Stdout (OsPath.join "dirA" f ++ nl)%string)
                          files).
  { unfold after_dirA. cbn [trace set_pos set_prune_paths].
    now rewrite printed_trace. }
  assert (Hstep :
    walk_topdown lib default_options prune_tokens "dirA" (S (S n)) "dirA"
      (initial_state fs0 stdin0)
    = (if negb (Fs.islink fs0 "dirA/sub")
       then walk_topdown lib default_options prune_tokens "dirA" (S n)
              "dirA/sub"
       else ret tt) after_dirA).
  { cbn [walk_topdown]. unfold bind at 1, gets at 1.
    change (fs (initial_state fs0 stdin0)) with fs0. rewrite scan_dirA.
    unfold bind at 1. rewrite preorder_body_dirA.
    cbn [for_each]. unfold bind at 1, bind at 1, gets at 1.
    rewrite after_dirA_fs.
    change (OsPath.join "dirA" "sub") with "dirA/sub".
    change (follow default_options) with false. cbn [orb].
    destruct (negb (Fs.islink fs0 "dirA/sub")); [|reflexivity].
    match goal with
    | |- match ?x with _ => _ end = _ => destruct x as [[] ?| |]
    end; reflexivity. }
  rewrite Hstep. clear Hstep.
  destruct (negb (Fs.islink fs0 "dirA/sub")).
  2:{ exists after_dirA. rewrite Htrace, after_dirA_fs.
      repeat split; apply singleton_twice; now left. }
  cbn [walk_topdown]. unfold bind at 1, gets at 1. rewrite after_dirA_fs.
  destruct (Fs.scandir fs0 "dirA/sub") as [[dirs' files']|].
  2:{ exists after_dirA. rewrite Htrace, after_dirA_fs.
      repeat split; apply singleton_twice; now left. }
  destruct (preorder_body_sub dirs' files') as (s' & Hs' & Ht & Hf & Hp).
  exists s'. unfold bind. rewrite Hs'. cbn [for_each]. rewrite Ht, Htrace.
  repeat split; try assumption; apply singleton_twice; now right.
Qed.

End PruneRun.

Lemma has_sep_cons c r :
  OsPath.has_sep (String c r)
  = Ascii.eqb OsPath.sep c || OsPath.has_sep r.
Proof.
  unfold OsPath.has_sep. cbn [PyStr.count].
  destruct (Ascii.eqb OsPath.sep c); [reflexivity|].
  now rewrite Nat.add_0_l.
Qed.

Lemma basename_cons c r :
  OsPath.basename (String c r)
  = if OsPath.has_sep r then OsPath.basename r
    else if Ascii.eqb c OsPath.sep then r else String c r.
Proof. reflexivity. Qed.

Lemma basename_join_dirA f :
  OsPath.has_sep f = false -> OsPath.basename (OsPath.join "dirA" f) = f.
Proof.
  intros Hf.
  assert (Hs : PyStr.startswith "/" f = false).
  { destruct f as [|c r]; [reflexivity|].
    rewrite has_sep_cons in Hf. apply orb_false_iff in Hf as [Hc _].
    unfold PyStr.startswith. cbn [String.prefix].
    destruct (ascii_dec "/" c) as [He|]; [|reflexivity].
    subst c. discriminate Hc. }
  unfold OsPath.join. rewrite Hs.
  change (PyStr.last "dirA") with (Some "A"%char).
  cbv iota beta.
  replace (Ascii.eqb "A"%char OsPath.sep) with false by reflexivity.
  change ("dirA" +:+ "/" +:+ f)
    with (String "d" (String "i" (String "r" (String "A" (String "/" f))))).
  assert (H1 : OsPath.has_sep (String "/" f) = true)
    by (now rewrite has_sep_cons).
  assert (H2 : OsPath.has_sep (String "A" (String "/" f)) = true)
    by (now rewrite has_sep_cons, H1).
  assert (H3 : OsPath.has_sep (String "r" (String "A" (String "/" f))) = true)
    by (now rewrite has_sep_cons, H2).
  assert (H4 : OsPath.has_sep
                 (String "i" (String "r" (String "A" (String "/" f)))) = true)
    by (now rewrite has_sep_cons, H3).
  rewrite basename_cons, H4, basename_cons, H3, basename_cons, H2,
    basename_cons, H1, basename_cons, Hf.
  reflexivity.
Qed.

(** C6. In pre-order mode, for a directory [dirA] that holds the
    directory [sub] and the files [files], none of them named [sub],
    [find dirA -name sub -prune -o -print] prints [dirA] and the files
    directly under it and nothing else, whatever [dirA/sub] holds; [sub]
    is the one path in the Prune Set at the end. *)
Theorem prune_excludes_what_is_under_sub lib fs0 stdin0 files n :
  (forall name, lib_fnmatch lib name "sub" = String.eqb name "sub") ->
  Fs.scandir fs0 "dirA" = Some (["sub"], files) ->
  Forall (fun f => OsPath.has_sep f = false /\ f <> "sub") files ->
  exists s',
    main lib (S (S n))
      ["find.py"; "dirA"; "-name"; "sub"; "-prune"; "-o"; "-print"]
      fs0 stdin0
    = Some (0, s')
    /\ trace s'
       = Stdout ("dirA" ++ nl)%string
         :: map (fun f => Stdout (OsPath.join "dirA" f ++ nl)%string) files
    /\ prune_paths s' = {[ "dirA/sub" ]}
    /\ fs s' = fs0.
Proof.
  intros Hfn Hscan Hfiles.
  assert (Hnames :
            Forall (fun f => OsPath.basename (OsPath.join "dirA" f) <> "sub")
              files).
  { eapply Forall_impl; [exact Hfiles|]. intros f [Hs Hne].
    now rewrite basename_join_dirA. }
  destruct (walk_dirA lib Hfn fs0 stdin0 files Hscan Hnames n)
    as (s' & Hw & Ht & Hp & Hf).
  destruct (scandir_dirs _ _ _ _ Hscan) as [Hex _].
  exists s'. split; [|auto].
  unfold main.
  change (__init__ (tail ["find.py"; "dirA"; "-name"; "sub"; "-prune"; "-o";
                          "-print"]))
    with (@inr exn finder (mk_finder ["dirA"] default_options prune_tokens)).
  cbn [length Nat.eqb existsb String.eqb Ascii.eqb Bool.eqb orb paths
       f_options f_tokens].
  unfold run. cbn [for_each]. unfold bind at 1, bind at 1, gets at 1.
  change (fs (initial_state fs0 stdin0)) with fs0. rewrite Hex.
  cbn [negb]. unfold _walk. change (depth default_options) with false.
  cbv iota. rewrite Hw. reflexivity.
Qed.

Lemma sample_fnmatch_sub name :
  sample_fnmatch name "sub" = String.eqb name "sub".
Proof.
  unfold sample_fnmatch.
  destruct name as [|c1 [|c2 [|c3 [|c4 r]]]]; simpl;
    rewrite ?(Ascii.eqb_sym "s"), ?(Ascii.eqb_sym "u"), ?(Ascii.eqb_sym "b");
    try reflexivity;
    repeat match goal with
           | |- context [Ascii.eqb ?c ?d] => destruct (Ascii.eqb c d)
           end; reflexivity.
Qed.

Lemma prune_excludes_what_is_under_sub_witness :
  ((forall name, lib_fnmatch quiet_lib name "sub" = String.eqb name "sub")
   /\ Fs.scandir prune_fs "dirA" = Some (["sub"], ["top"])
   /\ Forall (fun f => OsPath.has_sep f = false /\ f <> "sub") ["top"])
  /\ exists s',
      main quiet_lib 2
        ["find.py"; "dirA"; "-name"; "sub"; "-prune"; "-o"; "-print"]
        prune_fs []
      = Some (0, s')
      /\ trace s'
         = Stdout ("dirA" ++ nl)%string
           :: map (fun f => Stdout (OsPath.join "dirA" f ++ nl)%string) ["top"]
      /\ prune_paths s' = {[ "dirA/sub" ]}
      /\ fs s' = prune_fs.
Proof.
  assert (H1 : forall name,
             lib_fnmatch quiet_lib name "sub" = String.eqb name "sub")
    by exact sample_fnmatch_sub.
  assert (H2 : Fs.scandir prune_fs "dirA" = Some (["sub"], ["top"]))
    by (vm_compute; reflexivity).
  assert (H3 : Forall (fun f => OsPath.has_sep f = false /\ f <> "sub") ["top"]).
  { constructor; [|constructor]. split; [reflexivity|discriminate]. }
  split; [auto|].
  exact (prune_excludes_what_is_under_sub quiet_lib prune_fs [] ["top"] 0
           H1 H2 H3).
Defined.

(** What the run of the witness prints, computed. *)
Example prune_run_output :
  exists s',
    main quiet_lib 3
      ["find.py"; "dirA"; "-name"; "sub"; "-prune"; "-o"; "-print"]
      prune_fs []
    = Some (0, s')
    /\ trace s' = [ Stdout ("dirA" ++ nl)%string;
                    Stdout ("dirA/top" ++ nl)%string ].
Proof. eexists. split; [vm_compute; reflexivity|reflexivity]. Qed.

Lemma prune_set_gains_only_by_prune_witness :
  let s := initial_state scenario_fs [] in
  let toks := ["-name"; "sub"; "-prune"] in
  (Fs.isdir (fs s) "t/a.txt" = false /\ Fs.isdir (fs s) "t/sub" = true)
  /\ _action_prune "t/a.txt" s = Ok true s
  /\ _action_prune "t/sub" s
     = Ok true (set_prune_paths ({[ "t/sub" ]} ∪ prune_paths s) s)
  /\ exists s',
      _evaluate_expression quiet_lib default_options toks "t/sub" s
      = Ok true s'
      /\ prune_gain toks "t/sub" s s'.
Proof.
  intros s toks.
  assert (H1 : Fs.isdir (fs s) "t/a.txt" = false) by (vm_compute; reflexivity).
  assert (H2 : Fs.isdir (fs s) "t/sub" = true) by (vm_compute; reflexivity).
  split; [auto|]. split.
  { exact (proj1 (prune_set_gains_only_by_prune quiet_lib default_options toks
                    "t/a.txt" s) H1). }
  split.
  { exact (proj1 (proj2 (prune_set_gains_only_by_prune quiet_lib
                           default_options toks "t/sub" s)) H2). }
  eexists. split; [vm_compute; reflexivity|].
  eapply (proj2 (proj2 (proj2 (prune_set_gains_only_by_prune quiet_lib
                                 default_options toks "t/sub" s)))).
  vm_compute. reflexivity.
Defined.

(* ===================================================================== *)
(** ** The command line: paths, options and the default action *)
(* ===================================================================== *)


Lemma initial_paths_split args :
  initial_paths args ++ drop (length (initial_paths args)) args = args.
Proof.
  induction args as [|a r IH]; [reflexivity|]. cbn [initial_paths].
  destruct (starts_expression a); [reflexivity|].
  cbn [length drop app]. now rewrite IH.
Qed.

Lemma initial_paths_are_paths args :
  Forall (fun p => starts_expression p = false) (initial_paths args).
Proof.
  induction args as [|a r IH]; [constructor|]. cbn [initial_paths].
  destruct (starts_expression a) eqn:E; [constructor|].
  constructor; assumption.
Qed.

Lemma initial_paths_stop args :
  match drop (length (initial_paths args)) args with
  | [] => True
  | t :: _ => starts_expression t = true
  end.
Proof.
  induction args as [|a r IH]; [exact I|]. cbn [initial_paths].
  destruct (starts_expression a) eqn:E; [exact E|exact IH].
Qed.

(** X1. [_parse_initial_args] cuts the arguments in two, losing none:
    the paths are the longest run of leading arguments none of which
    starts with [-] or is one of [(], [)], [!] and [,]; the expression is
    everything after it, so it is empty or starts with such an argument;
    and when no path is given the one path is [.]. *)
Theorem parse_initial_args_splits args :
  exists given,
    given ++ snd (_parse_initial_args args) = args
    /\ Forall (fun p => starts_expression p = false) given
    /\ match snd (_parse_initial_args args) with
       | [] => True
       | t :: _ => starts_expression t = true
       end
    /\ fst (_parse_initial_args args)
       = match given with [] => ["."] | _ => given end.
Proof.
  exists (initial_paths args). unfold _parse_initial_args. cbn [fst snd].
  split; [apply initial_paths_split|].
  split; [apply initial_paths_are_paths|].
  split; [apply initial_paths_stop|reflexivity].
Qed.

(** The tokens [_pre_process_options] reads as options. *)
Definition option_names : list string :=
  [ "-maxdepth"; "-mindepth"; "-depth"; "-L"; "-follow"; "-daystart";
    "-P"; "-H"; "-warn"; "-nowarn"; "-noleaf"; "-xdev"; "-mount" ].

Definition is_option (t : string) : bool :=
  existsb (String.eqb t) option_names.

Lemma pre_process_options_step o acc token r :
  is_option token = false ->
  _pre_process_options o acc (token :: r)
  = _pre_process_options o (acc ++ [token]) r.
Proof.
  unfold is_option, option_names. cbn [existsb]. intros H.
  repeat (apply orb_false_iff in H as [?E H]).
  cbn [_pre_process_options existsb].
  now rewrite E, E0, E1, E2, E3, E4, E5, E6, E7, E8, E9, E10, E11.
Qed.

(** What reading the option [token] does to the options [o] and to the
    tokens [r] after it: a depth limit takes its value from the next
    token, the other options take none. *)
Definition reads_option (o : options) (token : string) (r : list string)
    (o1 : options) (r1 : list string) : Prop :=
  (exists v m, In token ["-maxdepth"; "-mindepth"] /\ r = v :: r1
               /\ int_or_raise v = inr m
               /\ o1 = (if String.eqb token "-maxdepth" then set_maxdepth m o
                        else set_mindepth m o))
  \/ (r1 = r
      /\ ((token = "-depth" /\ o1 = set_depth o)
          \/ (In token ["-L"; "-follow"] /\ o1 = set_follow o)
          \/ (token = "-daystart" /\ o1 = set_daystart o)
          \/ (In token ["-P"; "-H"; "-warn"; "-nowarn"; "-noleaf"; "-xdev";
                        "-mount"] /\ o1 = o))).

Lemma pre_process_options_option o acc token r res :
  is_option token = true ->
  _pre_process_options o acc (token :: r) = inr res ->
  exists o1 r1, reads_option o token r o1 r1
                /\ _pre_process_options o1 acc r1 = inr res.
Proof.
  unfold is_option, option_names, reads_option. intros Eo H. revert Eo H.
  cbn [_pre_process_options existsb].
  repeat (destruct (String.eqb token _) eqn:?E;
          [ apply String.eqb_eq in E; subst token;
            try (destruct r as [|v r']; [discriminate|];
                 destruct (int_or_raise v) as [|m] eqn:Ev; [discriminate|]);
            cbn [orb]; intros _ H; eexists _, _;
            (split; [|exact H]);
            first [ left; exists v, m; cbn [In];
                    repeat split; first [tauto|reflexivity|assumption]
                  | right; split; [reflexivity|]; cbn [In]; tauto ]
          | clear E ]).
  discriminate.
Qed.

Lemma reads_option_shorter o token r o1 r1 :
  reads_option o token r o1 r1 -> (length r1 <= length r)%nat.
Proof.
  intros [(v & m & _ & -> & _)|[-> _]]; simpl; lia.
Qed.

Lemma reads_option_sublist o token r o1 r1 :
  reads_option o token r o1 r1 -> sublist r1 r.
Proof.
  intros [(v & m & _ & -> & _)|[-> _]]; [now apply sublist_cons|reflexivity].
Qed.

Lemma pre_process_options_bounded n : forall tokens o acc o' new_tokens,
  (length tokens <= n)%nat ->
  _pre_process_options o acc tokens = inr (o', new_tokens) ->
  exists kept,
    new_tokens = acc ++ kept
    /\ sublist kept tokens
    /\ Forall (fun t => is_option t = false) kept.
Proof.
  induction n as [|n IH]; intros tokens o acc o' new_tokens Hlen H.
  { destruct tokens; [|simpl in Hlen; lia].
    injection H as <- <-. exists []. rewrite app_nil_r.
    repeat split; constructor. }
  destruct tokens as [|token r].
  { injection H as <- <-. exists []. rewrite app_nil_r.
    repeat split; constructor. }
  simpl in Hlen.
  destruct (is_option token) eqn:Eo.
  - destruct (pre_process_options_option _ _ _ _ _ Eo H)
      as (o1 & r1 & Hr & H1).
    pose proof (reads_option_shorter _ _ _ _ _ Hr) as Hl.
    destruct (IH r1 o1 acc o' new_tokens ltac:(lia) H1)
      as (kept & -> & Hs & Hf).
    exists kept. split; [reflexivity|]. split; [|assumption].
    apply sublist_cons. etransitivity; [exact Hs|].
    eapply reads_option_sublist; eassumption.
  - rewrite pre_process_options_step in H by assumption.
    destruct (IH r o (acc ++ [token]) o' new_tokens ltac:(lia) H)
      as (kept & -> & Hs & Hf).
    exists (token :: kept). rewrite <- app_assoc. split; [reflexivity|].
    split; [now apply sublist_skip|]. now constructor.
Qed.

(** X2. When [_pre_process_options] returns, the expression tokens it
    leaves are tokens of the list it was given, in the same order, and
    none of them is one of the options it reads ([-maxdepth], [-mindepth],
    [-depth], [-L], [-follow], [-daystart], [-P], [-H], [-warn],
    [-nowarn], [-noleaf], [-xdev], [-mount]), wherever in the expression
    the options were written. *)
Theorem pre_process_options_removes_options tokens o' new_tokens :
  _pre_process_options default_options [] tokens = inr (o', new_tokens) ->
  sublist new_tokens tokens
  /\ Forall (fun t => ~ In t option_names) new_tokens.
Proof.
  intros H.
  destruct (pre_process_options_bounded _ _ _ _ _ _ (le_n _) H)
    as (kept & -> & Hs & Hf).
  split; [exact Hs|]. cbn [app].
  eapply Forall_impl; [exact Hf|]. intros t Ht Hin.
  unfold is_option in Ht.
  assert (existsb (String.eqb t) option_names = true); [|congruence].
  apply existsb_exists. exists t. split; [exact Hin|apply String.eqb_refl].
Qed.

Lemma pre_process_options_removes_options_witness :
  _pre_process_options default_options []
    ["-name"; "x"; "-maxdepth"; "2"; "-print"; "-depth"]
  = inr (mk_options true (Some 2) 0 false false, ["-name"; "x"; "-print"])
  /\ sublist ["-name"; "x"; "-print"]
       ["-name"; "x"; "-maxdepth"; "2"; "-print"; "-depth"]
  /\ Forall (fun t => ~ In t option_names) ["-name"; "x"; "-print"].
Proof.
  assert (H : _pre_process_options default_options []
                ["-name"; "x"; "-maxdepth"; "2"; "-print"; "-depth"]
              = inr (mk_options true (Some 2) 0 false false,
                     ["-name"; "x"; "-print"]))
    by (vm_compute; reflexivity).
  split; [exact H|].
  exact (pre_process_options_removes_options _ _ _ H).
Defined.

Lemma value_is_no_flag v m t :
  int_or_raise v = inr m ->
  In t ["-depth"; "-L"; "-follow"; "-daystart"] -> v <> t.
Proof.
  intros Hv Ht ->. cbn [In] in Ht.
  destruct Ht as [<-|[<-|[<-|[<-|[]]]]]; vm_compute in Hv; discriminate.
Qed.

(** The flags [_pre_process_options] has set, and the tokens that set
    them. *)
Definition flags_follow (o : options) (tokens : list string) (o' : options)
  : Prop :=
  (depth o' = true <-> depth o = true \/ In "-depth" tokens)
  /\ (follow o' = true
      <-> follow o = true \/ In "-L" tokens \/ In "-follow" tokens)
  /\ (daystart o' = true <-> daystart o = true \/ In "-daystart" tokens).

Lemma reads_option_flags o token r o1 r1 o' :
  reads_option o token r o1 r1 -> flags_follow o1 r1 o' ->
  flags_follow o (token :: r) o'.
Proof.
  unfold flags_follow. cbn [In].
  intros [(v & m & Ht & -> & Hv & ->)|[-> Hc]] (Hd & Hf & Hs).
  - pose proof (value_is_no_flag v m "-depth" Hv ltac:(simpl; tauto)).
    pose proof (value_is_no_flag v m "-L" Hv ltac:(simpl; tauto)).
    pose proof (value_is_no_flag v m "-follow" Hv ltac:(simpl; tauto)).
    pose proof (value_is_no_flag v m "-daystart" Hv ltac:(simpl; tauto)).
    cbn [In] in *.
    destruct Ht as [<-|[<-|[]]]; cbn [String.eqb Ascii.eqb Bool.eqb] in *;
      cbn [set_maxdepth set_mindepth depth follow daystart] in *;
      repeat split; intros; intuition congruence.
  - cbn [In] in Hc.
    destruct Hc as [[-> ->]|[[Ht ->]|[[-> ->]|[Ht ->]]]];
      cbn [set_depth set_follow set_daystart depth follow daystart] in *;
      repeat match type of Ht with _ \/ _ => destruct Ht as [<-|Ht] end;
      try contradiction;
      repeat split; intros; intuition congruence.
Qed.

Lemma pre_process_options_flags n : forall tokens o acc o' new_tokens,
  (length tokens <= n)%nat ->
  _pre_process_options o acc tokens = inr (o', new_tokens) ->
  flags_follow o tokens o'.
Proof.
  induction n as [|n IH]; intros tokens o acc o' new_tokens Hlen H.
  { destruct tokens; [|simpl in Hlen; lia].
    injection H as <- <-. unfold flags_follow. simpl. tauto. }
  destruct tokens as [|token r].
  { injection H as <- <-. unfold flags_follow. simpl. tauto. }
  simpl in Hlen.
  destruct (is_option token) eqn:Eo.
  - destruct (pre_process_options_option _ _ _ _ _ Eo H)
      as (o1 & r1 & Hr & H1).
    pose proof (reads_option_shorter _ _ _ _ _ Hr) as Hl.
    eapply reads_option_flags; [exact Hr|].
    eapply (IH r1); [lia|exact H1].
  - rewrite pre_process_options_step in H by assumption.
    pose proof (IH r o _ o' new_tokens ltac:(lia) H) as (Hd & Hf & Hs).
    assert (Hne : forall t, In t option_names -> token <> t).
    { intros t Ht ->. unfold is_option in Eo.
      assert (existsb (String.eqb t) option_names = true); [|congruence].
      apply existsb_exists. exists t. split; [exact Ht|apply String.eqb_refl]. }
    pose proof (Hne "-depth" ltac:(simpl; tauto)).
    pose proof (Hne "-L" ltac:(simpl; tauto)).
    pose proof (Hne "-follow" ltac:(simpl; tauto)).
    pose proof (Hne "-daystart" ltac:(simpl; tauto)).
    unfold flags_follow. cbn [In]. repeat split; intros; intuition congruence.
Qed.

(** X3. The options are global: when [_pre_process_options] returns,
    post-order traversal is on exactly when [-depth] is written somewhere
    in the expression, links are followed exactly when [-L] or [-follow]
    is, and ages are counted from midnight exactly when [-daystart] is,
    before or after the predicates and actions. *)
Theorem options_hold_wherever_written tokens o' new_tokens :
  _pre_process_options default_options [] tokens = inr (o', new_tokens) ->
  (depth o' = true <-> In "-depth" tokens)
  /\ (follow o' = true <-> In "-L" tokens \/ In "-follow" tokens)
  /\ (daystart o' = true <-> In "-daystart" tokens).
Proof.
  intros H.
  destruct (pre_process_options_flags _ _ _ _ _ _ (le_n _) H)
    as (Hd & Hf & Hs).
  cbn [default_options depth follow daystart] in *.
  repeat split; intros; intuition congruence.
Qed.

Lemma options_hold_wherever_written_witness :
  let tokens := ["-name"; "x"; "-maxdepth"; "2"; "-print"; "-depth"] in
  let o' := mk_options true (Some 2) 0 false false in
  _pre_process_options default_options [] tokens
  = inr (o', ["-name"; "x"; "-print"])
  /\ (depth o' = true <-> In "-depth" tokens)
  /\ (follow o' = true <-> In "-L" tokens \/ In "-follow" tokens)
  /\ (daystart o' = true <-> In "-daystart" tokens).
Proof.
  intros tokens o'.
  assert (H : _pre_process_options default_options [] tokens
              = inr (o', ["-name"; "x"; "-print"]))
    by (vm_compute; reflexivity).
  split; [exact H|].
  exact (options_hold_wherever_written _ _ _ H).
Defined.

Definition has_action (tokens : list string) : bool :=
  existsb (fun arg => existsb (String.eqb arg) action_names) tokens.

(** X4. Whenever [__init__] returns, the expression it leaves names an
    action: the tokens are those [_pre_process_options] has left when one
    of them is an action name, and these followed by [-print] when none
    is. Whether a token is an action is decided on the token alone, so an
    argument spelled like an action counts as one. *)
Theorem init_expression_has_an_action args :
  match __init__ args with
  | inl _ => True
  | inr f =>
      has_action (f_tokens f) = true
      /\ exists o kept,
          _pre_process_options default_options []
            (snd (_parse_initial_args args)) = inr (o, kept)
          /\ f_options f = o
          /\ paths f = fst (_parse_initial_args args)
          /\ f_tokens f = (if has_action kept then kept else kept ++ ["-print"])
  end.
Proof.
  unfold __init__.
  destruct (_parse_initial_args args) as [ps expression]. cbn [fst snd].
  destruct (_pre_process_options default_options [] expression)
    as [e|[o kept]]; [exact I|].
  cbn [f_tokens f_options paths]. fold (has_action kept). split.
  - destruct (has_action kept) eqn:E; [exact E|].
    unfold has_action. rewrite existsb_app. cbn. apply orb_true_r.
  - exists o, kept. repeat split; reflexivity.
Qed.

(* ===================================================================== *)
(** ** Tokens the evaluator rejects *)
(* ===================================================================== *)

Lemma assoc_None {A} key (d : list (string * A)) :
  ~ In key (map fst d) -> assoc key d = None.
Proof.
  induction d as [|[k v] d IH]; [reflexivity|]. cbn [map fst In assoc].
  intros H. destruct (String.eqb key k) eqn:E.
  - apply String.eqb_eq in E. subst. tauto.
  - apply IH. tauto.
Qed.

Lemma existsb_eqb_false t (l : list string) :
  ~ In t l -> existsb (String.eqb t) l = false.
Proof.
  intros H. destruct (existsb (String.eqb t) l) eqn:E; [|reflexivity].
  apply existsb_exists in E as (x & Hx & Ex).
  apply String.eqb_eq in Ex. subst. contradiction.
Qed.

(** X5. A token that is not a test, not an action, not an opening
    parenthesis and not a negation cannot start an expression: the
    evaluation raises ValueError [Unknown expression token] for it, with
    nothing printed or done. This is what happens to [-user] and
    [-group], to a leading [-o], [-a], [)] or [,], and to any
    misspelled predicate. *)
Theorem unknown_token_is_an_error lib opts tok rest path s :
  ~ In tok test_names -> ~ In tok action_names ->
  ~ In tok ["("; "!"; "-not"] ->
  _evaluate_expression lib opts (tok :: rest) path s
  = Raise (ValueError ("Unknown expression token: " ++ tok)) (set_pos 0 s).
Proof.
  intros Ht Ha Hp.
  assert (E1 : String.eqb tok "(" = false).
  { apply String.eqb_neq. intros ->. apply Hp. simpl. tauto. }
  assert (E2 : token_in (Some tok) ["!"; "-not"] = false).
  { apply existsb_eqb_false. intros H. apply Hp. simpl in *. tauto. }
  assert (E3 : assoc tok (_tests lib opts) = None)
    by (apply assoc_None; exact Ht).
  assert (E4 : existsb (String.eqb tok) action_names = false)
    by (apply existsb_eqb_false; exact Ha).
  unfold _evaluate_expression, _parse_or_expr, or_expr, and_expr, not_expr,
    enough_fuel.
  cbn [length _parse_primary].
  unfold bind at 1. unfold modify at 1.
  unfold bind at 1, bind at 1, bind at 1, _peek at 1, gets at 1.
  cbn [pos set_pos].
  change ((tok :: rest) !! 0%nat) with (Some tok).
  rewrite E2.
  unfold bind at 1, _peek at 1, gets at 1. cbn [pos set_pos].
  change ((tok :: rest) !! 0%nat) with (Some tok). cbv beta iota.
  rewrite E1, E3, E4. reflexivity.
Qed.

Lemma unknown_token_is_an_error_witness :
  (~ In "-user" test_names /\ ~ In "-user" action_names
   /\ ~ In "-user" ["("; "!"; "-not"])
  /\ _evaluate_expression quiet_lib default_options
       ("-user" :: ["root"; "-print"]) "t" (initial_state scenario_fs [])
     = Raise (ValueError ("Unknown expression token: " ++ "-user"))
         (set_pos 0 (initial_state scenario_fs [])).
Proof.
  assert (H1 : ~ In "-user" test_names).
  { unfold test_names. cbn [In]. intros H.
    repeat (destruct H as [H|H]; [discriminate H|]). exact H. }
  assert (H2 : ~ In "-user" action_names).
  { unfold action_names. cbn [In]. intros H.
    repeat (destruct H as [H|H]; [discriminate H|]). exact H. }
  assert (H3 : ~ In "-user" ["("; "!"; "-not"]).
  { cbn [In]. intros H.
    repeat (destruct H as [H|H]; [discriminate H|]). exact H. }
  split; [auto|].
  exact (unknown_token_is_an_error quiet_lib default_options "-user"
           ["root"; "-print"] "t" (initial_state scenario_fs []) H1 H2 H3).
Defined.

(** X6. [-wholename] and [-iwholename] are in the table of tests and not
    in the list of the operators that take one argument: the evaluator
    calls them without a pattern, so that evaluating either raises
    TypeError, whatever follows it, once the token itself has been
    consumed. *)
Theorem wholename_is_called_without_its_pattern lib opts rest path s :
  _evaluate_expression lib opts ("-wholename" :: rest) path s
  = Raise (OtherError "TypeError") (set_pos 1 s)
  /\ _evaluate_expression lib opts ("-iwholename" :: rest) path s
     = Raise (OtherError "TypeError") (set_pos 1 s).
Proof. split; vm_compute; reflexivity. Qed.

(** X7. [-quit] ends the run with status 0 as soon as it is evaluated:
    what follows it in the expression is not looked at, and nothing is
    printed or changed. *)
Theorem quit_exits_at_once lib opts rest path s :
  _evaluate_expression lib opts ("-quit" :: rest) path s
  = Raise (SystemExit 0) (set_pos 1 s).
Proof. vm_compute. reflexivity. Qed.

Lemma until_semicolon_None args :
  Forall (fun a => a <> ";") args -> until_semicolon args = None.
Proof.
  induction 1 as [|a args Ha _ IH]; simpl; [reflexivity|].
  apply String.eqb_neq in Ha. now rewrite Ha, IH.
Qed.

(** When the first primary of the expression raises, so does the
    evaluation. *)
Lemma evaluate_first_primary_raises lib opts toks path s t e s' :
  toks !! 0%nat = Some t -> token_in (Some t) ["!"; "-not"] = false ->
  _parse_primary lib opts toks (enough_fuel toks) path true (set_pos 0 s)
  = Raise e s' ->
  _evaluate_expression lib opts toks path s = Raise e s'.
Proof.
  intros Ht Hn H.
  unfold _evaluate_expression, _parse_or_expr, or_expr, and_expr, not_expr.
  unfold bind at 1. unfold modify at 1.
  unfold bind at 1, bind at 1, bind at 1, _peek at 1, gets at 1.
  cbn [pos set_pos]. rewrite Ht, Hn, H. reflexivity.
Qed.

(** X8. A command action whose arguments are not closed by [;] is an
    error wherever the token list ends: the evaluation raises ValueError
    [Missing ';'] for it, with the cursor at the end of the tokens and no
    command run. *)
Theorem command_without_semicolon_is_an_error lib opts tok args path s :
  is_exec_action tok = true -> Forall (fun a => a <> ";") args ->
  _evaluate_expression lib opts (tok :: args) path s
  = Raise (ValueError ("Missing ';' for " ++ tok))
      (set_pos (S (length args)) s).
Proof.
  intros Hx Hargs.
  destruct (action_names_spec lib opts tok (is_exec_action_In tok Hx))
    as (E1 & E2 & _ & _ & E3 & E4 & _).
  apply (evaluate_first_primary_raises lib opts _ path s tok);
    [reflexivity|exact E2|].
  unfold enough_fuel. cbn [length _parse_primary].
  unfold bind at 1, _peek at 1, gets at 1. cbn [pos set_pos].
  change ((tok :: args) !! 0%nat) with (Some tok). cbv beta iota.
  rewrite E1, E3, E4, Hx.
  unfold bind at 1, _consume at 1, bind at 1, _peek at 1, gets at 1.
  cbn [pos set_pos].
  change ((tok :: args) !! 0%nat) with (Some tok). cbv beta iota.
  unfold bind at 1, modify at 1, ret at 1. cbv beta iota.
  unfold bind at 1, consume_command at 1, bind at 1, gets at 1.
  cbn [pos set_pos drop]. rewrite drop_0, (until_semicolon_None args Hargs).
  reflexivity.
Qed.

Lemma command_without_semicolon_is_an_error_witness :
  (is_exec_action "-exec" = true
   /\ Forall (fun a => a <> ";") ["rm"; "{}"])
  /\ _evaluate_expression quiet_lib default_options
       ("-exec" :: ["rm"; "{}"]) "t/a.txt" (initial_state scenario_fs [])
     = Raise (ValueError ("Missing ';' for " ++ "-exec"))
         (set_pos (S (length ["rm"; "{}"])) (initial_state scenario_fs [])).
Proof.
  assert (H : Forall (fun a : string => a <> ";") ["rm"; "{}"])
    by (repeat constructor; discriminate).
  split; [split; [reflexivity|exact H]|].
  exact (command_without_semicolon_is_an_error quiet_lib default_options
           "-exec" ["rm"; "{}"] "t/a.txt" (initial_state scenario_fs [])
           eq_refl H).
Defined.

(** From the cursor at [p], [m] does not return. *)
Definition never_returns {A} (p : nat) (m : M A) : Prop :=
  cursor_spec p m (fun _ _ => False).

(** X9. An opening parenthesis that is never closed is an error: for
    every expression [A] of the grammar, the evaluation of [( A] raises
    an exception and yields no result. *)
Theorem unclosed_parenthesis_is_an_error lib opts A path s :
  OrExpr A ->
  exists e s', _evaluate_expression lib opts ("(" :: A) path s = Raise e s'.
Proof.
  intros HA. set (toks := "(" :: A).
  assert (Hprim : forall n,
             never_returns 0 (_parse_primary lib opts toks (S n) path true)).
  { intros n. unfold never_returns. cbn [_parse_primary].
    apply cursor_peek. change (toks !! 0%nat) with (Some "(").
    cbv beta iota. change (String.eqb "(" "(") with true. cbv iota.
    eapply cursor_bind; [apply cursor_consume|].
    intros t q (_ & -> & _). change (step toks 0) with 1%nat.
    destruct (evaluator_parses_grammar lib opts toks path)
      as (_ & _ & _ & _ & _ & Hor).
    eapply cursor_bind.
    { apply (Hor A HA n n 1%nat []); [|exact I].
      unfold toks. cbn [drop]. now rewrite drop_0, app_nil_r. }
    intros v q Hq.
    eapply cursor_bind; [apply cursor_consume|].
    intros t' q' (Ht & _ & Hexp). exfalso.
    specialize (Hexp ltac:(discriminate)). rewrite Ht in Hexp.
    unfold lands_or_stops_early in Hq. destruct Hq as [->|[_ Hq]].
    - rewrite lookup_ge_None_2 in Hexp; [discriminate|]. simpl. lia.
    - rewrite Hexp in Hq. discriminate Hq. }
  pose proof (evaluate_spec lib opts toks path (fun _ => False) s) as H.
  destruct (_evaluate_expression lib opts toks path s) as [v s'|e s'|];
    [exfalso|now exists e, s'|exfalso]; apply H;
    unfold _parse_or_expr, or_expr, and_expr, not_expr, enough_fuel.
  all: apply (cursor_bind _ _ _ (fun _ _ => False));
    [|intros ? ? HF; exact (False_ind _ HF)].
  all: apply (cursor_bind _ _ _ (fun _ _ => False));
    [|intros ? ? HF; exact (False_ind _ HF)].
  all: apply cursor_peek; change (toks !! 0%nat) with (Some "(").
  all: apply Hprim.
Qed.

Lemma unclosed_parenthesis_is_an_error_witness :
  OrExpr ["-true"; "-o"; "-true"]
  /\ exists e s',
      _evaluate_expression quiet_lib default_options
        ("(" :: ["-true"; "-o"; "-true"]) "t" (initial_state scenario_fs [])
      = Raise e s'.
Proof.
  split; [exact grammar_true_or_true|].
  exact (unclosed_parenthesis_is_an_error quiet_lib default_options
           ["-true"; "-o"; "-true"] "t" (initial_state scenario_fs [])
           grammar_true_or_true).
Defined.

(* ===================================================================== *)
(** ** What the tests and the skipped operands leave alone *)
(* ===================================================================== *)

(** X10. A test only reads: whatever test of the table is called, on
    whatever path and with whatever arguments, the call returns or
    raises, and the cursor, the Prune Set, the file system and standard
    input are as before. *)
Theorem tests_only_read lib opts tok f path args s :
  assoc tok (_tests lib opts) = Some f ->
  match f path args s with
  | Ok _ s' | Raise _ s' =>
      pos s' = pos s /\ prune_paths s' = prune_paths s /\ fs s' = fs s
      /\ stdin s' = stdin s
  | OutOfFuel => False
  end.
Proof.
  intros H. apply assoc_In in H.
  exact (proj1 (List.Forall_forall _ _) (tests_frame lib opts) _ H path args s).
Qed.

Lemma tests_only_read_witness :
  assoc "-newer" (_tests quiet_lib default_options)
  = Some (one_arg _test_newer)
  /\ match one_arg _test_newer "t" [Some "absent"]
             (initial_state scenario_fs []) with
     | Ok _ s' | Raise _ s' =>
         pos s' = pos (initial_state scenario_fs [])
         /\ prune_paths s' = prune_paths (initial_state scenario_fs [])
         /\ fs s' = fs (initial_state scenario_fs [])
         /\ stdin s' = stdin (initial_state scenario_fs [])
     | OutOfFuel => False
     end.
Proof.
  split; [reflexivity|].
  exact (tests_only_read quiet_lib default_options "-newer" _ "t"
           [Some "absent"] (initial_state scenario_fs []) eq_refl).
Defined.

Lemma or_true_skips lib opts B path s :
  let toks := "-true" :: "-o" :: B in
  _evaluate_expression lib opts toks path s
  = match and_expr toks (_parse_primary lib opts toks (S (length toks)))
            (length toks) path false (set_pos 2 s) with
    | Ok _ s' => Ok true s'
    | Raise e s' => Raise e s'
    | OutOfFuel => OutOfFuel
    end.
Proof. reflexivity. Qed.

(** [m] changes nothing but the cursor, and returns false when it
    returns. *)
Definition skips_to_false (m : M bool) : Prop :=
  forall s, match m s with
            | Ok v s' => v = false /\ only_cursor s s'
            | Raise _ s' => only_cursor s s'
            | OutOfFuel => True
            end.

Lemma skips_to_false_bind {A} (m : M A) (k : A -> M bool) :
  keeps_if_done only_cursor m -> (forall a, skips_to_false (k a)) ->
  skips_to_false (bind m k).
Proof.
  intros Hm Hk s. unfold bind. specialize (Hm s).
  destruct (m s) as [a s1|e s1|]; [|assumption|exact I].
  specialize (Hk a s1). destruct (k a s1) as [v s2|e s2|]; [| |exact I].
  - destruct Hk as [-> Hk]. split; [reflexivity|].
    eapply only_cursor_trans; eassumption.
  - eapply only_cursor_trans; eassumption.
Qed.

Section Skipped.

Variable lib : Lib.
Variable opts : options.
Variable toks : list string.
Variable path : string.
Hypothesis no_parenthesis : ~ In "(" toks.

Lemma skipped_and_expr fuel k :
  keeps_if_done only_cursor
    (and_expr toks (_parse_primary lib opts toks fuel) k path false).
Proof.
  unfold and_expr.
  apply keeps_if_done_bind; [apply only_cursor_trans| |].
  - apply (suppressed_not_expr lib opts toks path no_parenthesis).
  - intros left. apply (suppressed_and_loop lib opts toks path no_parenthesis).
Qed.

(** Once the left-hand side of an AND is false, the loop of
    [_parse_and_expr] only skips. *)
Lemma and_loop_after_false fuel k :
  skips_to_false
    (and_loop toks (_parse_primary lib opts toks fuel) k path true false).
Proof.
  induction k as [|k IH]; [intros s; exact I|]. cbn [and_loop].
  intros s. unfold bind at 1, _peek at 1, gets at 1.
  destruct (toks !! pos s) as [t|];
    [|split; [reflexivity|apply only_cursor_refl]].
  destruct (token_in (Some t) ["-o"; "-or"; ")"; ","]);
    [split; [reflexivity|apply only_cursor_refl]|].
  revert s. fold (skips_to_false
    ((if token_in (Some t) ["-a"; "-and"]
      then _consume toks None;; ret tt else ret tt);;
     (if negb true || negb false
      then not_expr toks (_parse_primary lib opts toks fuel) path false;;
           and_loop toks (_parse_primary lib opts toks fuel) k path true false
      else let* right := not_expr toks (_parse_primary lib opts toks fuel)
                           path true in
           and_loop toks (_parse_primary lib opts toks fuel) k path true
             (false && right)))).
  apply skips_to_false_bind.
  { destruct (token_in (Some t) ["-a"; "-and"]).
    - apply keeps_if_done_bind; [apply only_cursor_trans| |].
      + apply kd_consume;
          [apply only_cursor_refl|apply only_cursor_trans
          |apply only_cursor_set_pos].
      + intros a s. apply only_cursor_refl.
    - intros s. apply only_cursor_refl. }
  intros _. cbn [negb orb].
  apply skips_to_false_bind; [|intros _; exact IH].
  apply (suppressed_not_expr lib opts toks path no_parenthesis).
Qed.

Lemma or_loop_without_or primary k left s :
  ~ In "-o" toks -> ~ In "-or" toks ->
  or_loop toks primary (S k) path left s = Ok left s.
Proof.
  intros H1 H2. cbn [or_loop]. unfold bind, _peek, gets.
  destruct (toks !! pos s) as [t|] eqn:Et; [|reflexivity].
  apply list_elem_of_lookup_2, list_elem_of_In in Et.
  assert (E : token_in (Some t) ["-o"; "-or"] = false).
  { unfold token_in. cbn [existsb].
    destruct (String.eqb_spec t "-o"); [subst; contradiction|].
    destruct (String.eqb_spec t "-or"); [subst; contradiction|].
    reflexivity. }
  now rewrite E.
Qed.

End Skipped.

Lemma and_false_skips lib opts B path s :
  let toks := "-false" :: "-a" :: B in
  let primary := _parse_primary lib opts toks (S (length toks)) in
  _evaluate_expression lib opts toks path s
  = bind (bind (not_expr toks primary path false)
            (fun _ => and_loop toks primary (length toks) path true false))
      (or_loop toks primary (S (length toks)) path) (set_pos 2 s).
Proof. reflexivity. Qed.

(** X11. An operand that a short circuit skips and that has no
    parenthesis in it has no effect. After a true left-hand side of OR,
    the evaluation of [-true -o B] changes nothing but the cursor and
    yields true, whatever actions [B] names, unless the syntax of [B]
    raises; after a false left-hand side of AND, the evaluation of
    [-false -a B] changes nothing but the cursor and yields false, when
    [B] has no OR in it either. *)
Theorem skipped_operand_has_no_effect lib opts B path s :
  ~ In "(" B ->
  match _evaluate_expression lib opts ("-true" :: "-o" :: B) path s with
  | Ok v s' => v = true /\ s' = set_pos (pos s') s
  | Raise _ s' => s' = set_pos (pos s') s
  | OutOfFuel => False
  end
  /\ (~ In "-o" B -> ~ In "-or" B ->
      match _evaluate_expression lib opts ("-false" :: "-a" :: B) path s with
      | Ok v s' => v = false /\ s' = set_pos (pos s') s
      | Raise _ s' => s' = set_pos (pos s') s
      | OutOfFuel => False
      end).
Proof.
  intros HB. split.
  - assert (Hp : ~ In "(" ("-true" :: "-o" :: B)).
    { cbn [In]. intros [H|[H|H]]; [discriminate H|discriminate H|tauto]. }
    pose proof (_evaluate_expression_returns lib opts
                  ("-true" :: "-o" :: B) path s) as Hr.
    rewrite or_true_skips in *. cbv zeta in *.
    pose proof (skipped_and_expr lib opts _ path Hp
                  (S (length ("-true" :: "-o" :: B)))
                  (length ("-true" :: "-o" :: B)) (set_pos 2 s)) as H.
    destruct (and_expr _ _ _ _ _ _) as [v s'|e s'|]; [| |congruence].
    + split; [reflexivity|]. unfold only_cursor in H. rewrite H at 1.
      reflexivity.
    + unfold only_cursor in H. rewrite H at 1. reflexivity.
  - intros Ho Hor.
    assert (Hp : ~ In "(" ("-false" :: "-a" :: B)).
    { cbn [In]. intros [H|[H|H]]; [discriminate H|discriminate H|tauto]. }
    assert (Ho' : ~ In "-o" ("-false" :: "-a" :: B)).
    { cbn [In]. intros [H|[H|H]]; [discriminate H|discriminate H|tauto]. }
    assert (Hor' : ~ In "-or" ("-false" :: "-a" :: B)).
    { cbn [In]. intros [H|[H|H]]; [discriminate H|discriminate H|tauto]. }
    pose proof (_evaluate_expression_returns lib opts
                  ("-false" :: "-a" :: B) path s) as Hr.
    rewrite and_false_skips in *. cbv zeta in *.
    set (toks := "-false" :: "-a" :: B) in *.
    set (primary := _parse_primary lib opts toks (S (length toks))) in *.
    set (m := bind (not_expr toks primary path false)
                (fun _ => and_loop toks primary (length toks) path true false))
      in *.
    assert (H : skips_to_false m).
    { apply skips_to_false_bind.
      - apply (suppressed_not_expr lib opts toks path Hp).
      - intros _. apply (and_loop_after_false lib opts toks path Hp). }
    specialize (H (set_pos 2 s)). revert Hr H. unfold bind.
    destruct (m (set_pos 2 s)) as [v s'|e s'|]; [| |congruence].
    + intros _ [-> H]. rewrite or_loop_without_or by assumption.
      split; [reflexivity|]. unfold only_cursor in H. rewrite H at 1.
      reflexivity.
    + intros _ H. unfold only_cursor in H. rewrite H at 1. reflexivity.
Qed.

Lemma skipped_operand_has_no_effect_witness :
  ~ In "(" ["-delete"]
  /\ match _evaluate_expression quiet_lib default_options
             ("-true" :: "-o" :: ["-delete"]) "t/a.txt"
             (initial_state scenario_fs []) with
     | Ok v s' => v = true /\ s' = set_pos (pos s') (initial_state scenario_fs [])
     | Raise _ s' => s' = set_pos (pos s') (initial_state scenario_fs [])
     | OutOfFuel => False
     end.
Proof.
  assert (H : ~ In "(" ["-delete"]).
  { cbn [In]. intros [H|H]; [discriminate H|exact H]. }
  split; [exact H|].
  exact (proj1 (skipped_operand_has_no_effect quiet_lib default_options
                  ["-delete"] "t/a.txt" (initial_state scenario_fs []) H)).
Defined.

(* ===================================================================== *)
(** ** The cursor stays within the tokens *)
(* ===================================================================== *)

(** The cursor is at a token or right after the last one. *)
Definition within (toks : list string) {A} : A -> nat -> Prop :=
  fun _ q => (q <= length toks)%nat.

Section Within.

Variable lib : Lib.
Variable opts : options.
Variable toks : list string.
Variable path : string.

Lemma step_within p : (p <= length toks)%nat -> (step toks p <= length toks)%nat.
Proof.
  intros Hp. unfold step. destruct (toks !! p) eqn:E; [|exact Hp].
  apply lookup_lt_Some in E. lia.
Qed.

Lemma consume_within p expected :
  (p <= length toks)%nat ->
  cursor_spec p (_consume toks expected) (within toks).
Proof.
  intros Hp. eapply cursor_weaken; [apply cursor_consume|].
  intros t q (_ & -> & _). now apply step_within.
Qed.

Lemma consume_args_within n : forall p,
  (p <= length toks)%nat ->
  cursor_spec p (consume_args toks n) (within toks).
Proof.
  induction n as [|n IH]; intros p Hp; cbn [consume_args].
  - now apply cursor_ret.
  - eapply cursor_bind; [now apply consume_within|].
    intros a q Hq. eapply cursor_bind; [now apply IH|].
    intros r q' Hq'. now apply cursor_ret.
Qed.

Lemma consume_command_within p tok :
  cursor_spec p (consume_command toks tok) (within toks).
Proof.
  eapply cursor_weaken; [apply cursor_consume_command|].
  intros args q [H ->]. unfold within.
  destruct (until_semicolon_Some _ _ H) as [rest' Hr].
  apply (f_equal (@length string)) in Hr.
  rewrite length_drop, length_app in Hr. simpl in Hr. lia.
Qed.

Section Levels.

Variable primary : string -> bool -> M bool.
Hypothesis primary_within :
  forall p e, (p <= length toks)%nat ->
              cursor_spec p (primary path e) (within toks).

Lemma not_expr_within p e :
  (p <= length toks)%nat ->
  cursor_spec p (not_expr toks primary path e) (within toks).
Proof.
  intros Hp. unfold not_expr. apply cursor_peek.
  destruct (token_in (toks !! p) ["!"; "-not"]); [|now apply primary_within].
  eapply cursor_bind; [now apply consume_within|].
  intros a q Hq. destruct e; cbn [negb].
  - eapply cursor_bind; [now apply primary_within|].
    intros r q' Hq'. now apply cursor_ret.
  - eapply cursor_bind; [now apply primary_within|].
    intros r q' Hq'. now apply cursor_ret.
Qed.

Lemma and_loop_within k : forall p e left,
  (p <= length toks)%nat ->
  cursor_spec p (and_loop toks primary k path e left) (within toks).
Proof.
  induction k as [|k IH]; intros p e left Hp; cbn [and_loop].
  { apply cursor_out_of_fuel. }
  apply cursor_peek. destruct (toks !! p) as [t|]; [|now apply cursor_ret].
  destruct (token_in (Some t) ["-o"; "-or"; ")"; ","]);
    [now apply cursor_ret|].
  apply (cursor_bind _ _ _ (within toks)).
  { destruct (token_in (Some t) ["-a"; "-and"]); [|now apply cursor_ret].
    eapply cursor_bind; [now apply consume_within|].
    intros a q Hq. now apply cursor_ret. }
  intros u q Hq. destruct (negb e || negb left).
  - eapply cursor_bind; [now apply not_expr_within|].
    intros r q' Hq'. now apply IH.
  - eapply cursor_bind; [now apply not_expr_within|].
    intros r q' Hq'. now apply IH.
Qed.

Lemma and_expr_within k p e :
  (p <= length toks)%nat ->
  cursor_spec p (and_expr toks primary k path e) (within toks).
Proof.
  intros Hp. unfold and_expr.
  eapply cursor_bind; [now apply not_expr_within|].
  intros r q Hq. now apply and_loop_within.
Qed.

Lemma or_loop_within k : forall p left,
  (p <= length toks)%nat ->
  cursor_spec p (or_loop toks primary k path left) (within toks).
Proof.
  induction k as [|k IH]; intros p left Hp; cbn [or_loop].
  { apply cursor_out_of_fuel. }
  apply cursor_peek.
  destruct (token_in (toks !! p) ["-o"; "-or"]); [|now apply cursor_ret].
  eapply cursor_bind; [now apply consume_within|].
  intros a q Hq. destruct left.
  - eapply cursor_bind; [now apply and_expr_within|].
    intros r q' Hq'. now apply cursor_ret.
  - eapply cursor_bind; [now apply and_expr_within|].
    intros r q' Hq'. now apply IH.
Qed.

Lemma or_expr_within k p :
  (p <= length toks)%nat ->
  cursor_spec p (or_expr toks primary k path) (within toks).
Proof.
  intros Hp. unfold or_expr.
  eapply cursor_bind; [now apply and_expr_within|].
  intros r q Hq. now apply or_loop_within.
Qed.

End Levels.

Lemma parse_primary_within fuel : forall p e,
  (p <= length toks)%nat ->
  cursor_spec p (_parse_primary lib opts toks fuel path e) (within toks).
Proof.
  induction fuel as [|n IH]; intros p e Hp; cbn [_parse_primary].
  { apply cursor_out_of_fuel. }
  apply cursor_peek. destruct (toks !! p) as [tok|]; [|now apply cursor_ret].
  assert (Hcall : forall (f : M bool) q,
             (q <= length toks)%nat -> keeps same_pos f ->
             cursor_spec q f (within toks)).
  { intros f q Hq Hf. eapply cursor_weaken; [apply cursor_keeps, Hf|].
    now intros a q' ->. }
  destruct (String.eqb tok "(").
  { eapply cursor_bind; [now apply consume_within|].
    intros a q Hq. eapply cursor_bind; [now apply or_expr_within|].
    intros res q' Hq'. eapply cursor_bind; [now apply consume_within|].
    intros a' q'' Hq''. now apply cursor_ret. }
  destruct (assoc tok (_tests lib opts)) as [test_func|] eqn:Ef.
  { eapply cursor_bind; [now apply consume_within|].
    intros a q Hq. eapply cursor_bind; [now apply consume_args_within|].
    intros args q' Hq'. destruct e; [|now apply cursor_ret].
    apply Hcall; [exact Hq'|]. eapply tests_same_pos; eauto. }
  destruct (existsb (String.eqb tok) action_names); [|apply cursor_raise].
  eapply cursor_bind; [now apply consume_within|].
  intros a q Hq. destruct (is_exec_action tok).
  - eapply cursor_bind; [apply consume_command_within|].
    intros args q' Hq'. destruct e; [|now apply cursor_ret].
    destruct (assoc tok (_exec_actions lib)) eqn:Ea; [|now apply cursor_ret].
    apply Hcall; [exact Hq'|]. eapply exec_actions_same_pos; eauto.
  - eapply cursor_bind; [now apply consume_args_within|].
    intros args q' Hq'. destruct e; [|now apply cursor_ret].
    destruct (assoc tok (_plain_actions lib)) eqn:Ea; [|now apply cursor_ret].
    apply Hcall; [exact Hq'|]. eapply plain_actions_same_pos; eauto.
Qed.

End Within.

(** X12. The evaluation of an expression ends on every list of tokens,
    grammatical or not: every turn of a loop of the parser and every
    parenthesis entered consumes a token, so the evaluation returns or
    raises; and when it returns, the cursor is at a token or right after
    the last one. *)
Theorem evaluation_ends_within_the_tokens lib opts toks path s :
  match _evaluate_expression lib opts toks path s with
  | Ok _ s' => (pos s' <= length toks)%nat
  | Raise _ _ => True
  | OutOfFuel => False
  end.
Proof.
  pose proof (_evaluate_expression_returns lib opts toks path s) as Hr.
  pose proof (or_expr_within toks path
                (_parse_primary lib opts toks (enough_fuel toks))
                (fun p e => parse_primary_within lib opts toks path _ p e)
                (enough_fuel toks) 0 ltac:(lia) (set_pos 0 s) eq_refl) as H.
  revert Hr H. unfold _evaluate_expression, _parse_or_expr, bind, modify.
  destruct (or_expr _ _ _ _ _); [intros _ H; exact H|intros; exact I|congruence].
Qed.

(* ===================================================================== *)
(** ** Numeric arguments *)
(* ===================================================================== *)

Lemma compare_num_signed val n sign s :
  0 <= n -> In sign [""; "+"; "-"] ->
  _compare_num val (Some (sign ++ PyInt.str n)%string) s
  = Ok (signed_N_rule sign val n) s.
Proof.
  intros Hn Hsign.
  pose proof (str_all_digits n Hn) as Hd.
  pose proof (str_nonempty n) as Hne.
  pose proof (int_str n Hn) as Hint.
  unfold _compare_num.
  destruct (PyInt.str n) as [|c r] eqn:E; [congruence|].
  rewrite all_chars_cons in Hd. apply andb_true_iff in Hd as [Hc _].
  destruct Hsign as [<-|[<-|[<-|[]]]].
  - change ("" ++ String c r)%string with (String c r).
    rewrite !startswith_sign_digit by (simpl; tauto).
    cbn [orb]. rewrite Hint. reflexivity.
  - change ("+" ++ String c r)%string with (String "+" (String c r)).
    change (PyStr.startswith "+" (String "+" (String c r))) with true.
    cbn [orb PyStr.first PyStr.tail]. rewrite Hint. reflexivity.
  - change ("-" ++ String c r)%string with (String "-" (String c r)).
    change (PyStr.startswith "+" (String "-" (String c r))) with false.
    change (PyStr.startswith "-" (String "-" (String c r))) with true.
    cbn [orb PyStr.first PyStr.tail]. rewrite Hint. reflexivity.
Qed.

(** X13. [-links] and [-inum] follow the signed-N rule on the link count
    and on the inode number of the entry, symbolic links followed: with
    the argument [N] the value must equal [N], with [+N] exceed it, with
    [-N] stay below it. *)
Theorem links_and_inum_follow_the_signed_rule path s st n sign :
  Fs.stat (fs s) path = Some st -> 0 <= n -> In sign [""; "+"; "-"] ->
  _test_links path (Some (sign ++ PyInt.str n)%string) s
  = Ok (signed_N_rule sign (st_nlink st) n) s
  /\ _test_inum path (Some (sign ++ PyInt.str n)%string) s
     = Ok (signed_N_rule sign (st_ino st) n) s.
Proof.
  intros Hst Hn Hsign. unfold _test_links, _test_inum, bind.
  rewrite (os_stat_Some _ _ _ Hst). split; now apply compare_num_signed.
Qed.

Lemma links_and_inum_follow_the_signed_rule_witness :
  let s := initial_state scenario_fs [] in
  let st := n_lstat (directory ["a.txt"; "sub"]) in
  Fs.stat (fs s) "t" = Some st
  /\ _test_links "t" (Some ("+" ++ PyInt.str 1)%string) s
     = Ok (signed_N_rule "+" (st_nlink st) 1) s
  /\ _test_inum "t" (Some ("+" ++ PyInt.str 1)%string) s
     = Ok (signed_N_rule "+" (st_ino st) 1) s.
Proof.
  intros s st.
  assert (H : Fs.stat (fs s) "t" = Some st) by (vm_compute; reflexivity).
  split; [exact H|].
  apply (links_and_inum_follow_the_signed_rule "t" s st 1 "+" H);
    [lia|simpl; tauto].
Defined.

(** The unit letters of [-size] and the bytes each one stands for. *)
Definition size_units : list (ascii * Z) :=
  [ ("c"%char, 1); ("w"%char, 2); ("k"%char, 1024); ("M"%char, 1048576);
    ("G"%char, 1073741824) ].

Lemma last_single a u : PyStr.last (a ++ String u "")%string = Some u.
Proof. now rewrite last_app by discriminate. Qed.

Lemma init_single a u : PyStr.init (a ++ String u "")%string = a.
Proof.
  induction a as [|c r IH]; [reflexivity|].
  destruct r as [|d r']; [reflexivity|].
  change (PyStr.init (String c (String d r' ++ String u "")) = String c (String d r')).
  change (String c (PyStr.init (String d r' ++ String u "")) = String c (String d r')).
  now rewrite IH.
Qed.

(** X14. With a unit letter the size predicate counts units of that many
    bytes, rounded up: for an entry of [st_size] bytes and the argument
    [sign N u], where [u] is [c] (1 byte), [w] (2), [k] (1024), [M]
    (1024^2) or [G] (1024^3), it answers the signed-N rule on the number
    [units] with [m * (units - 1) < st_size <= m * units]. *)
Theorem size_counts_units_rounded_up path s st n sign u m :
  In (u, m) size_units ->
  Fs.lstat (fs s) path = Some st -> 0 <= n -> In sign [""; "+"; "-"] ->
  exists units,
    m * (units - 1) < st_size st <= m * units
    /\ _test_size path (Some (sign ++ PyInt.str n ++ String u "")%string) s
       = Ok (signed_N_rule sign units n) s.
Proof.
  intros Hu Hst Hn Hsign.
  assert (Hm : 0 < m /\ unit_map u = Some m).
  { unfold size_units in Hu. cbn [In] in Hu.
    repeat (destruct Hu as [[= <- <-]|Hu]; [split; [lia|reflexivity]|]).
    destruct Hu. }
  destruct Hm as [Hm Hunit].
  exists ((st_size st + m - 1) / m). split.
  { pose proof (Z.div_mod (st_size st + m - 1) m).
    pose proof (Z.mod_pos_bound (st_size st + m - 1) m). nia. }
  pose proof (str_all_digits n Hn) as Hd.
  pose proof (str_nonempty n) as Hne.
  pose proof (int_str n Hn) as Hint.
  unfold _test_size.
  replace (sign ++ PyInt.str n ++ String u "")%string
    with ((sign ++ PyInt.str n) ++ String u "")%string
    by (destruct Hsign as [<-|[<-|[<-|[]]]]; reflexivity).
  rewrite last_single, Hunit, init_single.
  unfold bind. rewrite (os_lstat_Some _ _ _ Hst).
  destruct (PyInt.str n) as [|c r] eqn:E; [congruence|].
  rewrite all_chars_cons in Hd. apply andb_true_iff in Hd as [Hc _].
  destruct (digit_is_plain c Hc) as (_ & Hsg & _ & _).
  destruct Hsign as [<-|[<-|[<-|[]]]].
  - change ("" ++ String c r)%string with (String c r).
    rewrite !startswith_sign_digit by (simpl; tauto).
    simpl. rewrite Hsg, Hint. reflexivity.
  - change ("+" ++ String c r)%string with (String "+" (String c r)).
    simpl. rewrite Hsg, Hint. reflexivity.
  - change ("-" ++ String c r)%string with (String "-" (String c r)).
    simpl. rewrite Hsg, Hint. reflexivity.
Qed.

Lemma size_counts_units_rounded_up_witness :
  let s := initial_state scenario_fs [] in
  (In ("k"%char, 1024) size_units
   /\ Fs.lstat (fs s) "t/sub/b.log" = Some (n_lstat (regular_file 513 0)))
  /\ exists units,
      1024 * (units - 1) < 513 <= 1024 * units
      /\ _test_size "t/sub/b.log"
           (Some ("-" ++ PyInt.str 2 ++ String "k" "")%string) s
         = Ok (signed_N_rule "-" units 2) s.
Proof.
  intros s.
  assert (H1 : In ("k"%char, 1024) size_units) by (simpl; tauto).
  assert (H2 : Fs.lstat (fs s) "t/sub/b.log"
               = Some (n_lstat (regular_file 513 0)))
    by (vm_compute; reflexivity).
  split; [split; assumption|].
  apply (size_counts_units_rounded_up "t/sub/b.log" s
           (n_lstat (regular_file 513 0)) 2 "-" "k" 1024 H1 H2);
    [lia|simpl; tauto].
Defined.

(* ===================================================================== *)
(** ** The paths the walk builds *)
(* ===================================================================== *)

Lemma append_cons d r b :
  (String d r ++ b)%string = String d (r ++ b)%string.
Proof. reflexivity. Qed.

Lemma append_assoc a b c :
  ((a ++ b) ++ c)%string = (a ++ b ++ c)%string.
Proof.
  induction a as [|d r IH]; [reflexivity|]. now rewrite !append_cons, IH.
Qed.

Lemma count_app c a b :
  PyStr.count c (a ++ b)%string = (PyStr.count c a + PyStr.count c b)%nat.
Proof.
  induction a as [|d r IH]; [reflexivity|].
  rewrite append_cons. cbn [PyStr.count]. rewrite IH. lia.
Qed.

Lemma has_sep_false_count s :
  OsPath.has_sep s = false -> PyStr.count OsPath.sep s = 0%nat.
Proof.
  unfold OsPath.has_sep. intros H. apply Nat.ltb_ge in H. lia.
Qed.

Lemma no_sep_not_absolute name :
  OsPath.has_sep name = false -> PyStr.startswith "/" name = false.
Proof.
  intros H. destruct name as [|c r]; [reflexivity|].
  rewrite has_sep_cons in H. apply orb_false_iff in H as [Hc _].
  unfold PyStr.startswith. cbn [String.prefix].
  destruct (ascii_dec "/" c) as [He|]; [|reflexivity].
  subst c. discriminate Hc.
Qed.

Lemma last_init a c : PyStr.last a = Some c -> a = (PyStr.init a ++ String c "")%string.
Proof.
  induction a as [|d r IH]; [discriminate|].
  destruct r as [|e r'].
  - intros [= ->]. reflexivity.
  - intros H. change (PyStr.last (String e r') = Some c) in H.
    change (String d (String e r')
            = String d (PyStr.init (String e r') ++ String c "")%string).
    now rewrite <- IH.
Qed.

Lemma basename_no_sep p : OsPath.has_sep p = false -> OsPath.basename p = p.
Proof.
  intros H. destruct p as [|c r]; [reflexivity|].
  rewrite has_sep_cons in H. apply orb_false_iff in H as [Hc Hr].
  rewrite basename_cons, Hr.
  rewrite Ascii.eqb_sym in Hc. now rewrite Hc.
Qed.

Lemma has_sep_app_sep a b : OsPath.has_sep (a ++ String "/" b)%string = true.
Proof.
  induction a as [|c r IH].
  - reflexivity.
  - rewrite append_cons, has_sep_cons, IH. apply orb_true_r.
Qed.

Lemma basename_app_sep a b :
  OsPath.has_sep b = false -> OsPath.basename (a ++ String "/" b)%string = b.
Proof.
  intros Hb. induction a as [|c r IH].
  - change ("" ++ String "/" b)%string with (String "/" b).
    rewrite basename_cons, Hb. reflexivity.
  - rewrite append_cons, basename_cons, has_sep_app_sep. exact IH.
Qed.

(** The last component of [os.path.join(root, name)] is [name]. *)
Lemma basename_join root name :
  OsPath.has_sep name = false ->
  OsPath.basename (OsPath.join root name) = name.
Proof.
  intros Hn. unfold OsPath.join.
  rewrite (no_sep_not_absolute name Hn).
  destruct (PyStr.last root) as [c|] eqn:El; [|now apply basename_no_sep].
  destruct (Ascii.eqb c OsPath.sep) eqn:Ec.
  - apply Ascii.eqb_eq in Ec. subst c.
    rewrite (last_init root _ El) at 1.
    rewrite append_assoc.
    change (String "/" "" ++ name)%string with (String "/" name).
    now apply basename_app_sep.
  - change ("/" ++ name)%string with (String "/" name).
    now apply basename_app_sep.
Qed.

(** X15. For an entry the walk reaches as [os.path.join(root, name)],
    where [name] is a name in the directory [root], [-name] matches the
    pattern against [name] itself and [-iname] against [name] in lower
    case, whatever [root] is and whether or not it ends in a
    separator. *)
Theorem name_tests_look_at_the_entry_name lib root name pat s :
  OsPath.has_sep name = false ->
  _test_name lib (OsPath.join root name) (Some pat) s
  = Ok (lib_fnmatch lib name pat) s
  /\ _test_iname lib (OsPath.join root name) (Some pat) s
     = Ok (lib_fnmatch lib (lib_lower lib name) (lib_lower lib pat)) s.
Proof.
  intros Hn. unfold _test_name, _test_iname.
  rewrite (basename_join root name Hn). split; reflexivity.
Qed.

Lemma name_tests_look_at_the_entry_name_witness :
  OsPath.has_sep "b.log" = false
  /\ _test_name quiet_lib (OsPath.join "t/sub" "b.log") (Some "*.log")
       (initial_state scenario_fs [])
     = Ok (lib_fnmatch quiet_lib "b.log" "*.log") (initial_state scenario_fs [])
  /\ _test_iname quiet_lib (OsPath.join "t/sub" "b.log") (Some "*.log")
       (initial_state scenario_fs [])
     = Ok (lib_fnmatch quiet_lib (lib_lower quiet_lib "b.log")
             (lib_lower quiet_lib "*.log")) (initial_state scenario_fs []).
Proof.
  split; [reflexivity|].
  exact (name_tests_look_at_the_entry_name quiet_lib "t/sub" "b.log" "*.log"
           (initial_state scenario_fs []) eq_refl).
Defined.

(** Whether a path ends in a separator. *)
Definition ends_with_sep (p : string) : bool :=
  match PyStr.last p with
  | Some c => Ascii.eqb c OsPath.sep
  | None => false
  end.

Lemma count_join root name :
  OsPath.has_sep name = false ->
  PyStr.count OsPath.sep (OsPath.join root name)
  = (PyStr.count OsPath.sep root
     + (if ends_with_sep root then 0
        else match root with EmptyString => 0 | _ => 1 end))%nat.
Proof.
  intros Hn. pose proof (has_sep_false_count name Hn) as Hc.
  unfold OsPath.join, ends_with_sep.
  rewrite (no_sep_not_absolute name Hn).
  destruct (PyStr.last root) as [c|] eqn:El.
  - assert (root <> "") by (intros ->; discriminate).
    destruct (Ascii.eqb c OsPath.sep).
    + rewrite count_app, Hc. lia.
    + rewrite !count_app, Hc. destruct root; [congruence|]. simpl. lia.
  - destruct root as [|d r]; [simpl; lia|].
    exfalso. revert El. clear. revert d.
    induction r as [|e r IH]; intros d; [discriminate|].
    change (PyStr.last (String d (String e r)))
      with (PyStr.last (String e r)). apply IH.
Qed.

(** X16. The level [_walk] computes for an entry counts the separators
    of its path: under a directory [root] whose path does not end in a
    separator an entry is one level below [root], and under one whose
    path does end in a separator it is at the level of [root]. So for a
    start path written with a trailing separator, the entries directly
    under it are at level 0, the level of the start path itself. *)
Theorem level_counts_separators start root name :
  OsPath.has_sep name = false -> root <> "" ->
  level_of start (OsPath.join root name)
  = level_of start root + (if ends_with_sep root then 0 else 1).
Proof.
  intros Hn Hr. unfold level_of. rewrite (count_join root name Hn).
  destruct (ends_with_sep root); [lia|].
  destruct root; [congruence|lia].
Qed.

Lemma level_counts_separators_witness :
  (OsPath.has_sep "sub" = false /\ "t/" <> "")
  /\ level_of "t/" (OsPath.join "t/" "sub")
     = level_of "t/" "t/" + (if ends_with_sep "t/" then 0 else 1)
  /\ level_of "t/" (OsPath.join "t/" "sub") = 0
  /\ level_of "t" (OsPath.join "t" "sub") = 1.
Proof.
  assert (H : "t/" <> "") by discriminate.
  split; [split; [reflexivity|exact H]|].
  split; [|split; reflexivity].
  exact (level_counts_separators "t/" "t/" "sub" eq_refl H).
Defined.

(* ===================================================================== *)
(** ** Runs that visit little *)
(* ===================================================================== *)

Lemma initial_paths_all ps :
  Forall (fun p => starts_expression p = false) ps -> initial_paths ps = ps.
Proof.
  induction 1 as [|p ps Hp _ IH]; [reflexivity|].
  cbn [initial_paths]. now rewrite Hp, IH.
Qed.

(** Start paths alone on the command line: the expression is [-print]. *)
Lemma init_paths_only ps :
  ps <> [] -> Forall (fun p => starts_expression p = false) ps ->
  __init__ ps = inr (mk_finder ps default_options ["-print"]).
Proof.
  intros Hne Hps. unfold __init__, _parse_initial_args.
  rewrite (initial_paths_all ps Hps), drop_all.
  destruct ps; [congruence|reflexivity].
Qed.

Lemma no_help_among_paths ps :
  Forall (fun p => starts_expression p = false) ps ->
  existsb (String.eqb "--help") ps = false.
Proof.
  induction 1 as [|p ps Hp _ IH]; [reflexivity|]. cbn [existsb].
  rewrite IH, orb_false_r. apply String.eqb_neq. intros <-.
  discriminate Hp.
Qed.

Lemma run_missing lib opts toks fuel ps : forall s,
  Forall (fun p => Fs.exists_ (fs s) p = false) ps ->
  run lib opts toks fuel ps s
  = Ok tt (mk_state (pos s) (prune_paths s) (fs s) (ticks s) (stdin s)
             (trace s ++ map (fun p => Stderr (no_such_file p)) ps)).
Proof.
  unfold run. induction ps as [|p ps IH]; intros s Hps.
  - cbn [for_each map]. rewrite app_nil_r. now destruct s.
  - apply Forall_cons_1 in Hps as [Hp Hps]. cbn [for_each].
    unfold bind at 1, bind at 1, gets at 1. rewrite Hp. cbn [negb].
    unfold write_stderr, modify. rewrite IH by exact Hps.
    cbn [pos prune_paths fs ticks stdin trace emit map].
    now rewrite <- app_assoc.
Qed.

(** X17. A start path that does not exist is reported on standard error
    and passed over; it does not change the exit status. Called with
    start paths only, none of which exists, [main] writes one
    [No such file or directory] line for each, in the order given,
    prints nothing, and ends with status 0. *)
Theorem missing_start_paths_are_reported lib fuel ps fs0 stdin0 :
  ps <> [] ->
  Forall (fun p => starts_expression p = false) ps ->
  Forall (fun p => Fs.exists_ fs0 p = false) ps ->
  main lib fuel ("find.py" :: ps) fs0 stdin0
  = Some (0, mk_state 0 ∅ fs0 0 stdin0
               (map (fun p => Stderr (no_such_file p)) ps)).
Proof.
  intros Hne Hps Hmiss. unfold main.
  assert (Hlen : (length ("find.py" :: ps) =? 1)%nat = false).
  { destruct ps; [congruence|reflexivity]. }
  rewrite Hlen. cbn [existsb orb tail].
  change (String.eqb "--help" "find.py") with false. cbn [orb].
  rewrite (no_help_among_paths ps Hps), (init_paths_only ps Hne Hps).
  cbn [f_options f_tokens paths].
  rewrite run_missing by exact Hmiss. reflexivity.
Qed.

Lemma missing_start_paths_are_reported_witness :
  (["nowhere"; "t/none"] <> []
   /\ Forall (fun p => starts_expression p = false) ["nowhere"; "t/none"]
   /\ Forall (fun p => Fs.exists_ scenario_fs p = false) ["nowhere"; "t/none"])
  /\ main quiet_lib 0 ("find.py" :: ["nowhere"; "t/none"]) scenario_fs []
     = Some (0, mk_state 0 ∅ scenario_fs 0 []
                  (map (fun p => Stderr (no_such_file p))
                     ["nowhere"; "t/none"])).
Proof.
  assert (H1 : ["nowhere"; "t/none"] <> []) by discriminate.
  assert (H2 : Forall (fun p => starts_expression p = false)
                 ["nowhere"; "t/none"])
    by (repeat constructor).
  assert (H3 : Forall (fun p => Fs.exists_ scenario_fs p = false)
                 ["nowhere"; "t/none"])
    by (repeat constructor).
  split; [auto|].
  exact (missing_start_paths_are_reported quiet_lib 0 ["nowhere"; "t/none"]
           scenario_fs [] H1 H2 H3).
Defined.

(** X18. With no argument, or with [--help] anywhere among the
    arguments, [main] prints the usage text and ends with status 0: no
    path is visited and no expression evaluated, whatever else the
    command line holds. *)
Theorem help_only_prints_the_usage lib fuel argv fs0 stdin0 :
  length argv = 1%nat \/ In "--help" argv ->
  main lib fuel argv fs0 stdin0
  = Some (0, mk_state 0 ∅ fs0 0 stdin0
               (map (fun l => Stdout (l ++ nl)%string) usage)).
Proof.
  intros H. unfold main.
  assert (E : (length argv =? 1)%nat || existsb (String.eqb "--help") argv
              = true).
  { destruct H as [->|H]; [reflexivity|]. apply orb_true_iff. right.
    apply existsb_exists. exists "--help". split; [exact H|reflexivity]. }
  rewrite E. reflexivity.
Qed.

Lemma help_only_prints_the_usage_witness :
  (length ["find.py"; "t"; "-delete"; "--help"] = 1%nat
   \/ In "--help" ["find.py"; "t"; "-delete"; "--help"])
  /\ main quiet_lib 0 ["find.py"; "t"; "-delete"; "--help"] scenario_fs []
     = Some (0, mk_state 0 ∅ scenario_fs 0 []
                  (map (fun l => Stdout (l ++ nl)%string) usage)).
Proof.
  assert (H : length ["find.py"; "t"; "-delete"; "--help"] = 1%nat
              \/ In "--help" ["find.py"; "t"; "-delete"; "--help"])
    by (right; simpl; tauto).
  split; [exact H|].
  exact (help_only_prints_the_usage quiet_lib 0 _ scenario_fs [] H).
Defined.

Lemma not_isdir_no_scan (f : filesys) p :
  Fs.isdir f p = false -> Fs.scandir f p = None.
Proof.
  unfold Fs.isdir, Fs.scandir, Fs.listdir, Fs.stat.
  destruct (Fs.resolve Fs.symloop_max f p) as [n|]; [|reflexivity].
  cbn [fmap option_fmap option_map]. now intros ->.
Qed.

(** X19. A start path that exists and is not a directory is not
    evaluated in pre-order mode: [os.walk] yields nothing for it, so
    [find file] prints nothing and ends with status 0. In post-order
    mode the start path is evaluated after the walk, so
    [find file -depth] prints it. *)
Theorem start_path_that_is_a_file lib n p fs0 stdin0 :
  starts_expression p = false ->
  Fs.exists_ fs0 p = true -> Fs.isdir fs0 p = false ->
  main lib (S n) ["find.py"; p] fs0 stdin0
  = Some (0, initial_state fs0 stdin0)
  /\ main lib (S n) ["find.py"; p; "-depth"] fs0 stdin0
     = Some (0, mk_state 1 ∅ fs0 0 stdin0 [Stdout (p ++ nl)%string]).
Proof.
  intros Hp Hex Hdir. pose proof (not_isdir_no_scan fs0 p Hdir) as Hscan.
  assert (Hh : String.eqb "--help" p = false).
  { apply String.eqb_neq. intros <-. discriminate Hp. }
  split; unfold main; cbn [length Nat.eqb existsb orb tail];
    change (String.eqb "--help" "find.py") with false;
    rewrite Hh; cbn [orb].
  - rewrite (init_paths_only [p]) by (repeat constructor; congruence).
    cbn [f_options f_tokens paths]. unfold run. cbn [for_each].
    unfold bind at 1, bind at 1, gets at 1.
    change (fs (initial_state fs0 stdin0)) with fs0. rewrite Hex.
    cbn [negb]. unfold _walk. change (depth default_options) with false.
    cbv iota. cbn [walk_topdown]. unfold bind at 1, gets at 1.
    change (fs (initial_state fs0 stdin0)) with fs0. rewrite Hscan.
    reflexivity.
  - change (String.eqb "--help" "-depth") with false. cbn [orb].
    assert (Hi : __init__ [p; "-depth"]
                 = inr (mk_finder [p] (set_depth default_options) ["-print"])).
    { unfold __init__, _parse_initial_args. cbn [initial_paths].
      rewrite Hp. reflexivity. }
    rewrite Hi. cbn [f_options f_tokens paths]. unfold run. cbn [for_each].
    unfold bind at 1, bind at 1, gets at 1.
    change (fs (initial_state fs0 stdin0)) with fs0. rewrite Hex.
    cbn [negb]. unfold _walk.
    change (depth (set_depth default_options)) with true. cbv iota.
    cbn [walk_bottomup]. unfold bind at 1, bind at 1, gets at 1.
    change (fs (initial_state fs0 stdin0)) with fs0. rewrite Hscan.
    reflexivity.
Qed.

Lemma start_path_that_is_a_file_witness :
  (starts_expression "t/a.txt" = false
   /\ Fs.exists_ scenario_fs "t/a.txt" = true
   /\ Fs.isdir scenario_fs "t/a.txt" = false)
  /\ main quiet_lib 1 ["find.py"; "t/a.txt"] scenario_fs []
     = Some (0, initial_state scenario_fs [])
  /\ main quiet_lib 1 ["find.py"; "t/a.txt"; "-depth"] scenario_fs []
     = Some (0, mk_state 1 ∅ scenario_fs 0 []
                  [Stdout ("t/a.txt" ++ nl)%string]).
Proof.
  split; [repeat split; reflexivity|].
  exact (start_path_that_is_a_file quiet_lib 0 "t/a.txt" scenario_fs []
           eq_refl eq_refl eq_refl).
Defined.

Lemma level_of_start p : level_of p p = 0.
Proof. unfold level_of, start_level. lia. Qed.

(** X20. In pre-order mode a depth limit of 0 or less keeps the walk at
    the start directory: whatever the directory holds, nothing under it
    is evaluated and the walk does not go down. The start directory
    itself is evaluated when the limit is 0 and the least depth is 0 or
    less, and with a negative limit nothing at all is. *)
Theorem maxdepth_zero_stays_at_the_start lib opts toks p n s m dirs files :
  maxdepth opts = Some m -> m <= 0 ->
  Fs.scandir (fs s) p = Some (dirs, files) ->
  walk_topdown lib opts toks p (S n) p s
  = if (mindepth opts <=? 0) && (0 <=? m)
    then (evaluate_entry lib opts toks p ;; ret tt) s
    else Ok tt s.
Proof.
  intros Hmax Hm Hscan. cbn [walk_topdown].
  unfold bind at 1, gets at 1. rewrite Hscan. cbv beta iota.
  unfold preorder_body. rewrite Hmax, level_of_start.
  assert (Hge : ge_max 0 (Some m) = true) by (apply Z.leb_le; exact Hm).
  assert (Hlt : lt_max 0 (Some m) = false) by (apply Z.ltb_ge; exact Hm).
  rewrite Hge, Hlt. cbn [le_max].
  unfold bind at 1, bind at 1, gets at 1.
  destruct ((mindepth opts <=? 0) && (0 <=? m)).
  - unfold bind.
    destruct (evaluate_entry lib opts toks p s) as [r s1|e s1|];
      [|reflexivity|reflexivity].
    destruct r; [|reflexivity].
    unfold gets. destruct (bool_decide _); reflexivity.
  - reflexivity.
Qed.

Lemma maxdepth_zero_stays_at_the_start_witness :
  let opts := mk_options false (Some 0) 0 false false in
  let s := initial_state scenario_fs [] in
  (maxdepth opts = Some 0 /\ 0 <= 0
   /\ Fs.scandir (fs s) "t" = Some (["sub"], ["a.txt"]))
  /\ walk_topdown quiet_lib opts ["-print"] "t" 1 "t" s
     = (if (mindepth opts <=? 0) && (0 <=? 0)
        then (evaluate_entry quiet_lib opts ["-print"] "t" ;; ret tt) s
        else Ok tt s).
Proof.
  intros opts s.
  assert (H : Fs.scandir (fs s) "t" = Some (["sub"], ["a.txt"]))
    by (vm_compute; reflexivity).
  split; [split; [reflexivity|split; [lia|exact H]]|].
  exact (maxdepth_zero_stays_at_the_start quiet_lib opts ["-print"] "t" 0 s 0
           ["sub"] ["a.txt"] eq_refl ltac:(lia) H).
Defined.

(* ===================================================================== *)
(** ** Actions *)
(* ===================================================================== *)

Lemma drop_name_gone lib p (f : filesys) : Fs.drop_name lib p f !! p = None.
Proof. unfold Fs.drop_name. apply lookup_delete_eq. Qed.

Lemma drop_name_others lib p q (f : filesys) :
  q <> p ->
  Fs.drop_name lib p f !! q
  = (fun n => mk_node (Fs.touched lib p q (n_lstat n)) (n_target n)
                (List.filter
                   (fun x => negb (String.eqb (OsPath.join q x) p))
                   (n_entries n))) <$> f !! q.
Proof.
  intros Hq. unfold Fs.drop_name.
  rewrite lookup_delete_ne by congruence. rewrite map_lookup_imap.
  destruct (f !! q); reflexivity.
Qed.

(** What a removal leaves of another path [q]: it is there when it was
    and only then, with the file type, the permission bits, the inode
    number, the owner and the group it had, and the target it had when
    it is a symbolic link; a directory lists what it listed, but for the
    removed path. *)
Definition left_alone (removed q : string) (before after : filesys) : Prop :=
  match before !! q, after !! q with
  | Some n, Some n' =>
      st_type (n_lstat n') = st_type (n_lstat n)
      /\ st_perm (n_lstat n') = st_perm (n_lstat n)
      /\ st_ino (n_lstat n') = st_ino (n_lstat n)
      /\ st_uid (n_lstat n') = st_uid (n_lstat n)
      /\ st_gid (n_lstat n') = st_gid (n_lstat n)
      /\ n_target n' = n_target n
      /\ forall x, In x (n_entries n')
                   <-> In x (n_entries n) /\ OsPath.join q x <> removed
  | None, None => True
  | _, _ => False
  end.

Lemma drop_name_left_alone lib p q (f : filesys) :
  q <> p -> left_alone p q f (Fs.drop_name lib p f).
Proof.
  intros Hq. unfold left_alone. rewrite (drop_name_others lib p q f Hq).
  destruct (f !! q) as [n|]; [|exact I].
  cbn [fmap option_fmap option_map n_lstat n_target n_entries Fs.touched
       st_type st_perm st_ino st_uid st_gid].
  repeat (split; [reflexivity|]).
  intros x. rewrite List.filter_In, negb_true_iff, String.eqb_neq. tauto.
Qed.

Lemma rmdir_done lib (f : filesys) p f' :
  Fs.rmdir lib f p = inr f' ->
  f' = Fs.drop_name lib p f /\ f !! p <> None.
Proof.
  unfold Fs.rmdir. destruct (f !! p) as [n|]; [|discriminate].
  destruct (String.eqb (Fs.last_name p) "."); [discriminate|].
  destruct (String.eqb (Fs.last_name p) ".."); [discriminate|].
  destruct (lib_remove_denied lib f p); [discriminate|].
  destruct (negb _); [discriminate|].
  destruct (n_entries n); [|discriminate].
  intros [= <-]. split; [reflexivity|discriminate].
Qed.

Lemma remove_done lib (f : filesys) p f' :
  Fs.remove lib f p = inr f' ->
  f' = Fs.drop_name lib p f /\ f !! p <> None.
Proof.
  unfold Fs.remove, Fs.lstat. destruct (f !! p) as [n|]; [|discriminate].
  cbn [fmap option_fmap option_map].
  destruct (_ || _); [discriminate|].
  destruct (lib_remove_denied lib f p); [discriminate|].
  destruct (Fs.S_ISDIR _); [discriminate|].
  intros [= <-]. split; [reflexivity|discriminate].
Qed.

(** X21. [-delete] is always true and never raises. Either it fails, the
    file system is as before and one [cannot delete] line has gone to
    standard error; or it succeeds, the path it was given was there and
    is gone, every other path is left alone (it is there when it was,
    with its type, permission bits, inode number, owner and group), and
    one removal has happened. The cursor, the Prune Set, the clock and
    standard input are as before. *)
Theorem delete_is_always_true lib path s :
  exists s',
    _action_delete lib path s = Ok true s'
    /\ pos s' = pos s /\ prune_paths s' = prune_paths s
    /\ ticks s' = ticks s /\ stdin s' = stdin s
    /\ ((fs s' = fs s
         /\ exists e, trace s' = trace s ++ [Stderr (cannot_delete path e)])
        \/ (fs s !! path <> None /\ fs s' !! path = None
            /\ (forall q, q <> path -> left_alone path q (fs s) (fs s'))
            /\ (trace s' = trace s ++ [Unlinked path]
                \/ trace s' = trace s ++ [RmDir path]))).
Proof.
  unfold _action_delete, bind, gets, modify, write_stderr, ret.
  destruct (Fs.isdir (fs s) path).
  - destruct (Fs.rmdir lib (fs s) path) as [e|f'] eqn:E.
    + eexists. split; [reflexivity|]. cbn. repeat split.
      left. split; [reflexivity|]. now exists e.
    + destruct (rmdir_done _ _ _ _ E) as [-> Hthere].
      eexists. split; [reflexivity|]. cbn. repeat split.
      right. split; [exact Hthere|]. split; [apply drop_name_gone|].
      split; [intros q Hq; now apply drop_name_left_alone|]. now right.
  - destruct (Fs.remove lib (fs s) path) as [e|f'] eqn:E.
    + eexists. split; [reflexivity|]. cbn. repeat split.
      left. split; [reflexivity|]. now exists e.
    + destruct (remove_done _ _ _ _ E) as [-> Hthere].
      eexists. split; [reflexivity|]. cbn. repeat split.
      right. split; [exact Hthere|]. split; [apply drop_name_gone|].
      split; [intros q Hq; now apply drop_name_left_alone|]. now left.
Qed.

(** The error of [os.rmdir] on a path that is there, before the system
    looks at what the path is: [.] is refused as an invalid argument,
    [..] as a directory that is not empty, and the directory the name is
    in may refuse the removal. *)
Definition refused_before (lib : Lib) (f : filesys) (p : string)
  : option oserror :=
  if String.eqb (Fs.last_name p) "." then Some EINVAL
  else if String.eqb (Fs.last_name p) ".." then Some ENOTEMPTY
  else lib_remove_denied lib f p.

(** X22. [-delete] does not remove a directory that still has entries:
    [os.rmdir] fails, one [cannot delete] line goes to standard error,
    the file system is left as it is, and the action is true. The line
    says [Directory not empty], unless the system refuses the removal
    before it looks into the directory: for the path [.] the line says
    [Invalid argument], and in a directory that does not allow removals
    it names that error. *)
Theorem delete_leaves_a_directory_with_entries lib path s n :
  fs s !! path = Some n -> Fs.S_ISDIR (n_lstat n) = true ->
  n_entries n <> [] ->
  _action_delete lib path s
  = Ok true
      (emit (Stderr (cannot_delete path
                       (match refused_before lib (fs s) path with
                        | Some e => e
                        | None => ENOTEMPTY
                        end))) s).
Proof.
  intros Hn Hd He.
  assert (Hl : ftype_eqb (st_type (n_lstat n)) S_IFLNK = false).
  { unfold Fs.S_ISDIR in Hd. destruct (st_type (n_lstat n)); try discriminate.
    reflexivity. }
  assert (Hi : Fs.isdir (fs s) path = true).
  { unfold Fs.isdir, Fs.stat, Fs.symloop_max. cbn [Fs.resolve].
    rewrite Hn, Hl. exact Hd. }
  unfold _action_delete, bind, gets. rewrite Hi.
  unfold Fs.rmdir, refused_before. rewrite Hn, Hd. cbn [negb].
  destruct (String.eqb (Fs.last_name path) "."); [reflexivity|].
  destruct (String.eqb (Fs.last_name path) ".."); [reflexivity|].
  destruct (lib_remove_denied lib (fs s) path); [reflexivity|].
  destruct (n_entries n); [congruence|reflexivity].
Qed.

Lemma delete_leaves_a_directory_with_entries_witness :
  let s := initial_state scenario_fs [] in
  (fs s !! "t" = Some (directory ["a.txt"; "sub"])
   /\ Fs.S_ISDIR (n_lstat (directory ["a.txt"; "sub"])) = true
   /\ n_entries (directory ["a.txt"; "sub"]) <> [])
  /\ _action_delete quiet_lib "t" s
     = Ok true (emit (Stderr (cannot_delete "t" ENOTEMPTY)) s).
Proof.
  intros s.
  assert (H1 : fs s !! "t" = Some (directory ["a.txt"; "sub"]))
    by (vm_compute; reflexivity).
  assert (H3 : n_entries (directory ["a.txt"; "sub"]) <> []) by discriminate.
  split; [split; [exact H1|split; [reflexivity|exact H3]]|].
  exact (delete_leaves_a_directory_with_entries quiet_lib "t" s _ H1
           eq_refl H3).
Defined.

(** X23. [-delete] does not remove a symbolic link that points to a
    directory: [os.path.isdir] follows the link, so [os.rmdir] is called
    on the link and fails; one [cannot delete] line goes to standard
    error, the link stays, and the action is true. The line says
    [Not a directory], unless the system refuses the removal before it
    looks at what the path is. *)
Theorem delete_leaves_a_link_to_a_directory lib path s n :
  fs s !! path = Some n -> Fs.S_ISLNK (n_lstat n) = true ->
  Fs.isdir (fs s) path = true ->
  _action_delete lib path s
  = Ok true
      (emit (Stderr (cannot_delete path
                       (match refused_before lib (fs s) path with
                        | Some e => e
                        | None => ENOTDIR
                        end))) s).
Proof.
  intros Hn Hl Hi.
  assert (Hd : Fs.S_ISDIR (n_lstat n) = false).
  { unfold Fs.S_ISLNK in Hl. unfold Fs.S_ISDIR.
    destruct (st_type (n_lstat n)); try discriminate. reflexivity. }
  unfold _action_delete, bind, gets. rewrite Hi.
  unfold Fs.rmdir, refused_before. rewrite Hn, Hd. cbn [negb].
  destruct (String.eqb (Fs.last_name path) "."); [reflexivity|].
  destruct (String.eqb (Fs.last_name path) ".."); [reflexivity|].
  destruct (lib_remove_denied lib (fs s) path); reflexivity.
Qed.

(** A directory [d] with one entry and a symbolic link [l] to it. *)
Definition link_fs : filesys :=
  list_to_map
    [ ("d", directory ["x"]); ("d/x", regular_file 1 0);
      ("l", mk_node (mk_stat S_IFLNK 511 1 1 0 0 0 0 0 0 0) (Some "d") []) ].

Lemma delete_leaves_a_link_to_a_directory_witness :
  let s := initial_state link_fs [] in
  let n := mk_node (mk_stat S_IFLNK 511 1 1 0 0 0 0 0 0 0) (Some "d") [] in
  (fs s !! "l" = Some n /\ Fs.S_ISLNK (n_lstat n) = true
   /\ Fs.isdir (fs s) "l" = true)
  /\ _action_delete quiet_lib "l" s
     = Ok true (emit (Stderr (cannot_delete "l" ENOTDIR)) s).
Proof.
  intros s n.
  assert (H1 : fs s !! "l" = Some n) by (vm_compute; reflexivity).
  assert (H3 : Fs.isdir (fs s) "l" = true) by (vm_compute; reflexivity).
  split; [split; [exact H1|split; [reflexivity|exact H3]]|].
  exact (delete_leaves_a_link_to_a_directory quiet_lib "l" s n H1 eq_refl H3).
Defined.

(** The prompt of [-ok] and [-okdir]. *)
Definition ok_prompt (path : string) (command_parts : list string) : string :=
  ("< " ++ PyStr.join " " (map (PyStr.replace "{}" path) command_parts)
   ++ " > ? ")%string.

(** X24. [-ok] and [-okdir] run nothing unless the answer, in lower
    case, is [y] or [yes]. With any other line on standard input the
    action writes the prompt, takes the line, and is true; at the end of
    standard input it writes the prompt and an empty line and is true.
    No command is run and the file system is as before. *)
Theorem ok_runs_nothing_without_a_yes lib is_dir path parts s :
  match stdin s with
  | [] => True
  | r :: _ => lib_lower lib r <> "y" /\ lib_lower lib r <> "yes"
  end ->
  _action_exec_with lib true is_dir path parts s
  = Ok true
      (mk_state (pos s) (prune_paths s) (fs s) (ticks s) (tail (stdin s))
         (trace s ++ Stdout (ok_prompt path parts)
            :: match stdin s with [] => [Stdout nl] | _ => [] end)).
Proof.
  intros H. unfold _action_exec_with, input, read_line, write_stdout, print,
    write_stdout, bind, modify, ret.
  cbn [stdin emit]. fold (ok_prompt path parts).
  destruct (stdin s) as [|r rest] eqn:E.
  - cbn [negb]. unfold emit.
    cbn [pos prune_paths fs ticks stdin trace tail]. rewrite E.
    now rewrite <- app_assoc.
  - destruct H as [H1 H2]. apply String.eqb_neq in H1, H2.
    cbn [existsb]. rewrite H1, H2. cbn [orb negb]. unfold set_stdin, emit.
    cbn [pos prune_paths fs ticks stdin trace tail]. reflexivity.
Qed.

Lemma ok_runs_nothing_without_a_yes_witness :
  let s := initial_state scenario_fs ["n"] in
  match stdin s with
  | [] => True
  | r :: _ => lib_lower quiet_lib r <> "y" /\ lib_lower quiet_lib r <> "yes"
  end
  /\ _action_exec_with quiet_lib true false "t/a.txt" ["rm"; "{}"] s
     = Ok true
         (mk_state (pos s) (prune_paths s) (fs s) (ticks s) (tail (stdin s))
            (trace s ++ Stdout (ok_prompt "t/a.txt" ["rm"; "{}"])
               :: match stdin s with [] => [Stdout nl] | _ => [] end)).
Proof.
  intros s.
  assert (H : match stdin s with
              | [] => True
              | r :: _ => lib_lower quiet_lib r <> "y"
                          /\ lib_lower quiet_lib r <> "yes"
              end)
    by (split; discriminate).
  split; [exact H|].
  exact (ok_runs_nothing_without_a_yes quiet_lib false "t/a.txt" ["rm"; "{}"]
           s H).
Defined.

(* ===================================================================== *)
(** ** Commands *)
(* ===================================================================== *)

(** An argument of a command that is the placeholder, or has no opening
    brace in it. *)
Definition plain_part (a : string) : Prop :=
  a = "{}" \/ PyStr.count "{" a = 0%nat.

(** The argument with the placeholder filled in. *)
Definition fill (x : string) (part : string) : string :=
  if String.eqb part "{}" then x else part.

Lemma append_nil_r a : (a ++ "")%string = a.
Proof.
  induction a as [|c r IH]; [reflexivity|]. now rewrite append_cons, IH.
Qed.

Lemma replace_aux_no_brace n new : forall s,
  PyStr.count "{" s = 0%nat -> PyStr.replace_aux n "{}" new s = s.
Proof.
  induction n as [|n IH]; intros s Hs; [reflexivity|].
  cbn [PyStr.replace_aux].
  destruct s as [|c r]; [reflexivity|].
  cbn [PyStr.count] in Hs.
  destruct (Ascii.eqb "{" c) eqn:Ec; [simpl in Hs; lia|].
  assert (Hp : String.prefix "{}" (String c r) = false).
  { cbn [String.prefix]. destruct (ascii_dec "{" c) as [<-|]; [|reflexivity].
    discriminate Ec. }
  rewrite Hp, IH by (simpl in Hs; lia). reflexivity.
Qed.

Lemma replace_plain x a :
  plain_part a -> PyStr.replace "{}" x a = fill x a.
Proof.
  intros [->|Ha].
  - unfold fill. change (String.eqb "{}" "{}") with true. cbv iota.
    unfold PyStr.replace.
    change (PyStr.replace_aux (S (String.length "{}")) "{}" x "{}")
      with (x ++ "")%string.
    apply append_nil_r.
  - unfold fill. destruct (String.eqb_spec a "{}") as [->|_]; [discriminate Ha|].
    apply replace_aux_no_brace, Ha.
Qed.

Lemma map_replace_plain x parts :
  Forall plain_part parts ->
  map (PyStr.replace "{}" x) parts = map (fill x) parts.
Proof.
  induction 1 as [|a parts Ha _ IH]; [reflexivity|].
  cbn [map]. now rewrite IH, (replace_plain x a Ha).
Qed.

(** X25. [-exec] runs the command once for the entry, with every
    argument that is the placeholder replaced by the path of the entry
    and the other arguments as written, in the directory the program
    was started in; when the command has run, the action is true. *)
Theorem exec_fills_the_placeholder lib path parts s fs' :
  parts <> [] -> Forall plain_part parts ->
  lib_run lib (map (fill path) parts) None (fs s) = Ran fs' ->
  _action_exec lib path parts s
  = Ok true (set_fs fs' (emit (Spawned (map (fill path) parts) None) s)).
Proof.
  intros Hne Hparts Hrun.
  unfold _action_exec, _action_exec_with. unfold bind at 1, ret at 1.
  cbn [negb]. cbv iota. rewrite (map_replace_plain path parts Hparts).
  destruct (map (fill path) parts) as [|c0 cmd] eqn:E.
  { destruct parts; [congruence|discriminate E]. }
  unfold bind at 1, gets at 1. rewrite Hrun. reflexivity.
Qed.

Lemma exec_fills_the_placeholder_witness :
  let s := initial_state scenario_fs [] in
  (["echo"; "{}"] <> [] /\ Forall plain_part ["echo"; "{}"]
   /\ lib_run quiet_lib (map (fill "t/a.txt") ["echo"; "{}"]) None (fs s)
      = Ran scenario_fs)
  /\ _action_exec quiet_lib "t/a.txt" ["echo"; "{}"] s
     = Ok true
         (set_fs scenario_fs
            (emit (Spawned (map (fill "t/a.txt") ["echo"; "{}"]) None) s)).
Proof.
  intros s.
  assert (H1 : ["echo"; "{}"] <> []) by discriminate.
  assert (H2 : Forall plain_part ["echo"; "{}"]).
  { constructor; [right; reflexivity|].
    constructor; [left; reflexivity|constructor]. }
  split; [split; [exact H1|split; [exact H2|reflexivity]]|].
  exact (exec_fills_the_placeholder quiet_lib "t/a.txt" ["echo"; "{}"] s
           scenario_fs H1 H2 eq_refl).
Defined.

Lemma head_no_sep b : OsPath.has_sep b = false -> OsPath.head b = "".
Proof.
  intros H. destruct b as [|c r]; [reflexivity|].
  cbn [OsPath.head]. now rewrite H.
Qed.

Lemma head_app_sep a b :
  OsPath.has_sep b = false ->
  OsPath.head (a ++ String "/" b)%string = (a ++ "/")%string.
Proof.
  intros Hb. induction a as [|c r IH].
  - change ("" ++ String "/" b)%string with (String "/" b).
    pose proof (has_sep_app_sep "" b) as H.
    change ("" ++ String "/" b)%string with (String "/" b) in H.
    cbn [OsPath.head]. rewrite H, (head_no_sep b Hb). reflexivity.
  - pose proof (has_sep_app_sep (String c r) b) as H.
    rewrite !append_cons in *. cbn [OsPath.head]. rewrite H, IH.
    reflexivity.
Qed.

Lemma rstrip_app_sep root :
  root <> "" -> ends_with_sep root = false ->
  PyStr.rstrip (Ascii.eqb OsPath.sep) (root ++ "/")%string = root
  /\ PyStr.all_chars (Ascii.eqb OsPath.sep) (root ++ "/")%string = false.
Proof.
  induction root as [|c r IH]; [congruence|]. intros _ He.
  destruct r as [|d r'].
  - unfold ends_with_sep in He. cbn [PyStr.last] in He.
    rewrite Ascii.eqb_sym in He.
    change (String c "" ++ "/")%string with (String c (String "/" "")).
    rewrite all_chars_cons, He. cbn [PyStr.rstrip].
    change (Ascii.eqb OsPath.sep "/") with true. cbv iota.
    now rewrite He.
  - destruct IH as [IH1 IH2]; [discriminate|exact He|].
    rewrite append_cons, all_chars_cons, IH2, andb_false_r.
    cbn [PyStr.rstrip]. rewrite IH1. split; reflexivity.
Qed.

Lemma dirname_join root name :
  OsPath.has_sep name = false -> root <> "" -> ends_with_sep root = false ->
  OsPath.dirname (OsPath.join root name) = root.
Proof.
  intros Hn Hr He. unfold OsPath.join.
  rewrite (no_sep_not_absolute name Hn).
  unfold ends_with_sep in He.
  destruct (PyStr.last root) as [c|] eqn:El.
  2:{ destruct root as [|d r]; [congruence|]. exfalso. revert El. clear.
      revert d. induction r as [|e r IH]; intros d; [discriminate|].
      change (PyStr.last (String d (String e r)))
        with (PyStr.last (String e r)). apply IH. }
  rewrite He.
  change ("/" ++ name)%string with (String "/" name).
  unfold OsPath.dirname. rewrite (head_app_sep root name Hn).
  assert (He' : ends_with_sep root = false)
    by (unfold ends_with_sep; now rewrite El).
  destruct (rstrip_app_sep root Hr He') as [H1 H2].
  now rewrite H2, H1.
Qed.

(** X26. [-execdir] runs the command in the directory that holds the
    entry: for an entry the walk reaches as [os.path.join(root, name)],
    with [root] not ending in a separator, the working directory of the
    command is [root] and every argument that is the placeholder is
    replaced by [name] alone, without a leading [./]. *)
Theorem execdir_runs_in_the_directory_of_the_entry
    lib root name parts s fs' :
  OsPath.has_sep name = false -> root <> "" -> ends_with_sep root = false ->
  parts <> [] -> Forall plain_part parts ->
  lib_run lib (map (fill name) parts) (Some root) (fs s) = Ran fs' ->
  _action_execdir lib (OsPath.join root name) parts s
  = Ok true
      (set_fs fs' (emit (Spawned (map (fill name) parts) (Some root)) s)).
Proof.
  intros Hn Hr He Hne Hparts Hrun.
  unfold _action_execdir, _action_exec_with. unfold bind at 1, ret at 1.
  cbn [negb]. cbv iota.
  rewrite (basename_join root name Hn), (dirname_join root name Hn Hr He).
  rewrite (map_replace_plain name parts Hparts).
  destruct (map (fill name) parts) as [|c0 cmd] eqn:E.
  { destruct parts; [congruence|discriminate E]. }
  unfold bind at 1, gets at 1. rewrite Hrun. reflexivity.
Qed.

Lemma execdir_runs_in_the_directory_of_the_entry_witness :
  let s := initial_state scenario_fs [] in
  (OsPath.has_sep "b.log" = false /\ "t/sub" <> ""
   /\ ends_with_sep "t/sub" = false
   /\ ["echo"; "{}"] <> [] /\ Forall plain_part ["echo"; "{}"]
   /\ lib_run quiet_lib (map (fill "b.log") ["echo"; "{}"]) (Some "t/sub")
        (fs s) = Ran scenario_fs)
  /\ _action_execdir quiet_lib (OsPath.join "t/sub" "b.log") ["echo"; "{}"] s
     = Ok true
         (set_fs scenario_fs
            (emit (Spawned (map (fill "b.log") ["echo"; "{}"])
                     (Some "t/sub")) s)).
Proof.
  intros s.
  assert (H1 : "t/sub" <> "") by discriminate.
  assert (H2 : ["echo"; "{}"] <> []) by discriminate.
  assert (H3 : Forall plain_part ["echo"; "{}"]).
  { constructor; [right; reflexivity|].
    constructor; [left; reflexivity|constructor]. }
  split.
  { split; [reflexivity|]. split; [exact H1|]. split; [reflexivity|].
    split; [exact H2|]. split; [exact H3|reflexivity]. }
  exact (execdir_runs_in_the_directory_of_the_entry quiet_lib "t/sub" "b.log"
           ["echo"; "{}"] s scenario_fs eq_refl H1 eq_refl H2 H3 eq_refl).
Defined.

(* ===================================================================== *)
(** ** Where the evaluation stops *)
(* ===================================================================== *)

(** X27. A comma ends the evaluation. [,] stops [_parse_and_expr], and
    [_parse_or_expr] then returns, so that for every expression [A]
    without an OR outside parentheses the evaluation of [A , rest]
    evaluates [A] and, when it returns, leaves the cursor on the comma:
    no token of [rest] is looked at, whatever [rest] is. *)
Theorem comma_ends_the_evaluation lib opts A rest path s :
  AndExpr A ->
  match _evaluate_expression lib opts (A ++ "," :: rest) path s with
  | Ok _ s' => pos s' = length A
  | Raise _ _ => True
  | OutOfFuel => False
  end.
Proof.
  intros HA. set (toks := A ++ "," :: rest).
  pose proof (_evaluate_expression_returns lib opts toks path s) as Hr.
  assert (H : cursor_spec 0
                (_parse_or_expr lib opts toks (enough_fuel toks) path)
                (fun _ q => q = length A)).
  { unfold _parse_or_expr, or_expr, enough_fuel.
    destruct (evaluator_parses_grammar lib opts toks path)
      as (_ & _ & _ & Hand & _).
    eapply cursor_bind.
    { apply (Hand A HA _ _ _ 0%nat ("," :: rest)); reflexivity. }
    intros v q ->. cbn [or_loop]. apply cursor_peek.
    assert (Ht : toks !! (0 + length A)%nat = Some ",").
    { unfold toks. rewrite lookup_app_r by lia.
      now replace (0 + length A - length A)%nat with 0%nat by lia. }
    rewrite Ht. now apply cursor_ret. }
  specialize (H (set_pos 0 s) eq_refl). revert Hr H.
  unfold _evaluate_expression, bind, modify.
  destruct (_parse_or_expr _ _ _ _ _ _);
    [intros _ H; exact H|intros; exact I|congruence].
Qed.

Lemma comma_ends_the_evaluation_witness :
  AndExpr ["-true"]
  /\ match _evaluate_expression quiet_lib default_options
             (["-true"] ++ "," :: ["-delete"]) "t/a.txt"
             (initial_state scenario_fs []) with
     | Ok _ s' => pos s' = length ["-true"]
     | Raise _ _ => True
     | OutOfFuel => False
     end.
Proof.
  assert (H : AndExpr ["-true"]).
  { apply (A_intro ["-true"] []); [apply N_primary, grammar_true|constructor]. }
  split; [exact H|].
  exact (comma_ends_the_evaluation quiet_lib default_options ["-true"]
           ["-delete"] "t/a.txt" (initial_state scenario_fs []) H).
Defined.

(* ===================================================================== *)
(** ** Depth limits that cannot be read *)
(* ===================================================================== *)

Lemma pre_process_options_skip pre : forall o acc tokens,
  Forall (fun t => is_option t = false) pre ->
  _pre_process_options o acc (pre ++ tokens)
  = _pre_process_options o (acc ++ pre) tokens.
Proof.
  induction pre as [|t pre IH]; intros o acc tokens Hpre.
  - now rewrite app_nil_r.
  - apply Forall_cons_1 in Hpre as [Ht Hpre]. cbn [app].
    rewrite pre_process_options_step by exact Ht.
    rewrite IH by exact Hpre. now rewrite <- app_assoc.
Qed.

(** X28. A depth limit that cannot be read is an error of
    [_pre_process_options]: when [-maxdepth] or [-mindepth] is the last
    token it raises IndexError, and when the token after it is not an
    integer literal it raises the ValueError of [int()]. The tokens
    before the option do not matter as long as none of them is an
    option. *)
Theorem depth_limit_needs_an_integer o acc pre tok v rest :
  Forall (fun t => is_option t = false) pre ->
  In tok ["-maxdepth"; "-mindepth"] ->
  PyInt.int v = None ->
  _pre_process_options o acc (pre ++ [tok]) = inl (OtherError "IndexError")
  /\ _pre_process_options o acc (pre ++ tok :: v :: rest)
     = inl (ValueError ("invalid literal for int() with base 10: '"
                        ++ v ++ "'")).
Proof.
  intros Hpre Htok Hv.
  rewrite !pre_process_options_skip by exact Hpre.
  cbn [In] in Htok.
  destruct Htok as [<-|[<-|[]]]; cbn [_pre_process_options];
    unfold int_or_raise; rewrite Hv; split; reflexivity.
Qed.

Lemma depth_limit_needs_an_integer_witness :
  (Forall (fun t => is_option t = false) ["-name"; "x"]
   /\ In "-maxdepth" ["-maxdepth"; "-mindepth"]
   /\ PyInt.int "two" = None)
  /\ _pre_process_options default_options [] (["-name"; "x"] ++ ["-maxdepth"])
     = inl (OtherError "IndexError")
  /\ _pre_process_options default_options []
       (["-name"; "x"] ++ "-maxdepth" :: "two" :: ["-print"])
     = inl (ValueError ("invalid literal for int() with base 10: '"
                        ++ "two" ++ "'")).
Proof.
  assert (H1 : Forall (fun t => is_option t = false) ["-name"; "x"])
    by (repeat constructor).
  assert (H2 : In "-maxdepth" ["-maxdepth"; "-mindepth"]) by (simpl; tauto).
  assert (H3 : PyInt.int "two" = None) by reflexivity.
  split; [auto|].
  exact (depth_limit_needs_an_integer default_options [] ["-name"; "x"]
           "-maxdepth" "two" ["-print"] H1 H2 H3).
Defined.

(* ===================================================================== *)
(** ** The type test *)
(* ===================================================================== *)

(** The letter [-type] knows a file type by. *)
Definition type_letter (t : ftype) : ascii :=
  match t with
  | S_IFBLK => "b" | S_IFCHR => "c" | S_IFDIR => "d" | S_IFIFO => "p"
  | S_IFREG => "f" | S_IFLNK => "l" | S_IFSOCK => "s"
  end%char.

Lemma type_map_letter t c :
  match type_map c with
  | Some t' => ftype_eqb t t'
  | None => false
  end = Ascii.eqb (type_letter t) c.
Proof.
  unfold type_map.
  repeat match goal with
         | |- context [Ascii.eqb c ?x] =>
             destruct (Ascii.eqb_spec c x) as [->|?]; [now destruct t|]
         end.
  symmetry. apply Ascii.eqb_neq. destruct t; cbn [type_letter]; congruence.
Qed.

(** X29. [-type] with a string of letters is true exactly when the
    letter of the type of the entry itself (a symbolic link is not
    followed) is one of them; characters that are no type letter, such
    as a comma between the letters, are passed over without an error.
    For an entry that is not there it is false; a lookup that fails
    otherwise raises an OSError that the test does not catch. *)
Theorem type_matches_any_of_its_letters path cs s :
  _test_type path (Some cs) s
  = match Fs.lstat_or_error (fs s) path with
    | inr st => Ok (0 <? PyStr.count (type_letter (st_type st)) cs)%nat s
    | inl ENOENT => Ok false s
    | inl e => Raise (OtherError (exception_name e)) s
    end.
Proof.
  unfold _test_type, os_lstat, bind, gets.
  destruct (Fs.lstat_or_error (fs s) path) as [[]|st]; try reflexivity.
  unfold ret. f_equal.
  induction cs as [|c r IH]; [reflexivity|].
  cbn [list_ascii_of_string existsb PyStr.count].
  rewrite IH, type_map_letter.
  destruct (Ascii.eqb (type_letter (st_type st)) c); [reflexivity|].
  reflexivity.
Qed.

(* ===================================================================== *)
(** ** Symbolic links to directories *)
(* ===================================================================== *)

Lemma evaluate_print lib opts path s :
  evaluate_entry lib opts ["-print"] path s
  = Ok true (set_pos 1 (emit (Stdout (path ++ nl)%string) s)).
Proof. reflexivity. Qed.

(** The state after [-print] has been evaluated on the entries [names]
    of [root]. *)
Definition listed (root : string) (names : list string) (s : state) : state :=
  fold_left (fun s name =>
               set_pos 1 (emit (Stdout (OsPath.join root name ++ nl)%string) s))
    names s.

Lemma for_each_listed lib opts root names : forall s,
  for_each (fun name =>
              evaluate_entry lib opts ["-print"] (OsPath.join root name) ;;
              ret tt) names s
  = Ok tt (listed root names s).
Proof.
  induction names as [|x names IH]; intros s; [reflexivity|].
  cbn [for_each]. unfold bind at 1, bind at 1.
  rewrite evaluate_print. unfold ret at 1. rewrite IH. reflexivity.
Qed.

Lemma listed_fields root names : forall s,
  fs (listed root names s) = fs s
  /\ prune_paths (listed root names s) = prune_paths s
  /\ trace (listed root names s)
     = trace s ++ map (fun name => Stdout (OsPath.join root name ++ nl)%string)
                    names.
Proof.
  induction names as [|x names IH]; intros s; cbn [listed fold_left map].
  - now rewrite app_nil_r.
  - destruct (IH (set_pos 1 (emit (Stdout (OsPath.join root x ++ nl)%string) s)))
      as (H1 & H2 & H3).
    fold (listed root names
            (set_pos 1 (emit (Stdout (OsPath.join root x ++ nl)%string) s))).
    rewrite H1, H2, H3. cbn [fs prune_paths trace set_pos emit].
    now rewrite <- app_assoc.
Qed.

Lemma links_are_passed_over lib opts toks start n top dirs : forall s,
  follow opts = false ->
  Forall (fun d => Fs.islink (fs s) (OsPath.join top d) = true) dirs ->
  for_each (fun dirname =>
              let new_path := OsPath.join top dirname in
              let* is_link := gets (fun s => Fs.islink (fs s) new_path) in
              if follow opts || negb is_link
              then walk_topdown lib opts toks start n new_path
              else ret tt) dirs s
  = Ok tt s.
Proof.
  intros s Hf Hd. cbv zeta. rewrite Hf.
  induction Hd as [|d dirs Hl _ IH]; [reflexivity|].
  cbn [for_each]. unfold bind at 1, bind at 1, gets at 1.
  rewrite Hl. cbn [negb orb]. unfold ret at 1. exact IH.
Qed.

Lemma filter_all {A} (f : A -> bool) (l : list A) :
  (forall x, f x = true) -> List.filter f l = l.
Proof.
  intros H. induction l as [|x l IH]; [reflexivity|].
  cbn [List.filter]. now rewrite H, IH.
Qed.

(** X30. Without [-L] or [-follow] the walk does not go down into a
    symbolic link to a directory. For a directory whose subdirectories
    are all symbolic links, [find top] prints the directory, its files
    and the links, each once, and nothing of what the links lead to. *)
Theorem links_to_directories_are_not_entered lib n top fs0 stdin0 dirs files :
  Fs.scandir fs0 top = Some (dirs, files) ->
  Forall (fun d => Fs.islink fs0 (OsPath.join top d) = true) dirs ->
  exists s',
    walk_topdown lib default_options ["-print"] top (S n) top
      (initial_state fs0 stdin0)
    = Ok tt s'
    /\ trace s'
       = Stdout (top ++ nl)%string
         :: map (fun name => Stdout (OsPath.join top name ++ nl)%string)
              (files ++ dirs)
    /\ fs s' = fs0.
Proof.
  intros Hscan Hlinks.
  set (s1 := set_pos 1 (emit (Stdout (top ++ nl)%string)
                          (initial_state fs0 stdin0))).
  exists (listed top dirs (listed top files s1)).
  destruct (listed_fields top files s1) as (F1 & P1 & T1).
  destruct (listed_fields top dirs (listed top files s1)) as (F2 & P2 & T2).
  split; [|split].
  - cbn [walk_topdown]. unfold bind at 1, gets at 1.
    change (fs (initial_state fs0 stdin0)) with fs0. rewrite Hscan.
    cbv beta iota. unfold preorder_body.
    change (maxdepth default_options) with (@None Z).
    change (mindepth default_options) with 0.
    rewrite level_of_start. cbn [le_max lt_max ge_max].
    change (0 <=? 0) with true. change (0 <=? 0 + 1) with true.
    cbn [andb]. unfold bind at 1, bind at 1, gets at 1.
    change (prune_paths (initial_state fs0 stdin0)) with (∅ : gset string).
    rewrite (filter_all _ dirs)
      by (intros d; apply negb_true_iff, bool_decide_eq_false_2,
            not_elem_of_empty).
    unfold bind at 1, bind at 1. rewrite evaluate_print. fold s1.
    unfold gets at 1.
    rewrite (bool_decide_eq_false_2 (top ∈ prune_paths s1))
      by apply not_elem_of_empty.
    cbv iota. unfold bind at 1, bind at 1.
    rewrite for_each_listed. cbv iota. rewrite for_each_listed.
    unfold ret at 1.
    apply links_are_passed_over; [reflexivity|].
    rewrite F2, F1. exact Hlinks.
  - rewrite T2, T1. subst s1. cbn [trace set_pos emit initial_state app].
    now rewrite map_app.
  - rewrite F2, F1. reflexivity.
Qed.

(** A directory [w] that holds a file and a symbolic link to the
    directory [d]. *)
Definition linked_fs : filesys :=
  list_to_map
    [ ("w", directory ["f"; "l"]); ("w/f", regular_file 1 0);
      ("w/l", mk_node (mk_stat S_IFLNK 511 1 1 0 0 0 0 0 0 0) (Some "d") []);
      ("d", directory ["x"]); ("d/x", regular_file 1 0) ].

Lemma links_to_directories_are_not_entered_witness :
  (Fs.scandir linked_fs "w" = Some (["l"], ["f"])
   /\ Forall (fun d => Fs.islink linked_fs (OsPath.join "w" d) = true) ["l"])
  /\ exists s',
      walk_topdown quiet_lib default_options ["-print"] "w" 1 "w"
        (initial_state linked_fs [])
      = Ok tt s'
      /\ trace s'
         = Stdout ("w" ++ nl)%string
           :: map (fun name => Stdout (OsPath.join "w" name ++ nl)%string)
                (["f"] ++ ["l"])
      /\ fs s' = linked_fs.
Proof.
  assert (H1 : Fs.scandir linked_fs "w" = Some (["l"], ["f"]))
    by (vm_compute; reflexivity).
  assert (H2 : Forall (fun d => Fs.islink linked_fs (OsPath.join "w" d) = true)
                 ["l"])
    by (constructor; [vm_compute; reflexivity|constructor]).
  split; [split; assumption|].
  exact (links_to_directories_are_not_entered quiet_lib 0 "w" linked_fs
           [] ["l"] ["f"] H1 H2).
Defined.

(* ===================================================================== *)
(** ** Missing files in a run *)
(* ===================================================================== *)

(** Running a computation up to the next lookup of meta data. *)
Ltac lookup_head :=
  match goal with
  | |- ?l = _ =>
      let l' := eval lazy head beta iota zeta delta
                  -[Fs.stat_or_error Fs.lstat_or_error Fs.isdir Fs.stat
                    Fs.lstat Fs.islink Fs.scandir Fs.exists_ Fs.access
                    Fs.listdir os_stat os_lstat _test_type _test_perm
                    _test_size _test_time _test_empty _test_links _test_inum
                    _test_access _test_newer_attr
                    union singleton elem_of bool_decide OsPath.basename
                    OsPath.join String.append nl for_each] in l in
      change l with l'
  end;
  cbn [fs pos prune_paths ticks stdin trace set_pos set_fs set_ticks
       set_stdin set_prune_paths emit].

Section MissingFiles.

Variable lib : Lib.
Variable opts : options.

(** A newer-than-reference predicate whose reference file does not exist
    writes the message and raises SystemExit(1), whatever the entry. *)
Lemma newer_without_reference attr path ref s :
  Fs.stat_or_error (fs s) ref = inl ENOENT ->
  _test_newer_attr attr path (Some ref) s
  = Raise (SystemExit 1) (emit (Stderr (no_such_file ref)) s).
Proof.
  intros Href. unfold _test_newer_attr, bind.
  rewrite (os_stat_not_found _ _ Href). reflexivity.
Qed.

(** So does the evaluation of an expression that starts with it. *)
Lemma evaluation_without_reference tok ref rest path s :
  In tok newer_predicates ->
  Fs.stat_or_error (fs s) ref = inl ENOENT ->
  evaluate_entry lib opts (tok :: ref :: rest) path s
  = Raise (SystemExit 1) (emit (Stderr (no_such_file ref)) (set_pos 2 s)).
Proof.
  intros Hin Href. unfold newer_predicates in Hin.
  repeat (destruct Hin as [<-|Hin];
          [lookup_head; rewrite newer_without_reference by exact Href;
           reflexivity|]).
  destruct Hin.
Qed.

(** The other predicates that look up the meta data of the entry are
    false for an entry that is no longer there; nothing but the clock
    has changed then. *)
Section Vanished.

Variable path : string.
Variable s : state.
Hypothesis vanished : Fs.lstat_or_error (fs s) path = inl ENOENT.

Lemma vanished_type a : _test_type path (Some a) s = Ok false s.
Proof.
  unfold _test_type, bind. now rewrite (os_lstat_not_found _ _ vanished).
Qed.

Lemma vanished_perm a : _test_perm path (Some a) s = Ok false s.
Proof.
  unfold _test_perm, bind.
  now rewrite (os_stat_not_found _ _ (not_found_stat _ _ vanished)).
Qed.

Lemma vanished_size a : a <> "" -> _test_size path (Some a) s = Ok false s.
Proof.
  intros Ha. destruct (last_nonempty a Ha) as [c Hc].
  unfold _test_size. rewrite Hc. destruct (unit_map c); unfold bind;
    now rewrite (os_lstat_not_found _ _ vanished).
Qed.

Lemma vanished_links a : _test_links path (Some a) s = Ok false s.
Proof.
  unfold _test_links, bind.
  now rewrite (os_stat_not_found _ _ (not_found_stat _ _ vanished)).
Qed.

Lemma vanished_inum a : _test_inum path (Some a) s = Ok false s.
Proof.
  unfold _test_inum, bind.
  now rewrite (os_stat_not_found _ _ (not_found_stat _ _ vanished)).
Qed.

Lemma vanished_empty : _test_empty path s = Ok false s.
Proof.
  unfold _test_empty, bind, gets.
  destruct (not_found_lookup _ _ vanished) as [Hl _].
  now rewrite (lstat_missing _ _ Hl).
Qed.

Lemma vanished_access m : _test_access lib m path s = Ok false s.
Proof.
  unfold _test_access, gets, Fs.access.
  now rewrite (stat_error_None _ _ _ (not_found_stat _ _ vanished)).
Qed.

End Vanished.

Lemma vanished_time attr unit path a s :
  Fs.lstat_or_error (fs s) path = inl ENOENT ->
  _test_time lib opts attr unit path (Some a) s
  = Ok false (set_ticks (S (ticks s)) s).
Proof.
  intros H. unfold _test_time, bind, datetime_now.
  rewrite os_stat_not_found; [reflexivity|].
  apply not_found_stat. exact H.
Qed.

(** The expression [tok arg -o -print] prints an entry that is no longer
    there: the predicate is false, and the evaluation goes on with what
    follows [-o]. *)
Lemma vanished_entry_is_printed tok a path s :
  In tok lookup_predicates -> a <> "" ->
  Fs.lstat_or_error (fs s) path = inl ENOENT ->
  exists s',
    evaluate_entry lib opts
      (tok :: repeat a (_get_num_args tok) ++ ["-o"; "-print"]) path s
    = Ok true s'
    /\ fs s' = fs s /\ prune_paths s' = prune_paths s
    /\ stdin s' = stdin s
    /\ trace s' = trace s ++ [Stdout (path ++ nl)%string].
Proof.
  intros Hin Ha Hv. unfold lookup_predicates in Hin.
  repeat (destruct Hin as [<-|Hin]; [|]); [..|destruct Hin].
  all: match goal with
       | |- context [_get_num_args ?t] =>
           let n := eval vm_compute in (_get_num_args t) in
           change (_get_num_args t) with n
       end;
    cbn [repeat app];
    eexists; split;
    [ lookup_head;
      first [ rewrite vanished_type by exact Hv
            | rewrite vanished_perm by exact Hv
            | rewrite vanished_size by assumption
            | rewrite vanished_time by exact Hv
            | rewrite vanished_empty by exact Hv
            | rewrite vanished_links by exact Hv
            | rewrite vanished_inum by exact Hv
            | rewrite vanished_access by exact Hv ];
      lookup_head; reflexivity
    | cbn [fs pos prune_paths ticks stdin trace set_pos set_fs set_ticks
           set_stdin set_prune_paths emit]; repeat split ].
Qed.

End MissingFiles.

Lemma not_dash_differs a t :
  PyStr.startswith "-" a = false -> PyStr.startswith "-" t = true ->
  String.eqb a t = false.
Proof. intros Ha Ht. apply String.eqb_neq. intros ->. congruence. Qed.

Lemma not_dash_not_option a :
  PyStr.startswith "-" a = false -> is_option a = false.
Proof.
  intros Ha. unfold is_option, option_names. cbn [existsb].
  now rewrite !(not_dash_differs a _ Ha) by reflexivity.
Qed.

Lemma not_dash_not_action a :
  PyStr.startswith "-" a = false ->
  existsb (String.eqb a) action_names = false.
Proof.
  intros Ha. unfold action_names. cbn [existsb].
  now rewrite !(not_dash_differs a _ Ha) by reflexivity.
Qed.

Lemma not_dash_not_help a :
  PyStr.startswith "-" a = false -> String.eqb "--help" a = false.
Proof. intros Ha. apply String.eqb_neq. intros <-. discriminate Ha. Qed.

Lemma start_path_no_dash p :
  starts_expression p = false -> PyStr.startswith "-" p = false.
Proof. unfold starts_expression. intros H. now apply orb_false_iff in H. Qed.

(** The walk, up to the next directory scan, evaluation or loop. *)
Ltac run_step :=
  match goal with
  | |- ?l = _ =>
      let l' := eval lazy head beta iota zeta delta
                  -[Fs.isdir Fs.stat Fs.lstat Fs.islink Fs.scandir Fs.exists_
                    union singleton elem_of bool_decide OsPath.basename
                    OsPath.join String.append nl for_each evaluate_entry
                    level_of] in l in
      change l with l'
  end;
  cbn [fs pos prune_paths ticks stdin trace set_pos set_fs set_ticks
       set_stdin set_prune_paths emit].

Lemma initial_paths_then ps t r :
  Forall (fun p => starts_expression p = false) ps ->
  starts_expression t = true ->
  initial_paths (ps ++ t :: r) = ps.
Proof.
  intros Hps Ht. induction Hps as [|p ps Hp _ IH]; cbn [app initial_paths].
  - now rewrite Ht.
  - now rewrite Hp, IH.
Qed.

Lemma init_newer p ps tok ref :
  Forall (fun p => starts_expression p = false) (p :: ps) ->
  In tok newer_predicates ->
  PyStr.startswith "-" ref = false ->
  __init__ ((p :: ps) ++ [tok; ref])
  = inr (mk_finder (p :: ps) default_options [tok; ref; "-print"]).
Proof.
  intros Hp Hin Hr. unfold __init__, _parse_initial_args.
  assert (Ht : starts_expression tok = true).
  { unfold newer_predicates in Hin.
    repeat (destruct Hin as [<-|Hin]; [reflexivity|]). destruct Hin. }
  rewrite (initial_paths_then _ _ _ Hp Ht).
  rewrite (drop_app_length' (p :: ps) [tok; ref]) by reflexivity.
  assert (Ho : is_option tok = false).
  { unfold newer_predicates in Hin.
    repeat (destruct Hin as [<-|Hin]; [reflexivity|]). destruct Hin. }
  rewrite pre_process_options_step by exact Ho.
  rewrite pre_process_options_step by (now apply not_dash_not_option).
  cbn [_pre_process_options app existsb].
  rewrite (not_dash_not_action ref Hr).
  unfold newer_predicates in Hin.
  repeat (destruct Hin as [<-|Hin]; [reflexivity|]). destruct Hin.
Qed.

(** A run whose first evaluation meets a newer-than-reference predicate
    without its reference file ends there: nothing is printed, and the
    start paths that follow are not visited. *)
Lemma run_without_reference lib n p ps tok ref dirs files s :
  In tok newer_predicates ->
  Fs.scandir (fs s) p = Some (dirs, files) ->
  Fs.stat_or_error (fs s) ref = inl ENOENT ->
  run lib default_options [tok; ref; "-print"] (S n) (p :: ps) s
  = Raise (SystemExit 1) (emit (Stderr (no_such_file ref)) (set_pos 2 s)).
Proof.
  intros Hin Hscan Href.
  destruct (scandir_dirs _ _ _ _ Hscan) as [Hex _].
  unfold run. cbn [for_each]. run_step. rewrite Hex. run_step.
  rewrite Hscan. run_step.
  rewrite level_of_start. run_step.
  rewrite evaluation_without_reference by assumption. reflexivity.
Qed.

Lemma init_lookup p tok a :
  starts_expression p = false -> In tok lookup_predicates ->
  PyStr.startswith "-" a = false ->
  __init__ (p :: "-mindepth" :: "1" :: tok
              :: repeat a (_get_num_args tok) ++ ["-o"; "-print"])
  = inr (mk_finder [p] (set_mindepth 1 default_options)
           (tok :: repeat a (_get_num_args tok) ++ ["-o"; "-print"])).
Proof.
  intros Hp Hin Ha. unfold __init__, _parse_initial_args.
  cbn [initial_paths]. rewrite Hp.
  change (starts_expression "-mindepth") with true. cbn [length drop].
  change (_pre_process_options default_options []
            ("-mindepth" :: "1" :: ?r))
    with (_pre_process_options (set_mindepth 1 default_options) [] r).
  unfold lookup_predicates in Hin.
  repeat (destruct Hin as [<-|Hin]; [|]); [..|destruct Hin].
  all: match goal with
       | |- context [_get_num_args ?t] =>
           let n := eval vm_compute in (_get_num_args t) in
           change (_get_num_args t) with n
       end;
    cbn [repeat app];
    repeat first
      [ rewrite pre_process_options_step by reflexivity
      | rewrite (pre_process_options_step _ _ a)
          by (now apply not_dash_not_option) ];
    cbn [_pre_process_options app];
    match goal with
    | |- context [if existsb ?P ?l then _ else _] =>
        replace (existsb P l) with true
          by (symmetry; apply existsb_exists; exists "-print";
              split; [simpl; tauto|reflexivity])
    end;
    reflexivity.
Qed.

(** The loop over the names of a directory, when each of them is
    evaluated to true and printed. *)
Lemma for_each_shown (f0 : filesys) root (f : string -> M unit) names :
  (forall name s, In name names -> fs s = f0 ->
      exists s', f name s = Ok tt s'
                 /\ fs s' = fs s /\ prune_paths s' = prune_paths s
                 /\ stdin s' = stdin s
                 /\ trace s'
                    = trace s ++ [Stdout (OsPath.join root name ++ nl)%string])
  -> forall s, fs s = f0 ->
     exists s', for_each f names s = Ok tt s'
                /\ fs s' = fs s /\ prune_paths s' = prune_paths s
                /\ stdin s' = stdin s
                /\ trace s'
                   = trace s
                     ++ map (fun name =>
                               Stdout (OsPath.join root name ++ nl)%string)
                          names.
Proof.
  induction names as [|x r IH]; intros Hf s Hs.
  - exists s. cbn [for_each map]. rewrite app_nil_r. repeat split.
  - destruct (Hf x s (or_introl eq_refl) Hs) as (s1 & H1 & F1 & P1 & I1 & T1).
    destruct (IH (fun name s' Hin => Hf name s' (or_intror Hin)) s1
                ltac:(congruence))
      as (s2 & H2 & F2 & P2 & I2 & T2).
    exists s2. cbn [for_each map]. unfold bind. rewrite H1, H2.
    split; [reflexivity|]. rewrite F2, P2, I2, T2, F1, P1, I1, T1.
    rewrite <- app_assoc. repeat split.
Qed.

(** A run over a directory whose entries are no longer there when they
    are looked up: every one of them is evaluated, the predicate is
    false for it, and what follows [-o] prints it. *)
Lemma run_over_vanished_entries lib n p tok a files s :
  In tok lookup_predicates -> a <> "" ->
  Fs.scandir (fs s) p = Some ([], files) ->
  Forall (fun f => Fs.lstat_or_error (fs s) (OsPath.join p f) = inl ENOENT)
    files ->
  exists s',
    run lib (set_mindepth 1 default_options)
      (tok :: repeat a (_get_num_args tok) ++ ["-o"; "-print"]) (S n) [p] s
    = Ok tt s'
    /\ fs s' = fs s /\ stdin s' = stdin s
    /\ trace s'
       = trace s
         ++ map (fun name => Stdout (OsPath.join p name ++ nl)%string) files.
Proof.
  intros Hin Ha Hscan Hfiles.
  destruct (scandir_dirs _ _ _ _ Hscan) as [Hex _].
  rewrite List.Forall_forall in Hfiles.
  set (toks := tok :: repeat a (_get_num_args tok) ++ ["-o"; "-print"]).
  set (body := fun name =>
                 evaluate_entry lib (set_mindepth 1 default_options) toks
                   (OsPath.join p name) ;; ret tt).
  destruct (for_each_shown (fs s) p body files) with (s := s)
    as (s1 & H1 & F1 & P1 & I1 & T1).
  { intros name s0 Hname Hs0.
    destruct (vanished_entry_is_printed lib (set_mindepth 1 default_options)
                tok a (OsPath.join p name) s0 Hin Ha)
      as (s' & H' & F' & P' & I' & T').
    { rewrite Hs0. now apply Hfiles. }
    exists s'. split; [|now repeat split].
    unfold body, bind. fold toks in H'. rewrite H'. reflexivity. }
  { reflexivity. }
  exists s1. split; [|now rewrite F1, I1, T1].
  unfold run. cbn [for_each].
  run_step. rewrite Hex. run_step. rewrite Hscan. run_step.
  rewrite level_of_start. run_step.
  match goal with
  | |- context [for_each ?f files s] =>
      change (for_each f files s) with (for_each body files s)
  end.
  rewrite H1. cbn [ge_max maxdepth default_options List.filter for_each].
  reflexivity.
Qed.

(** C9. A newer-than-reference predicate whose reference file does not
    exist is fatal. Whatever the entry, the evaluation of an expression
    that starts with it writes the message on the error stream and
    raises SystemExit(1); and a run of [main] over a start directory
    with the expression [-newer ref] (or [-anewer], [-cnewer]) ends at
    the first entry with exit status 1: the message is all that has been
    written, and the start paths that follow are not visited.

    A failure to find the visited entry itself is not fatal for the
    other predicates that look up its meta data. For an entry that is
    no longer there, each of them returns false, and nothing but the
    clock has changed; and a run of [main] with the expression
    [tok arg -o -print] over a directory whose entries are all gone when
    they are looked up goes through every one of them, prints it, and
    ends with exit status 0. *)
Theorem missing_reference_is_fatal_missing_entry_is_not
    lib n p fs0 stdin0 dirs files :
  starts_expression p = false ->
  Fs.scandir fs0 p = Some (dirs, files) ->
  (forall tok ref,
      In tok newer_predicates ->
      Fs.stat_or_error fs0 ref = inl ENOENT ->
      (forall opts rest path s,
          fs s = fs0 ->
          evaluate_entry lib opts (tok :: ref :: rest) path s
          = Raise (SystemExit 1)
              (emit (Stderr (no_such_file ref)) (set_pos 2 s)))
      /\ forall ps,
          PyStr.startswith "-" ref = false ->
          Forall (fun q => starts_expression q = false) ps ->
          main lib (S n) ("find.py" :: (p :: ps) ++ [tok; ref]) fs0 stdin0
          = Some (1, mk_state 2 ∅ fs0 0 stdin0 [Stderr (no_such_file ref)]))
  /\ (forall tok a,
         In tok lookup_predicates -> a <> "" ->
         (forall opts path s,
             Fs.lstat_or_error (fs s) path = inl ENOENT ->
             exists f s',
               assoc tok (_tests lib opts) = Some f
               /\ f path (repeat (Some a) (_get_num_args tok)) s = Ok false s'
               /\ s' = set_ticks (ticks s') s)
         /\ (PyStr.startswith "-" a = false ->
             dirs = [] ->
             Forall (fun f => Fs.lstat_or_error fs0 (OsPath.join p f)
                              = inl ENOENT) files ->
             exists s',
               main lib (S n)
                 ("find.py" :: p :: "-mindepth" :: "1" :: tok
                    :: repeat a (_get_num_args tok) ++ ["-o"; "-print"])
                 fs0 stdin0
               = Some (0, s')
               /\ fs s' = fs0
               /\ trace s'
                  = map (fun f => Stdout (OsPath.join p f ++ nl)%string)
                      files)).
Proof.
  intros Hp Hscan.
  pose proof (not_dash_not_help p (start_path_no_dash p Hp)) as Hhp.
  split.
  - intros tok ref Hin Href. split.
    + intros opts rest path s Hs. apply evaluation_without_reference;
        [exact Hin|now rewrite Hs].
    + intros ps Hr Hps. unfold main.
      assert (Hh : existsb (String.eqb "--help")
                     ("find.py" :: (p :: ps) ++ [tok; ref]) = false).
      { cbn [existsb app]. rewrite existsb_app, Hhp.
        rewrite (no_help_among_paths ps Hps). cbn [existsb].
        rewrite (not_dash_not_help ref Hr).
        unfold newer_predicates in Hin.
        repeat (destruct Hin as [<-|Hin]; [reflexivity|]). destruct Hin. }
      rewrite Hh.
      assert (Hl : (length ("find.py" :: (p :: ps) ++ [tok; ref]) =? 1)%nat
                   = false) by reflexivity.
      rewrite Hl. cbn [orb tail].
      assert (Hpps : Forall (fun q => starts_expression q = false) (p :: ps))
        by (constructor; assumption).
      rewrite (init_newer p ps tok ref Hpps Hin Hr).
      cbn [f_options f_tokens paths].
      rewrite (run_without_reference lib n p ps tok ref dirs files)
        by assumption.
      reflexivity.
  - intros tok a Hin Ha. split.
    + intros opts path s Hv. unfold lookup_predicates in Hin.
      repeat (destruct Hin as [<-|Hin]; [|]); [..|destruct Hin].
      all: eexists _, _; split; [reflexivity|];
        match goal with
        | |- context [_get_num_args ?t] =>
            let k := eval vm_compute in (_get_num_args t) in
            change (_get_num_args t) with k
        end;
        cbn [repeat];
        unfold one_arg, star_args, _test_mtime, _test_atime, _test_ctime,
          _test_mmin, _test_amin, _test_cmin, _test_readable,
          _test_writable, _test_executable;
        first [ rewrite vanished_type by exact Hv
              | rewrite vanished_perm by exact Hv
              | rewrite vanished_size by assumption
              | rewrite vanished_time by exact Hv
              | rewrite vanished_empty by exact Hv
              | rewrite vanished_links by exact Hv
              | rewrite vanished_inum by exact Hv
              | rewrite vanished_access by exact Hv ];
        (split; [reflexivity|first [reflexivity|apply set_ticks_same]]).
    + intros Hd -> Hfiles. unfold main.
      assert (Hh : existsb (String.eqb "--help")
                     ("find.py" :: p :: "-mindepth" :: "1" :: tok
                        :: repeat a (_get_num_args tok) ++ ["-o"; "-print"])
                   = false).
      { cbn [existsb]. rewrite Hhp, existsb_app.
        assert (Hrep : existsb (String.eqb "--help")
                         (repeat a (_get_num_args tok)) = false).
        { unfold _get_num_args.
          destruct (existsb (String.eqb tok) one_arg_ops);
            cbn [repeat existsb]; [|reflexivity].
          now rewrite (not_dash_not_help a Hd). }
        rewrite Hrep. unfold lookup_predicates in Hin.
        repeat (destruct Hin as [<-|Hin]; [reflexivity|]). destruct Hin. }
      rewrite Hh. cbn [length Nat.eqb orb tail].
      rewrite (init_lookup p tok a Hp Hin Hd).
      cbn [f_options f_tokens paths].
      destruct (run_over_vanished_entries lib n p tok a files
                  (initial_state fs0 stdin0) Hin Ha Hscan Hfiles)
        as (s' & Hrun & Hfs & _ & Htr).
      rewrite Hrun. exists s'. repeat split; assumption.
Qed.

(** A directory [w] that lists two names which are no longer there. *)
Definition vanished_fs : filesys :=
  list_to_map [ ("w", directory ["gone"; "lost"]) ].

Lemma missing_reference_is_fatal_missing_entry_is_not_witness :
  (starts_expression "w" = false
   /\ Fs.scandir vanished_fs "w" = Some ([], ["gone"; "lost"])
   /\ In "-newer" newer_predicates
   /\ Fs.stat_or_error vanished_fs "nope" = inl ENOENT
   /\ In "-mtime" lookup_predicates /\ "0" <> ""
   /\ Forall (fun f => Fs.lstat_or_error vanished_fs (OsPath.join "w" f)
                       = inl ENOENT) ["gone"; "lost"])
  /\ main quiet_lib 1 ["find.py"; "w"; "t"; "-newer"; "nope"] vanished_fs []
     = Some (1, mk_state 2 ∅ vanished_fs 0 []
                  [Stderr (no_such_file "nope")])
  /\ exists s',
      main quiet_lib 1
        ["find.py"; "w"; "-mindepth"; "1"; "-mtime"; "0"; "-o"; "-print"]
        vanished_fs []
      = Some (0, s')
      /\ fs s' = vanished_fs
      /\ trace s' = [Stdout ("w/gone" ++ nl)%string;
                     Stdout ("w/lost" ++ nl)%string].
Proof.
  assert (H1 : starts_expression "w" = false) by reflexivity.
  assert (H2 : Fs.scandir vanished_fs "w" = Some ([], ["gone"; "lost"]))
    by (vm_compute; reflexivity).
  assert (H3 : In "-newer" newer_predicates) by (simpl; tauto).
  assert (H4 : Fs.stat_or_error vanished_fs "nope" = inl ENOENT)
    by (vm_compute; reflexivity).
  assert (H5 : In "-mtime" lookup_predicates) by (simpl; tauto).
  assert (H6 : "0" <> "") by discriminate.
  assert (H7 : Forall (fun f => Fs.lstat_or_error vanished_fs
                                  (OsPath.join "w" f) = inl ENOENT)
                 ["gone"; "lost"])
    by (repeat constructor; vm_compute; reflexivity).
  split; [tauto|].
  pose proof (missing_reference_is_fatal_missing_entry_is_not quiet_lib 0
                "w" vanished_fs [] [] ["gone"; "lost"] H1 H2) as [HA HB].
  split.
  - exact (proj2 (HA "-newer" "nope" H3 H4) ["t"] eq_refl
             ltac:(repeat constructor)).
  - exact (proj2 (HB "-mtime" "0" H5 H6) eq_refl eq_refl H7).
Defined.
